(** * LocalPM (lpm): local dependency discovery and reuse

    A shallow embedding of the command-line program
    ([getDependencyPaths], [copyDependenciesToLocal] and the top-level
    async block, called [main] here) together with the properties the
    specification states about it.

    The program exists in two revisions.  Module-free definitions below
    follow the revision that resolves unconstrained requests with
    [semver]; module [SrcIndex] follows [src/index.js], whose
    [getDependencyPaths] differs.

    Modelling conventions.
    - JavaScript strings are [string]; [undefined] is [None].
    - A parsed JSON object whose values are strings is an association
      list in insertion order ([JsObject]); a [Map] is the same.
    - The file system, the [glob] crawl, the copy primitive and the
      spawned package manager are oracles collected in [World]; a call
      that can throw outside every [try] answers with an [option].
    - Paths are handled as the POSIX [path] module handles them.
    - The [semver] package is not part of the repository: its [clean]
      and [compare] are parameters ([SemverLib]).
    - The callbacks of a batch are taken in batch order.  In the
      [semver] revision only the order in which versions are recorded
      depends on it; in [src/index.js] an oracle says which callbacks
      find a key already set.
    - The requested identifiers are strings: a purely numeric argument,
      which [yargs] hands over as a number, is outside the model. *)

From Stdlib Require Import List String Ascii Bool Arith ZArith Lia.
From Stdlib Require Import Permutation Sorted.
Import ListNotations.
Open Scope string_scope.
Open Scope list_scope.

(** ** JavaScript primitives *)

Module Js.

(** [s.split(sep)] for a one-character separator: never empty. *)
Fixpoint split (sep : ascii) (s : string) : list string :=
  match s with
  | EmptyString => [EmptyString]
  | String c rest =>
      if Ascii.eqb c sep then EmptyString :: split sep rest
      else match split sep rest with
           | [] => [String c EmptyString]
           | h :: t => String c h :: t
           end
  end.

(** Truthiness of a string value: only the empty string is falsy. *)
Definition truthy (s : string) : bool := negb (s =? "").

(** Truthiness of a possibly [undefined] string. *)
Definition truthyOpt (o : option string) : bool :=
  match o with
  | Some s => truthy s
  | None => false
  end.

(** [s.startsWith(p)] *)
Definition startsWith (p s : string) : bool := String.prefix p s.

(** Objects with string values, own properties in insertion order. *)
Definition JsObject := list (string * string).

(** Own-property read: [hasOwnProperty(o, k)] together with [o[k]]. *)
Fixpoint objGet (o : JsObject) (k : string) : option string :=
  match o with
  | [] => None
  | (k', v) :: o' => if k' =? k then Some v else objGet o' k
  end.

(** Defining the own property [k] with value [v], as object spread does
    for every copied property: an existing key keeps its position. *)
Fixpoint objSet (k v : string) (o : JsObject) : JsObject :=
  match o with
  | [] => [(k, v)]
  | (k', v') :: o' =>
      if k' =? k then (k, v) :: o' else (k', v') :: objSet k v o'
  end.

(** [{...target, ...src}]: the own properties of [src] are assigned
    onto [target] in order. *)
Definition objSpread (target src : JsObject) : JsObject :=
  fold_left (fun acc kv => objSet (fst kv) (snd kv) acc) src target.

(** Spreading [undefined] contributes nothing. *)
Definition objSpreadOpt (target : JsObject) (src : option JsObject)
  : JsObject :=
  match src with
  | Some o => objSpread target o
  | None => target
  end.

(** Names every object inherits from [Object.prototype]; an unguarded
    read [o[k]] of one of them yields a (truthy) function or object
    when [k] is not an own property. *)
Definition objectPrototypeKeys : list string :=
  [ "constructor"; "__defineGetter__"; "__defineSetter__";
    "hasOwnProperty"; "__lookupGetter__"; "__lookupSetter__";
    "isPrototypeOf"; "propertyIsEnumerable"; "toString"; "valueOf";
    "__proto__"; "toLocaleString" ].

Definition inherited (k : string) : bool :=
  existsb (String.eqb k) objectPrototypeKeys.

(** Truthiness of the unguarded read [o[k]]. *)
Definition getTruthy (o : JsObject) (k : string) : bool :=
  match objGet o k with
  | Some v => truthy v
  | None => inherited k
  end.

(** The assignment [o[k] = v] of a string: it updates or adds the own
    property [k], except that [__proto__], when it is not an own
    property, reaches the inherited setter, which ignores a string. *)
Definition objAssign (k v : string) (o : JsObject) : JsObject :=
  match objGet o k with
  | Some _ => objSet k v o
  | None => if k =? "__proto__" then o else objSet k v o
  end.

Definition decimalDigit (c : ascii) : option N :=
  let n := N_of_ascii c in
  if (48 <=? n)%N && (n <=? 57)%N then Some (n - 48)%N else None.

Fixpoint decimalValue (acc : N) (s : string) : option N :=
  match s with
  | EmptyString => Some acc
  | String c rest =>
      match decimalDigit c with
      | Some d => decimalValue (acc * 10 + d)%N rest
      | None => None
      end
  end.

(** The number a key stands for when it is an array index: a decimal
    numeral without leading zero, at most [2^32 - 2]. *)
Definition arrayIndex (k : string) : option N :=
  match k with
  | EmptyString => None
  | String "0" (String _ _) => None
  | _ =>
      match decimalValue 0%N k with
      | Some n => if (n <? 4294967295)%N then Some n else None
      | None => None
      end
  end.

Fixpoint insertIndexed (n : N) (kv : string * string)
  (l : list (N * (string * string))) : list (N * (string * string)) :=
  match l with
  | [] => [(n, kv)]
  | (m, kv') :: l' =>
      if (n <? m)%N then (n, kv) :: (m, kv') :: l'
      else (m, kv') :: insertIndexed n kv l'
  end.

(** The own properties whose key is an array index, in ascending
    numeric order. *)
Fixpoint indexedEntries (o : JsObject) : list (N * (string * string)) :=
  match o with
  | [] => []
  | kv :: o' =>
      match arrayIndex (fst kv) with
      | Some n => insertIndexed n kv (indexedEntries o')
      | None => indexedEntries o'
      end
  end.

(** [Object.entries(o)]: array-index keys first, in ascending numeric
    order, then the other keys in insertion order. *)
Definition objectEntries (o : JsObject) : list (string * string) :=
  map snd (indexedEntries o)
    ++ filter (fun kv => match arrayIndex (fst kv) with
                         | Some _ => false
                         | None => true
                         end) o.

(** [Map.prototype.set] and [new Map(entries)]. *)
Fixpoint mapSet {V : Type} (k : string) (v : V) (m : list (string * V))
  : list (string * V) :=
  match m with
  | [] => [(k, v)]
  | (k', v') :: m' =>
      if k' =? k then (k, v) :: m' else (k', v') :: mapSet k v m'
  end.

Fixpoint mapGet {V : Type} (m : list (string * V)) (k : string)
  : option V :=
  match m with
  | [] => None
  | (k', v) :: m' => if k' =? k then Some v else mapGet m' k
  end.

Definition newMap {V : Type} (entries : list (string * V))
  : list (string * V) :=
  fold_left (fun acc kv => mapSet (fst kv) (snd kv) acc) entries [].

(** [s.replace(/[\^~]/, '')]: without the [g] flag only the first
    caret or tilde, wherever it stands, is removed. *)
Fixpoint replaceFirstRangeMarker (s : string) : string :=
  match s with
  | EmptyString => EmptyString
  | String c rest =>
      if (Ascii.eqb c "^" || Ascii.eqb c "~")%char%bool then rest
      else String c (replaceFirstRangeMarker rest)
  end.

(** Is [sub] a substring of [s] starting at its first character? *)
Definition hasPrefix (sub s : string) : bool := String.prefix sub s.

Definition isLineTerminator (c : ascii) : bool :=
  (Ascii.eqb c "010" || Ascii.eqb c "013")%char%bool.

(** Does [s] match [^.*node_modules] (anchored at its start)? *)
Fixpoint dotStarThen (sub s : string) : bool :=
  hasPrefix sub s ||
  match s with
  | EmptyString => false
  | String c rest => negb (isLineTerminator c) && dotStarThen sub rest
  end.

(** Drop the first [n] characters. *)
Fixpoint drop (n : nat) (s : string) : string :=
  match n, s with
  | O, _ => s
  | S _, EmptyString => EmptyString
  | S n', String _ rest => drop n' rest
  end.

(** [s.match(/node_modules.*node_modules/)] as a boolean. *)
Fixpoint matchNestedNodeModules (s : string) : bool :=
  (hasPrefix "node_modules" s
     && dotStarThen "node_modules" (drop 12 s)) ||
  match s with
  | EmptyString => false
  | String _ rest => matchNestedNodeModules rest
  end.

(** Stable [Array.prototype.sort] with a comparator that may throw
    ([None]); [Lt], [Eq], [Gt] stand for a negative, zero and positive
    comparator result.  It is written as an insertion sort: equal
    elements keep their order, an array of one element is returned
    without a comparison, and every element of a longer array is
    compared at least once. *)
Section Sort.
Variable A : Type.
Variable cmp : A -> A -> option comparison.

Fixpoint insertBy (x : A) (l : list A) : option (list A) :=
  match l with
  | [] => Some [x]
  | y :: l' =>
      match cmp x y with
      | None => None
      | Some Gt => option_map (cons y) (insertBy x l')
      | Some _ => Some (x :: y :: l')
      end
  end.

Fixpoint sort (l : list A) : option (list A) :=
  match l with
  | [] => Some []
  | x :: l' =>
      match sort l' with
      | None => None
      | Some s => insertBy x s
      end
  end.

End Sort.

Arguments insertBy {A} cmp x l.
Arguments sort {A} cmp l.

(** [a[a.length - 1]] *)
Fixpoint lastElement {A : Type} (l : list A) : option A :=
  match l with
  | [] => None
  | [x] => Some x
  | _ :: l' => lastElement l'
  end.

End Js.

(** ** Data model *)

(** The three dependency groups of a manifest ([package.json]); a group
    that is absent is [None]. *)
Record PackageJson := mkPackageJson {
  dependencies : option Js.JsObject;
  devDependencies : option Js.JsObject;
  peerDependencies : option Js.JsObject
}.

(** An element of the array [getDependencyPaths] returns:
    [{dependency, path, version}]. *)
Record Resolution := mkResolution {
  dependency : string;
  path : string;
  version : string
}.

(** An element of a [seenDeps] array: [{version, path}]. *)
Record Seen := mkSeen {
  seenVersion : string;
  seenPath : string
}.

(** [seenDeps]: a [Map] from dependency name to the array of versions
    found for it. *)
Definition SeenDeps := list (string * list Seen).

(** A requested dependency after [dep.split('@')]: [[name, version]]. *)
Definition DependencySpec := (string * option string)%type.

(** An error thrown by an [fs-extra] call. *)
Record FsError := mkFsError {
  code : string;
  message : string
}.

(** Outcome of [fs.copy]: on failure [partialTarget] tells whether the
    target directory was left behind. *)
Inductive CopyResult :=
| CopyOk
| CopyThrows (err : FsError) (partialTarget : bool).

(** Outcome of the spawned package manager: the [close] event with its
    exit code, or the [error] event. *)
Inductive SpawnResult :=
| Closed (exitCode : Z)
| SpawnError.

(** The [--package-manager] choices. *)
Inductive PackageManager := npm | yarn | pnpm.

(** The [semver] package. *)
Record SemverLib := mkSemverLib {
  clean : string -> option string;
  compare : string -> string -> option comparison
}.

(** Everything outside the program.  [drives] is what
    [fs.readdir('\\.\')] yields, [None] when it rejects; [glob] is what
    the scan of one root finds during the run; [ensureDir], [fsRemove]
    and [fsCopy] tell whether the call throws. *)
Record World := mkWorld {
  platform : string;
  drives : option (list string);
  cwd : string;
  glob : string -> list string;
  readJson : string -> option PackageJson;
  pathExists : string -> bool;
  ensureDir : string -> option FsError;
  fsRemove : string -> option FsError;
  fsCopy : string -> string -> CopyResult;
  writeJsonOk : bool;
  spawn : string -> list string -> SpawnResult
}.

(** What the program does that can be observed from outside. *)
Inductive Event :=
| CopyDir (src target : string)
| SpinnerAdded (dep : string)
| SpinnerInstalled (dep ver : string)
| SpinnerInvalidSource (dep : string)
| SpinnerAlreadyInstalled (dep : string)
| SpinnerFailed (dep msg : string)
| ManifestWritten (pj : PackageJson)
| ManifestWriteFailed
| Spawned (cmd : string) (args : list string)
| FallbackSucceeded
| FallbackFailed.

(** How the process ends: [process.exit(code)], normal completion
    (exit code 0), or a rejection nobody handles. *)
Inductive ProcessEnd :=
| ExitCode (z : Z)
| UnhandledRejection.

(** ** Paths: the POSIX [path] module *)

Fixpoint endsWithSlash (s : string) : bool :=
  match s with
  | EmptyString => false
  | String c EmptyString => Ascii.eqb c "/"
  | String _ rest => endsWithSlash rest
  end.

(** [path.isAbsolute(p)] *)
Definition isAbsolute (p : string) : bool := Js.startsWith "/" p.

(** The segments that remain of a path: empty segments and [.] vanish,
    [..] removes the segment before it, and is itself kept only in
    front of a relative path.  [res] holds the segments kept so far,
    last first. *)
Fixpoint normalizeSegments (allowAboveRoot : bool) (res : list string)
  (segs : list string) : list string :=
  match segs with
  | [] => rev res
  | seg :: rest =>
      if (seg =? "") || (seg =? ".")
      then normalizeSegments allowAboveRoot res rest
      else if seg =? ".." then
        match res with
        | last :: res' =>
            if last =? ".."
            then normalizeSegments allowAboveRoot
                   (if allowAboveRoot then seg :: res else res) rest
            else normalizeSegments allowAboveRoot res' rest
        | [] =>
            normalizeSegments allowAboveRoot
              (if allowAboveRoot then [seg] else []) rest
        end
      else normalizeSegments allowAboveRoot (seg :: res) rest
  end.

Definition joinSegments (segs : list string) : string :=
  String.concat "/" segs.

(** [path.normalize(p)] *)
Definition normalize (p : string) : string :=
  if p =? "" then "."
  else
    let body :=
      joinSegments
        (normalizeSegments (negb (isAbsolute p)) [] (Js.split "/" p)) in
    if body =? "" then
      if isAbsolute p then "/"
      else if endsWithSlash p then "./" else "."
    else
      let body := if endsWithSlash p then (body ++ "/")%string else body in
      if isAbsolute p then ("/" ++ body)%string else body.

(** [path.join(...parts)]: empty parts are dropped. *)
Definition pathJoinAll (parts : list string) : string :=
  match filter Js.truthy parts with
  | [] => "."
  | nonEmpty => normalize (joinSegments nonEmpty)
  end.

(** [path.join(a, b)] *)
Definition pathJoin (a b : string) : string := pathJoinAll [a; b].

Fixpoint hasNonSlash (s : string) : bool :=
  match s with
  | EmptyString => false
  | String c rest => negb (Ascii.eqb c "/") || hasNonSlash rest
  end.

(** The position in [s] of the last slash that is followed by a
    character other than a slash. *)
Fixpoint lastSlashBeforeName (s : string) : option nat :=
  match s with
  | EmptyString => None
  | String c rest =>
      match lastSlashBeforeName rest with
      | Some n => Some (S n)
      | None => if Ascii.eqb c "/" && hasNonSlash rest then Some 0 else None
      end
  end.

(** [path.dirname(p)]: the scan for the slash stops before the first
    character. *)
Definition dirname (p : string) : string :=
  match p with
  | EmptyString => "."
  | String c rest =>
      match lastSlashBeforeName rest with
      | None => if Ascii.eqb c "/" then "/" else "."
      | Some 0 => if Ascii.eqb c "/" then "//" else String c EmptyString
      | Some n => String c (substring 0 n rest)
      end
  end.

(** The segments of [path.resolve(p)] for an absolute [p]. *)
Definition resolvedSegments (p : string) : list string :=
  normalizeSegments false [] (Js.split "/" p).

(** From the first segment where the two paths part: one [..] for each
    segment left of [from], then what is left of [to]. *)
Fixpoint relativeSegments (from to : list string) : list string :=
  match from, to with
  | f :: from', t :: to' =>
      if f =? t then relativeSegments from' to'
      else map (fun _ => "..") from ++ to
  | _, _ => map (fun _ => "..") from ++ to
  end.

(** [path.relative(from, to)] for absolute paths: the program calls it
    on a target below [process.cwd()] and a source found by an absolute
    glob. *)
Definition pathRelative (from to : string) : string :=
  joinSegments
    (relativeSegments (resolvedSegments from) (resolvedSegments to)).

(** [relativePath.startsWith('..') || path.isAbsolute(relativePath)]
    for [relativePath = path.relative(target, src)]. *)
Definition sourceOutsideTarget (target src : string) : bool :=
  let relativePath := pathRelative target src in
  Js.startsWith ".." relativePath || isAbsolute relativePath.

(** The segments of [q] after those of [dir], when [q] is [dir] or lies
    below it. *)
Fixpoint segmentsBelow (dir q : list string) : option (list string) :=
  match dir, q with
  | [], _ => Some q
  | d :: dir', s :: q' => if d =? s then segmentsBelow dir' q' else None
  | _ :: _, [] => None
  end.

(** ** [getDependencyPaths] *)

Section Discovery.

Variable semver : SemverLib.
Variable w : World.

(** [const [name, version] = dep.split('@')] *)
Definition parseDependency (dep : string) : DependencySpec :=
  match Js.split "@" dep with
  | [] => (EmptyString, None)
  | [name] => (name, None)
  | name :: ver :: _ => (name, Some ver)
  end.

(** [new Map(dependencyNames.map(...))] *)
Definition dependencySpecs (dependencyNames : list string)
  : list DependencySpec :=
  Js.newMap (map parseDependency dependencyNames).

(** The root directories when no custom one is given: every drive on
    Windows, the file-system root elsewhere; [None] when reading the
    drives rejects. *)
Definition platformRootDirs : option (list string) :=
  if platform w =? "win32"
  then option_map (map (fun drive => (drive ++ ":\")%string)) (drives w)
  else Some ["/"].

(** The root directories to scan; [if (customRootDir)] is false for the
    empty string too. *)
Definition rootDirs (customRootDir : option string)
  : option (list string) :=
  match customRootDir with
  | Some dir => if Js.truthy dir then Some [dir] else platformRootDirs
  | None => platformRootDirs
  end.

Definition localPackageJsonPath : string := pathJoin (cwd w) "package.json".
Definition localNodeModules : string := pathJoin (cwd w) "node_modules".

(** The local manifest as read at the start, [{ dependencies: {} }]
    when it cannot be read. *)
Definition localPackageJson : PackageJson :=
  match readJson w localPackageJsonPath with
  | Some pj => pj
  | None => mkPackageJson (Some []) None None
  end.

(** Truthiness of [localPackageJson.dependencies?.[depName]]. *)
Definition localVersion (depName : string) : bool :=
  match dependencies localPackageJson with
  | Some o => Js.getTruthy o depName
  | None => false
  end.

Definition localModuleExists (depName : string) : bool :=
  pathExists w (pathJoin localNodeModules depName).

(** Filter out dependencies that are already installed. *)
Definition depsToSearch (specs : list DependencySpec)
  : list DependencySpec :=
  filter (fun s => negb (localVersion (fst s))
                   || negb (localModuleExists (fst s))) specs.

(** [(await Promise.all(packageJsonPathsPromises)).flat()]; nothing is
    scanned when the root directories could not be determined. *)
Definition packageJsonPaths (customRootDir : option string)
  : list string :=
  match rootDirs customRootDir with
  | Some roots => flat_map (glob w) roots
  | None => []
  end.

(** The merged dependency groups of one manifest:
    [{...dependencies, ...devDependencies, ...peerDependencies}]. *)
Definition mergeDependencies (pj : PackageJson) : Js.JsObject :=
  Js.objSpreadOpt
    (Js.objSpreadOpt (Js.objSpreadOpt [] (dependencies pj))
                     (devDependencies pj))
    (peerDependencies pj).

(** The test that guards a match:
    [foundVersion && hasOwnProperty(dependencies, depName) &&
     (!depVersion || foundVersion === depVersion)];
    the declared version when it passes. *)
Definition accepts (deps : Js.JsObject) (spec : DependencySpec)
  : option string :=
  match Js.objGet deps (fst spec) with
  | Some foundVersion =>
      if Js.truthy foundVersion
         && (negb (Js.truthyOpt (snd spec))
             || match snd spec with
                | Some depVersion => foundVersion =? depVersion
                | None => false
                end)
      then Some foundVersion
      else None
  | None => None
  end.

Definition nodeModulesPath (packageJsonPath depName : string) : string :=
  pathJoinAll [dirname packageJsonPath; "node_modules"; depName].

(** [seenDeps.get(depName).push(...)], creating the array first. *)
Definition seenPush (depName : string) (s : Seen) (seenDeps : SeenDeps)
  : SeenDeps :=
  match Js.mapGet seenDeps depName with
  | Some versions => Js.mapSet depName (versions ++ [s]) seenDeps
  | None => Js.mapSet depName [s] seenDeps
  end.

(** The loop [for (const [depName, depVersion] of depsToSearch)] inside
    the callback of one manifest.  [matches] is still empty whenever the
    loop goes on: a constrained match returns at once. *)
Fixpoint matchSpecs (deps : Js.JsObject) (packageJsonPath : string)
  (specs : list DependencySpec) (seenDeps : SeenDeps)
  : list Resolution * SeenDeps :=
  match specs with
  | [] => ([], seenDeps)
  | spec :: rest =>
      match accepts deps spec with
      | Some foundVersion =>
          let nmPath := nodeModulesPath packageJsonPath (fst spec) in
          if pathExists w nmPath then
            if negb (Js.truthyOpt (snd spec)) then
              matchSpecs deps packageJsonPath rest
                (seenPush (fst spec)
                   (mkSeen (Js.replaceFirstRangeMarker foundVersion) nmPath)
                   seenDeps)
            else
              ([mkResolution (fst spec) nmPath foundVersion], seenDeps)
          else matchSpecs deps packageJsonPath rest seenDeps
      | None => matchSpecs deps packageJsonPath rest seenDeps
      end
  end.

(** The callback [batch.map(async packageJsonPath => ...)]. *)
Definition processPackageJson (specs : list DependencySpec)
  (packageJsonPath : string) (seenDeps : SeenDeps)
  : list Resolution * SeenDeps :=
  if Js.matchNestedNodeModules packageJsonPath then ([], seenDeps)
  else match readJson w packageJsonPath with
       | None => ([], seenDeps)
       | Some packageJson =>
           matchSpecs (mergeDependencies packageJson) packageJsonPath
             specs seenDeps
       end.

(** One batch: [batchResults.flat()] and the [seenDeps] it leaves. *)
Fixpoint processBatch (specs : list DependencySpec) (batch : list string)
  (seenDeps : SeenDeps) : list Resolution * SeenDeps :=
  match batch with
  | [] => ([], seenDeps)
  | p :: rest =>
      let '(matches, seen1) := processPackageJson specs p seenDeps in
      let '(more, seen2) := processBatch specs rest seen1 in
      (matches ++ more, seen2)
  end.

(** [semver.clean(v) || v] *)
Definition cleanOr (v : string) : string :=
  match clean semver v with
  | Some c => if Js.truthy c then c else v
  | None => v
  end.

(** The comparator handed to [versions.sort]. *)
Definition compareSeen (a b : Seen) : option comparison :=
  compare semver (cleanOr (seenVersion a)) (cleanOr (seenVersion b)).

(** [for (const [depName, versions] of seenDeps.entries())]: the latest
    version of every dependency seen; [None] when [semver.compare]
    throws. *)
Fixpoint latestSeen (seenDeps : SeenDeps) : option (list Resolution) :=
  match seenDeps with
  | [] => Some []
  | (depName, versions) :: rest =>
      match versions with
      | [] => latestSeen rest
      | _ :: _ =>
          match Js.sort compareSeen versions with
          | None => None
          | Some sorted =>
              match Js.lastElement sorted, latestSeen rest with
              | Some latest, Some more =>
                  Some (mkResolution depName (seenPath latest)
                          (seenVersion latest) :: more)
              | _, _ => None
              end
          end
      end
  end.

Definition batchSize : nat := 50.

(** [packageJsonPaths.slice(i, i + batchSize)] for [i = 0, 50, ...]. *)
Fixpoint batchesAux (fuel : nat) (paths : list string)
  : list (list string) :=
  match fuel, paths with
  | _, [] => []
  | O, _ :: _ => []
  | S fuel', _ :: _ =>
      firstn batchSize paths :: batchesAux fuel' (skipn batchSize paths)
  end.

Definition batches (paths : list string) : list (list string) :=
  batchesAux (List.length paths) paths.

(** The batch loop.  It stops at the first batch that leaves
    [flatResults] non-empty; until then [seenDeps] holds no version, so
    the in-place sort of its arrays has nothing to reorder. *)
Fixpoint batchLoop (specs : list DependencySpec) (bs : list (list string))
  (seenDeps : SeenDeps) : option (list Resolution) :=
  match bs with
  | [] => Some []
  | batch :: rest =>
      let '(batchResults, seen') := processBatch specs batch seenDeps in
      match latestSeen seen' with
      | None => None
      | Some latest =>
          match batchResults ++ latest with
          | [] => batchLoop specs rest seen'
          | flatResults => Some flatResults
          end
      end
  end.

(** [getDependencyPaths(dependencyNames, customRootDir)]; [None] is a
    rejected promise: reading the drives rejected, or [semver.compare]
    threw. *)
Definition getDependencyPaths (dependencyNames : list string)
  (customRootDir : option string) : option (list Resolution) :=
  match rootDirs customRootDir with
  | None => None
  | Some _ =>
      match depsToSearch (dependencySpecs dependencyNames) with
      | [] => Some []
      | toSearch =>
          batchLoop toSearch (batches (packageJsonPaths customRootDir)) []
      end
  end.

End Discovery.

(** ** [copyDependenciesToLocal] *)

(** The world after the directory [p] has come into existence, with
    nothing known of its content: after [fs.ensureDir(p)], or after a
    copy to [p] that stopped half-way. *)
Definition withPath (w : World) (p : string) : World :=
  mkWorld (platform w) (drives w) (cwd w) (glob w) (readJson w)
    (fun q => (q =? p) || pathExists w q)
    (ensureDir w) (fsRemove w) (fsCopy w) (writeJsonOk w) (spawn w).

(** The world after [pj] has been written to [p]. *)
Definition withJson (w : World) (p : string) (pj : PackageJson) : World :=
  mkWorld (platform w) (drives w) (cwd w) (glob w)
    (fun q => if q =? p then Some pj else readJson w q)
    (pathExists w)
    (ensureDir w) (fsRemove w) (fsCopy w) (writeJsonOk w) (spawn w).

(** Where the content of [q] comes from when [src] is copied to
    [target] and [q] is [target] or lies below it. *)
Definition copiedFrom (src target q : string) : option string :=
  match segmentsBelow (resolvedSegments target) (resolvedSegments q) with
  | Some rel => Some (pathJoinAll (src :: rel))
  | None => None
  end.

(** The world after [fs.remove(target)] and [fs.copy(src, target,
    { overwrite: true })] have completed.  [fs.remove] ran on a target
    that did not exist and removed nothing.  The copy creates [target]
    and, below it, whatever exists below [src], manifests included: a
    manifest of the source tree is read at the corresponding path below
    [target].  The oracle [glob] is carried on unchanged: the search
    consults it before anything is copied, and afterwards it stands for
    the scan of a root that does not contain the working directory. *)
Definition withCopy (w : World) (src target : string) : World :=
  mkWorld (platform w) (drives w) (cwd w) (glob w)
    (fun q =>
       match copiedFrom src target q with
       | Some q0 =>
           match readJson w q0 with
           | Some pj => Some pj
           | None => readJson w q
           end
       | None => readJson w q
       end)
    (fun q =>
       (q =? target) || pathExists w q
       || match copiedFrom src target q with
          | Some q0 => pathExists w q0
          | None => false
          end)
    (ensureDir w) (fsRemove w) (fsCopy w) (writeJsonOk w) (spawn w).

(** The local manifest as [copyDependenciesToLocal] holds it in memory:
    its [dependencies] group always exists. *)
Definition localManifestForCopy (w : World) : PackageJson :=
  let pj := localPackageJson w in
  match dependencies pj with
  | Some _ => pj
  | None => mkPackageJson (Some []) (devDependencies pj) (peerDependencies pj)
  end.

Definition manifestDependencies (pj : PackageJson) : Js.JsObject :=
  match dependencies pj with
  | Some o => o
  | None => []
  end.

(** [path.join(localNodeModules, dep.dependency)] *)
Definition targetPath (w : World) (dep : Resolution) : string :=
  pathJoin (localNodeModules w) (dependency dep).

(** The [catch] of the copy loop. *)
Definition copyCatch (dep : Resolution) (err : FsError) : Event :=
  if code err =? "EXDEV" then SpinnerAlreadyInstalled (dependency dep)
  else SpinnerFailed (dependency dep) (message err).

(** One turn of [for (const dep of dependencies)]: the world, the
    in-memory [packageJson.dependencies] and the events it adds. *)
Definition installOne (w : World) (deps : Js.JsObject) (dep : Resolution)
  : World * Js.JsObject * list Event :=
  let targetPath := targetPath w dep in
  let depExists := pathExists w targetPath in
  let depInPackageJson := Js.getTruthy deps (dependency dep) in
  if depExists && depInPackageJson then (w, deps, [])
  else if sourceOutsideTarget targetPath (path dep) then
    if depExists then
      (w, Js.objAssign (dependency dep) (version dep) deps,
       [SpinnerAdded (dependency dep)])
    else
      match fsRemove w targetPath with
      | Some err => (w, deps, [copyCatch dep err])
      | None =>
          match fsCopy w (path dep) targetPath with
          | CopyOk =>
              (withCopy w (path dep) targetPath,
               Js.objAssign (dependency dep) (version dep) deps,
               [CopyDir (path dep) targetPath;
                SpinnerInstalled (dependency dep) (version dep)])
          | CopyThrows err partialTarget =>
              (if partialTarget then withPath w targetPath else w,
               deps,
               [CopyDir (path dep) targetPath; copyCatch dep err])
          end
      end
  else (w, deps, [SpinnerInvalidSource (dependency dep)]).

(** The whole copy loop. *)
Fixpoint installAll (w : World) (deps : Js.JsObject)
  (resolved : list Resolution) : World * Js.JsObject * list Event :=
  match resolved with
  | [] => (w, deps, [])
  | dep :: rest =>
      let '(w1, deps1, ev1) := installOne w deps dep in
      let '(w2, deps2, ev2) := installAll w1 deps1 rest in
      (w2, deps2, ev1 ++ ev2)
  end.

Definition packageManagerName (pm : PackageManager) : string :=
  match pm with
  | npm => "npm"
  | yarn => "yarn"
  | pnpm => "pnpm"
  end.

(** [installCommands[packageManager]] *)
Definition installCommands (pm : PackageManager) : list string :=
  match pm with
  | npm => ["install"]
  | yarn => ["add"]
  | pnpm => ["add"]
  end.

(** [d.split('@')[0]] *)
Definition requestedName (d : string) : string :=
  match Js.split "@" d with
  | [] => EmptyString
  | name :: _ => name
  end.

(** [allDependencies.filter(d => !foundDeps.has(d.split('@')[0]))] *)
Definition missingDeps (resolved : list Resolution)
  (allDependencies : list string) : list string :=
  filter (fun d => negb (existsb (String.eqb (requestedName d))
                           (map dependency resolved)))
         allDependencies.

(** Run the package manager on [deps] and wait for it: the events, and
    whether the awaited promise resolved. *)
Definition runPackageManager (w : World) (pm : PackageManager)
  (deps : list string) : list Event * bool :=
  let args := installCommands pm ++ deps in
  match spawn w (packageManagerName pm) args with
  | Closed 0%Z => ([Spawned (packageManagerName pm) args; FallbackSucceeded],
                   true)
  | _ => ([Spawned (packageManagerName pm) args; FallbackFailed], false)
  end.

(** The world after [await fs.ensureDir(localNodeModules)] resolved. *)
Definition afterEnsureDir (w : World) : World :=
  withPath w (localNodeModules w).

(** [copyDependenciesToLocal(dependencies, allDependencies,
    packageManager)] once [fs.ensureDir] of the local [node_modules] has
    resolved: from there on it always returns normally.  What the
    package manager itself does to the disk is outside the model. *)
Definition copyDependenciesToLocal (w0 : World) (resolved : list Resolution)
  (allDependencies : list string) (pm : PackageManager)
  : World * list Event :=
  let w := afterEnsureDir w0 in
  let packageJson := localManifestForCopy w in
  let '(w1, deps1, ev1) :=
    installAll w (manifestDependencies packageJson) resolved in
  let packageJson' :=
    mkPackageJson (Some deps1) (devDependencies packageJson)
      (peerDependencies packageJson) in
  let '(w2, ev2) :=
    if writeJsonOk w1
    then (withJson w1 (localPackageJsonPath w1) packageJson',
          [ManifestWritten packageJson'])
    else (w1, [ManifestWriteFailed]) in
  match missingDeps resolved allDependencies with
  | [] => (w2, ev1 ++ ev2)
  | missing =>
      (w2, ev1 ++ ev2 ++ fst (runPackageManager w2 pm missing))
  end.

(** The whole call [await copyDependenciesToLocal(...)]: [fs.ensureDir]
    stands outside every [try], so when it throws the promise rejects,
    [None], before anything else has happened. *)
Definition awaitCopyDependenciesToLocal (w : World)
  (resolved : list Resolution) (allDependencies : list string)
  (pm : PackageManager) : option (World * list Event) :=
  match ensureDir w (localNodeModules w) with
  | Some _ => None
  | None => Some (copyDependenciesToLocal w resolved allDependencies pm)
  end.

(** ** The top-level block *)

(** A request read from the local manifest, in the order of
    [Object.entries]: a range-prefixed version is requested by name
    only, any other as [name@version]. *)
Definition requestFromManifest (deps : Js.JsObject) : list string :=
  map (fun nv =>
         if Js.startsWith "^" (snd nv) || Js.startsWith "~" (snd nv)
         then fst nv
         else (fst nv ++ "@" ++ snd nv)%string)
      (Js.objectEntries deps).

(** Search, then install or fall back; nothing catches a rejection of
    the search or of [copyDependenciesToLocal]. *)
Definition resolveAndInstall (semver : SemverLib) (w : World)
  (depsToSearch : list string) (customRootDir : option string)
  (pm : PackageManager) : World * list Event * ProcessEnd :=
  match getDependencyPaths semver w depsToSearch customRootDir with
  | None => (w, [], UnhandledRejection)
  | Some [] =>
      let '(ev, ok) := runPackageManager w pm depsToSearch in
      (w, ev, ExitCode (if ok then 0 else 1))
  | Some results =>
      match awaitCopyDependenciesToLocal w results depsToSearch pm with
      | None => (w, [], UnhandledRejection)
      | Some (w', ev) => (w', ev, ExitCode 0)
      end
  end.

(** The program: final world, events and how the process ends. *)
Definition main (semver : SemverLib) (w : World)
  (dependencyNames : list string) (customRootDir : option string)
  (pm : PackageManager) : World * list Event * ProcessEnd :=
  match dependencyNames with
  | [] =>
      match readJson w (localPackageJsonPath w) with
      | None => (w, [], ExitCode 1)
      | Some packageJson =>
          match requestFromManifest (manifestDependencies packageJson) with
          | [] => (w, [], ExitCode 0)
          | depsToSearch =>
              resolveAndInstall semver w depsToSearch customRootDir pm
          end
      end
  | _ :: _ => resolveAndInstall semver w dependencyNames customRootDir pm
  end.

(** ** [src/index.js]: the other [getDependencyPaths]

    This revision has no [semver]: it keeps every match, once per
    [name@version] key, and scans every batch. *)

Module SrcIndex.

Section Discovery.

Variable w : World.

(** The callbacks of one batch run interleaved, and the test
    [seenDeps.has(depKey)] stands before [await fs.access] while
    [seenDeps.set(depKey, true)] stands after it.  When the callback of
    manifest [p] tests a key, the keys of earlier batches are all set;
    whether another callback of the same batch has set the key by then
    depends on how the awaits interleave: [raceLost p depKey] says so
    for the run at hand. *)
Variable raceLost : string -> string -> bool.

(** The loop over [dependencySpecs] inside the callback of one
    manifest; [seenDeps] holds the keys [name@foundVersion] set by
    earlier batches. *)
Fixpoint matchSpecs (deps : Js.JsObject) (packageJsonPath : string)
  (specs : list DependencySpec) (seenDeps : list string)
  : list Resolution :=
  match specs with
  | [] => []
  | spec :: rest =>
      if localVersion w (fst spec) && localModuleExists w (fst spec)
      then matchSpecs deps packageJsonPath rest seenDeps
      else
        match accepts deps spec with
        | Some foundVersion =>
            let depKey := (fst spec ++ "@" ++ foundVersion)%string in
            if existsb (String.eqb depKey) seenDeps
               || raceLost packageJsonPath depKey
            then matchSpecs deps packageJsonPath rest seenDeps
            else
              let nmPath := nodeModulesPath packageJsonPath (fst spec) in
              if pathExists w nmPath then
                mkResolution (fst spec) nmPath foundVersion
                  :: matchSpecs deps packageJsonPath rest seenDeps
              else matchSpecs deps packageJsonPath rest seenDeps
        | None => matchSpecs deps packageJsonPath rest seenDeps
        end
  end.

Definition processPackageJson (specs : list DependencySpec)
  (seenDeps : list string) (packageJsonPath : string)
  : list Resolution :=
  if Js.matchNestedNodeModules packageJsonPath then []
  else match readJson w packageJsonPath with
       | None => []
       | Some packageJson =>
           matchSpecs (mergeDependencies packageJson) packageJsonPath
             specs seenDeps
       end.

(** [depKey] of a result. *)
Definition depKey (r : Resolution) : string :=
  (dependency r ++ "@" ++ version r)%string.

(** [(await Promise.all(batch.map(...))).flat()], and the keys set when
    the batch is done. *)
Definition processBatch (specs : list DependencySpec) (batch : list string)
  (seenDeps : list string) : list Resolution * list string :=
  let batchResults := flat_map (processPackageJson specs seenDeps) batch in
  (batchResults, seenDeps ++ map depKey batchResults).

(** Every batch is processed and appended to [results]. *)
Fixpoint batchLoop (specs : list DependencySpec) (bs : list (list string))
  (seenDeps : list string) : list Resolution :=
  match bs with
  | [] => []
  | batch :: rest =>
      let '(batchResults, seen') := processBatch specs batch seenDeps in
      batchResults ++ batchLoop specs rest seen'
  end.

(** [None] is a rejected promise: reading the drives rejected. *)
Definition getDependencyPaths (dependencyNames : list string)
  (customRootDir : option string) : option (list Resolution) :=
  match rootDirs w customRootDir with
  | None => None
  | Some _ =>
      Some (batchLoop (dependencySpecs dependencyNames)
              (batches (packageJsonPaths w customRootDir)) [])
  end.

End Discovery.

End SrcIndex.

(** ** A stand-in for [semver] on plain [major.minor.patch] versions

    Used to run the program on concrete inputs: it agrees with [semver]
    on strings of the form [major.minor.patch] with three numeric
    identifiers and treats every other string as invalid. *)

Module PlainSemver.

Definition digitValue (c : ascii) : option N :=
  let n := N_of_ascii c in
  if (48 <=? n)%N && (n <=? 57)%N then Some (n - 48)%N else None.

Fixpoint parseNumberAux (acc : N) (s : string) : option N :=
  match s with
  | EmptyString => Some acc
  | String c rest =>
      match digitValue c with
      | Some d => parseNumberAux (acc * 10 + d)%N rest
      | None => None
      end
  end.

(** A numeric identifier: no leading zero, at most
    [Number.MAX_SAFE_INTEGER]. *)
Definition parseNumber (s : string) : option N :=
  match s with
  | EmptyString => None
  | String "0" (String _ _) => None
  | _ =>
      match parseNumberAux 0%N s with
      | Some n => if (n <=? 9007199254740991)%N then Some n else None
      | None => None
      end
  end.

Definition parse (s : string) : option (N * N * N) :=
  match Js.split "." s with
  | [a; b; c] =>
      match parseNumber a, parseNumber b, parseNumber c with
      | Some x, Some y, Some z => Some (x, y, z)
      | _, _, _ => None
      end
  | _ => None
  end.

Definition compareTriple (a b : N * N * N) : comparison :=
  let '(a1, a2, a3) := a in
  let '(b1, b2, b3) := b in
  match (a1 ?= b1)%N with
  | Eq => match (a2 ?= b2)%N with
          | Eq => (a3 ?= b3)%N
          | c => c
          end
  | c => c
  end.

Definition plainClean (s : string) : option string :=
  match parse s with
  | Some _ => Some s
  | None => None
  end.

Definition plainCompare (a b : string) : option comparison :=
  match parse a, parse b with
  | Some x, Some y => Some (compareTriple x y)
  | _, _ => None
  end.

Definition lib : SemverLib := mkSemverLib plainClean plainCompare.

End PlainSemver.

(** ** Order properties expected of [semver.compare]

    Wherever it returns, [compare] is a total preorder: swapping the
    arguments swaps the sign, and "not greater" is transitive. *)

Definition semverLe (semver : SemverLib) (a b : string) : Prop :=
  compare semver a b = Some Lt \/ compare semver a b = Some Eq.

Record SemverOrder (semver : SemverLib) : Prop := mkSemverOrder {
  compare_gt_lt : forall a b,
    compare semver a b = Some Gt -> compare semver b a = Some Lt;
  compare_lt_gt : forall a b,
    compare semver a b = Some Lt -> compare semver b a = Some Gt;
  compare_le_trans : forall a b c,
    semverLe semver a b -> semverLe semver b c -> semverLe semver a c
}.

(** The version [a] does not rank above [b] once both are cleaned. *)
Definition seenLe (semver : SemverLib) (a b : Seen) : Prop :=
  semverLe semver (cleanOr semver (seenVersion a))
                  (cleanOr semver (seenVersion b)).

(** Every candidate a crawl of all manifests at once records for
    [name]: "all candidates found across the entire crawl". *)
Definition candidatesAcrossCrawl (w : World) (dependencyNames : list string)
  (customRootDir : option string) (name : string) : list Seen :=
  match Js.mapGet
          (snd (processBatch w
                  (depsToSearch w (dependencySpecs dependencyNames))
                  (packageJsonPaths w customRootDir) []))
          name with
  | Some versions => versions
  | None => []
  end.

(** The reading of the specification under which an unconstrained
    result is a maximum over the entire crawl. *)
Definition selectsMaximumOfCrawl (semver : SemverLib) (w : World)
  (dependencyNames : list string) (customRootDir : option string) : Prop :=
  forall results r c,
    getDependencyPaths semver w dependencyNames customRootDir
      = Some results ->
    In r results ->
    In c (candidatesAcrossCrawl w dependencyNames customRootDir
            (dependency r)) ->
    seenLe semver c (mkSeen (version r) (path r)).

(** "Not greater" for a comparator that may throw. *)
Definition notGreater {A : Type} (cmp : A -> A -> option comparison)
  (x y : A) : Prop :=
  cmp x y = Some Lt \/ cmp x y = Some Eq.

(** Every key of [seenDeps] satisfies [P]. *)
Definition keysSatisfy (P : string -> Prop) (seenDeps : SeenDeps) : Prop :=
  Forall (fun entry => P (fst entry)) seenDeps.

(** No array of [seenDeps] is empty: an array is created only to
    receive its first version. *)
Definition seenNonEmpty (seenDeps : SeenDeps) : Prop :=
  Forall (fun entry => snd entry <> []) seenDeps.

(** [semver.compare] accepts every pair of versions seen for one
    dependency: none of them makes it throw. *)
Definition comparable (semver : SemverLib) (seenDeps : SeenDeps) : Prop :=
  forall name versions a b,
    In (name, versions) seenDeps -> In a versions -> In b versions ->
    compareSeen semver a b <> None.

(** ** Concrete worlds *)

Module Scenario.

(** A quiet Linux machine: nothing on disk, every copy succeeds, the
    package manager exits with 0. *)
Definition emptyWorld : World :=
  mkWorld "linux" (Some []) "/proj"
    (fun _ => [])
    (fun _ => None)
    (fun _ => false)
    (fun _ => None)
    (fun _ => None)
    (fun _ _ => CopyOk)
    true
    (fun _ _ => Closed 0).

Definition manifestWith (deps : Js.JsObject) : PackageJson :=
  mkPackageJson (Some deps) None None.

Fixpoint repeatX (n : nat) : string :=
  match n with
  | O => EmptyString
  | S n' => String "x" (repeatX n')
  end.

(** Manifests of projects that declare no dependency at all. *)
Definition fillerPath (n : nat) : string :=
  ("/cache/" ++ repeatX (S n) ++ "/package.json")%string.

Definition fillerPaths (n : nat) : list string :=
  map fillerPath (seq 0 n).

(** [left-pad] 1.0.0 is declared by the first manifest of the crawl and
    2.0.0 by the fifty-first; both are installed next to their
    manifest. *)
Definition twoBatches : World :=
  mkWorld "linux" (Some []) "/proj"
    (fun root =>
       if root =? "/cache"
       then "/cache/old/package.json" :: fillerPaths 49
              ++ ["/cache/new/package.json"]
       else [])
    (fun p =>
       if p =? "/cache/old/package.json"
       then Some (manifestWith [("left-pad", "1.0.0")])
       else if p =? "/cache/new/package.json"
       then Some (manifestWith [("left-pad", "2.0.0")])
       else if p =? "/proj/package.json" then None
       else Some (manifestWith []))
    (fun p => (p =? "/cache/old/node_modules/left-pad")
              || (p =? "/cache/new/node_modules/left-pad"))
    (fun _ => None)
    (fun _ => None)
    (fun _ _ => CopyOk)
    true
    (fun _ _ => Closed 0).

(** The same projects as in [twoBatches], met in the opposite order. *)
Definition twoBatchesReversed : World :=
  mkWorld "linux" (Some []) "/proj"
    (fun root =>
       if root =? "/cache"
       then "/cache/new/package.json" :: fillerPaths 49
              ++ ["/cache/old/package.json"]
       else [])
    (readJson twoBatches)
    (pathExists twoBatches)
    (fun _ => None)
    (fun _ => None)
    (fun _ _ => CopyOk)
    true
    (fun _ _ => Closed 0).

(** Two projects of the same batch both hold [react] 17.0.2. *)
Definition twoReacts : World :=
  mkWorld "linux" (Some []) "/proj"
    (fun root =>
       if root =? "/cache"
       then ["/cache/a/package.json"; "/cache/b/package.json"]
       else [])
    (fun p =>
       if (p =? "/cache/a/package.json") || (p =? "/cache/b/package.json")
       then Some (manifestWith [("react", "17.0.2")])
       else None)
    (fun p => (p =? "/cache/a/node_modules/react")
              || (p =? "/cache/b/node_modules/react"))
    (fun _ => None)
    (fun _ => None)
    (fun _ _ => CopyOk)
    true
    (fun _ _ => Closed 0).

(** One project holds both [a] 1.0.0 and [b] 2.0.0. *)
Definition twoPinned : World :=
  mkWorld "linux" (Some []) "/proj"
    (fun root => if root =? "/cache" then ["/cache/app/package.json"] else [])
    (fun p =>
       if p =? "/cache/app/package.json"
       then Some (manifestWith [("a", "1.0.0"); ("b", "2.0.0")])
       else None)
    (fun p => (p =? "/cache/app/node_modules/a")
              || (p =? "/cache/app/node_modules/b"))
    (fun _ => None)
    (fun _ => None)
    (fun _ _ => CopyOk)
    true
    (fun _ _ => Closed 0).

(** Two projects of the same batch hold different versions of
    [left-pad]. *)
Definition twoVersions : World :=
  mkWorld "linux" (Some []) "/proj"
    (fun root =>
       if root =? "/cache"
       then ["/cache/a/package.json"; "/cache/b/package.json"]
       else [])
    (fun p =>
       if p =? "/cache/a/package.json"
       then Some (manifestWith [("left-pad", "~2.1.0")])
       else if p =? "/cache/b/package.json"
       then Some (manifestWith [("left-pad", "^1.3.0")])
       else None)
    (fun p => (p =? "/cache/a/node_modules/left-pad")
              || (p =? "/cache/b/node_modules/left-pad"))
    (fun _ => None)
    (fun _ => None)
    (fun _ _ => CopyOk)
    true
    (fun _ _ => Closed 0).

(** One project in the cache holds [left-pad] ^1.3.0; there is no local
    manifest.  [exitCode] is what the package manager exits with. *)
Definition leftPadCached (exitCode : Z) : World :=
  mkWorld "linux" (Some []) "/proj"
    (fun root => if root =? "/cache" then ["/cache/app/package.json"] else [])
    (fun p =>
       if p =? "/cache/app/package.json"
       then Some (manifestWith [("left-pad", "^1.3.0")])
       else None)
    (fun p => p =? "/cache/app/node_modules/left-pad")
    (fun _ => None)
    (fun _ => None)
    (fun _ _ => CopyOk)
    true
    (fun _ _ => Closed exitCode).

(** As [leftPadCached], in a project whose manifest cannot be
    written. *)
Definition manifestNotWritable : World :=
  mkWorld "linux" (Some []) "/proj"
    (glob (leftPadCached 0))
    (readJson (leftPadCached 0))
    (pathExists (leftPadCached 0))
    (fun _ => None)
    (fun _ => None)
    (fun _ _ => CopyOk)
    false
    (fun _ _ => Closed 0).

(** As [leftPadCached], with [is-odd] 3.0.1 already in the local
    manifest and in the local [node_modules]. *)
Definition isOddInstalled : World :=
  mkWorld "linux" (Some []) "/proj"
    (fun root => if root =? "/cache" then ["/cache/app/package.json"] else [])
    (fun p =>
       if p =? "/cache/app/package.json"
       then Some (manifestWith [("left-pad", "^1.3.0")])
       else if p =? "/proj/package.json"
       then Some (manifestWith [("is-odd", "3.0.1")])
       else None)
    (fun p => (p =? "/cache/app/node_modules/left-pad")
              || (p =? "/proj/node_modules/is-odd"))
    (fun _ => None)
    (fun _ => None)
    (fun _ _ => CopyOk)
    true
    (fun _ _ => Closed 0).

(** As [leftPadCached], in a project where [node_modules] cannot be
    created. *)
Definition nodeModulesNotCreatable : World :=
  mkWorld "linux" (Some []) "/proj"
    (glob (leftPadCached 0))
    (readJson (leftPadCached 0))
    (pathExists (leftPadCached 0))
    (fun _ => Some (mkFsError "EACCES" "permission denied"))
    (fun _ => None)
    (fun _ _ => CopyOk)
    true
    (fun _ _ => Closed 0).

(** A Windows machine whose drives cannot be listed. *)
Definition drivesUnreadable : World :=
  mkWorld "win32" None "C:\proj"
    (fun _ => [])
    (fun _ => None)
    (fun _ => false)
    (fun _ => None)
    (fun _ => None)
    (fun _ _ => CopyOk)
    true
    (fun _ _ => Closed 0).

(** As [leftPadCached], on a machine where copying into the project
    crosses a device boundary. *)
Definition crossDevice : World :=
  mkWorld "linux" (Some []) "/proj"
    (fun root => if root =? "/cache" then ["/cache/app/package.json"] else [])
    (fun p =>
       if p =? "/cache/app/package.json"
       then Some (manifestWith [("left-pad", "^1.3.0"); ("is-odd", "3.0.1")])
       else None)
    (fun p => (p =? "/cache/app/node_modules/left-pad")
              || (p =? "/cache/app/node_modules/is-odd"))
    (fun _ => None)
    (fun _ => None)
    (fun src _ =>
       if src =? "/cache/app/node_modules/left-pad"
       then CopyThrows (mkFsError "EXDEV" "cross-device link not permitted")
                       false
       else CopyOk)
    true
    (fun _ _ => Closed 0).

End Scenario.

(** ** Readings of the specification that the program is compared with *)

(** A parser "that splits the identifier on the first [@]": the name is
    what precedes it, the constraint everything that follows. *)
Fixpoint splitOnFirstAt (dep : string) : DependencySpec :=
  match dep with
  | EmptyString => (EmptyString, None)
  | String c rest =>
      if Ascii.eqb c "@" then (EmptyString, Some rest)
      else (String c (fst (splitOnFirstAt rest)), snd (splitOnFirstAt rest))
  end.

(** "First group wins": the version an earlier group declares for a
    name is not overwritten by a later group. *)
Definition groupGet (group : option Js.JsObject) (name : string)
  : option string :=
  match group with
  | Some o => Js.objGet o name
  | None => None
  end.

Definition firstGroupWins (pj : PackageJson) (name : string)
  : option string :=
  match groupGet (dependencies pj) name with
  | Some v => Some v
  | None =>
      match groupGet (devDependencies pj) name with
      | Some v => Some v
      | None => groupGet (peerDependencies pj) name
      end
  end.

(** "Last group wins": what object spread does. *)
Definition lastGroupWins (pj : PackageJson) (name : string)
  : option string :=
  match groupGet (peerDependencies pj) name with
  | Some v => Some v
  | None =>
      match groupGet (devDependencies pj) name with
      | Some v => Some v
      | None => groupGet (dependencies pj) name
      end
  end.

(** A parsed JSON object has no repeated key. *)
Definition groupWellFormed (group : option Js.JsObject) : Prop :=
  match group with
  | Some o => NoDup (map fst o)
  | None => True
  end.

(** Names of the resolutions, in order. *)
Definition resolvedNames (rs : list Resolution) : list string :=
  map dependency rs.

(** Every version recorded in [seenDeps] satisfies [S], together with
    the name it is recorded under. *)
Definition seenEntriesSatisfy (S : string -> Seen -> Prop)
  (seenDeps : SeenDeps) : Prop :=
  forall name versions s,
    In (name, versions) seenDeps -> In s versions -> S name s.

(** The manifest at [p] is analysed (it parses and does not lie below
    nested [node_modules]), declares [name] with the non-empty version
    [declared], and the directory of [name] stands next to it. *)
Definition declaredAt (w : World) (p name declared : string) : Prop :=
  Js.matchNestedNodeModules p = false
  /\ (exists pj, readJson w p = Some pj
                 /\ Js.objGet (mergeDependencies pj) name = Some declared)
  /\ Js.truthy declared = true
  /\ pathExists w (nodeModulesPath p name) = true.

(** C2 as the specification words it: for a requested spec with an
    explicit constraint, a candidate (a manifest of the crawl declares
    the dependency and its directory stands next to the manifest) is
    among the results of the search if and only if the version it
    declares is the constraint. *)
Definition acceptsExactCandidates (semver : SemverLib) (w : World)
  (dependencyNames : list string) (customRootDir : option string) : Prop :=
  forall rs name constraint p declared,
    getDependencyPaths semver w dependencyNames customRootDir = Some rs ->
    In (name, Some constraint) (dependencySpecs dependencyNames) ->
    Js.truthy constraint = true ->
    In p (packageJsonPaths w customRootDir) ->
    declaredAt w p name declared ->
    (In (mkResolution name (nodeModulesPath p name) declared) rs
     <-> declared = constraint).

(** Number of resolutions named [name]. *)
Definition resolutionsNamed (name : string) (rs : list Resolution) : nat :=
  List.length (filter (fun r => dependency r =? name) rs).

(** Events that start a copy. *)
Definition isCopyTo (target : string) (e : Event) : bool :=
  match e with
  | CopyDir _ t => t =? target
  | _ => false
  end.

(** Is the dependency satisfied by the local manifest held in memory and
    the local [node_modules]? *)
Definition satisfiedIn (w : World) (deps : Js.JsObject) (name : string)
  : bool :=
  pathExists w (pathJoin (localNodeModules w) name) && Js.getTruthy deps name.

(** What every step of [copyDependenciesToLocal] keeps: the working
    directory and the answers of the calls still to come, and every
    path that exists. *)
Definition onlyAdds (w w' : World) : Prop :=
  cwd w' = cwd w
  /\ fsRemove w' = fsRemove w
  /\ fsCopy w' = fsCopy w
  /\ writeJsonOk w' = writeJsonOk w
  /\ spawn w' = spawn w
  /\ (forall p, pathExists w p = true -> pathExists w' p = true).

(** The installer reports that [name] was not installed: its source is
    not a valid location, the copy crossed devices, or it failed. *)
Definition reportedNotInstalled (name : string) (events : list Event)
  : Prop :=
  In (SpinnerInvalidSource name) events
  \/ In (SpinnerAlreadyInstalled name) events
  \/ exists msg, In (SpinnerFailed name msg) events.

(** What the top-level block asks for: the identifiers on the command
    line or, without any, those read from the local manifest; [None]
    when there is neither. *)
Definition requested (w : World) (dependencyNames : list string)
  : option (list string) :=
  match dependencyNames with
  | [] =>
      match readJson w (localPackageJsonPath w) with
      | None => None
      | Some packageJson =>
          Some (requestFromManifest (manifestDependencies packageJson))
      end
  | _ :: _ => Some dependencyNames
  end.

(** * Properties *)

(** ** Objects and maps *)

Lemma objGet_objSet (o : Js.JsObject) (k v k' : string) :
  Js.objGet (Js.objSet k v o) k'
  = if k =? k' then Some v else Js.objGet o k'.
Proof.
  induction o as [|[k0 v0] o IH]; simpl.
  - reflexivity.
  - destruct (k0 =? k) eqn:E0; simpl.
    + apply String.eqb_eq in E0; subst k0.
      destruct (k =? k'); reflexivity.
    + rewrite IH. destruct (k0 =? k') eqn:E1; [|reflexivity].
      apply String.eqb_eq in E1; subst k0.
      now rewrite String.eqb_sym, E0.
Qed.

(** An assignment defines the property, or is the ignored assignment
    to an inherited [__proto__]. *)
Lemma objAssign_cases (o : Js.JsObject) (k v : string) :
  Js.objAssign k v o = Js.objSet k v o
  \/ (k = "__proto__" /\ Js.objGet o k = None /\ Js.objAssign k v o = o).
Proof.
  unfold Js.objAssign. destruct (Js.objGet o k) eqn:E; [now left|].
  destruct (k =? "__proto__") eqn:Ek; [|now left].
  apply String.eqb_eq in Ek. right. auto.
Qed.

Lemma objGet_objAssign (o : Js.JsObject) (k v k' : string) :
  k <> "__proto__" ->
  Js.objGet (Js.objAssign k v o) k'
  = if k =? k' then Some v else Js.objGet o k'.
Proof.
  intros Hk. destruct (objAssign_cases o k v) as [E|(E & _)].
  - rewrite E. apply objGet_objSet.
  - contradiction.
Qed.

Lemma objGet_objAssign_cases (o : Js.JsObject) (k v k' : string) :
  Js.objGet (Js.objAssign k v o) k' = Js.objGet o k'
  \/ (k' = k /\ Js.objGet (Js.objAssign k v o) k' = Some v).
Proof.
  destruct (objAssign_cases o k v) as [E|(_ & _ & E)]; rewrite E.
  - rewrite objGet_objSet. destruct (k =? k') eqn:Ek; [|now left].
    apply String.eqb_eq in Ek. right. now split.
  - now left.
Qed.

(** After the assignment of a truthy value the read [o[k]] is truthy:
    an inherited [__proto__] reads as [Object.prototype]. *)
Lemma getTruthy_objAssign (o : Js.JsObject) (k v : string) :
  Js.truthy v = true -> Js.getTruthy (Js.objAssign k v o) k = true.
Proof.
  intros Hv. destruct (objAssign_cases o k v) as [E|(Ek & Hn & E)];
    rewrite E; unfold Js.getTruthy.
  - now rewrite objGet_objSet, String.eqb_refl.
  - rewrite Hn. subst k. reflexivity.
Qed.

Lemma objGet_absent (o : Js.JsObject) (k : string) :
  ~ In k (map fst o) -> Js.objGet o k = None.
Proof.
  induction o as [|[k0 v0] o IH]; simpl; intros H.
  - reflexivity.
  - destruct (k0 =? k) eqn:E.
    + apply String.eqb_eq in E. tauto.
    + apply IH. tauto.
Qed.

Lemma objGet_objSpread (src target : Js.JsObject) (k : string) :
  NoDup (map fst src) ->
  Js.objGet (Js.objSpread target src) k
  = match Js.objGet src k with
    | Some v => Some v
    | None => Js.objGet target k
    end.
Proof.
  unfold Js.objSpread. revert target.
  induction src as [|[k0 v0] src IH]; simpl; intros target Hnd.
  - reflexivity.
  - inversion Hnd as [|? ? Hnotin Hnd']; subst.
    rewrite IH by assumption. rewrite objGet_objSet.
    destruct (k0 =? k) eqn:E.
    + apply String.eqb_eq in E; subst k0.
      now rewrite objGet_absent.
    + reflexivity.
Qed.

Lemma objGet_objSpreadOpt (src : option Js.JsObject) (target : Js.JsObject)
  (k : string) :
  groupWellFormed src ->
  Js.objGet (Js.objSpreadOpt target src) k
  = match groupGet src k with
    | Some v => Some v
    | None => Js.objGet target k
    end.
Proof.
  destruct src as [o|]; simpl; intros H.
  - now apply objGet_objSpread.
  - reflexivity.
Qed.

(** ** C6: merging the dependency groups *)

(** C6, as the specification words it, fails: when the regular and the
    dev group both declare [a], the merged mapping holds the dev
    version, not the regular one. *)
Lemma merge_is_not_first_group_wins :
  let pj := mkPackageJson (Some [("a", "1.0.0")]) (Some [("a", "2.0.0")])
                          None in
  Js.objGet (mergeDependencies pj) "a" = Some "2.0.0"
  /\ firstGroupWins pj "a" = Some "1.0.0"
  /\ Js.objGet (mergeDependencies pj) "a" <> firstGroupWins pj "a".
Proof.
  cbv zeta. repeat split; try reflexivity. discriminate.
Qed.

(** C6, amended: the merge of the three groups (regular, dev, peer, in
    that order) resolves a name collision last-group-wins; a later
    group overwrites the version an earlier group declares. *)
Theorem merge_last_group_wins (pj : PackageJson) (name : string) :
  groupWellFormed (dependencies pj) ->
  groupWellFormed (devDependencies pj) ->
  groupWellFormed (peerDependencies pj) ->
  Js.objGet (mergeDependencies pj) name = lastGroupWins pj name.
Proof.
  intros Hr Hd Hp. unfold mergeDependencies, lastGroupWins.
  rewrite !objGet_objSpreadOpt by assumption.
  destruct (groupGet (peerDependencies pj) name),
           (groupGet (devDependencies pj) name),
           (groupGet (dependencies pj) name); reflexivity.
Qed.

Lemma merge_last_group_wins_witness :
  Js.objGet
    (mergeDependencies
       (mkPackageJson (Some [("a", "1.0.0"); ("b", "1.1.0")])
                      (Some [("a", "2.0.0")])
                      (Some [("b", "3.0.0")])))
    "a" = Some "2.0.0".
Proof.
  apply (@merge_last_group_wins
           (mkPackageJson (Some [("a", "1.0.0"); ("b", "1.1.0")])
                          (Some [("a", "2.0.0")])
                          (Some [("b", "3.0.0")])) "a");
    simpl; repeat constructor; simpl; intuition discriminate.
Defined.

(** ** Parsing a requested identifier *)

Lemma split_not_nil (sep : ascii) (s : string) : Js.split sep s <> [].
Proof.
  destruct s as [|c rest]; simpl.
  - discriminate.
  - destruct (Ascii.eqb c sep); [discriminate|].
    destruct (Js.split sep rest); discriminate.
Qed.

Lemma split_without_separator (sep : ascii) (s : string) :
  ~ In sep (list_ascii_of_string s) -> Js.split sep s = [s].
Proof.
  induction s as [|c rest IH]; simpl; intros H.
  - reflexivity.
  - destruct (Ascii.eqb c sep) eqn:E.
    + apply Ascii.eqb_eq in E. tauto.
    + rewrite IH by tauto. reflexivity.
Qed.

(** Without a further [@] the constraint of a scoped identifier is all
    that follows the leading [@]. *)
Lemma requestedName_without_at (rest : string) :
  ~ In "@"%char (list_ascii_of_string rest) -> requestedName rest = rest.
Proof.
  intros H. unfold requestedName.
  now rewrite split_without_separator.
Qed.

(** ** C9: scoped identifiers *)

(** C9, as worded, fails on a scoped identifier that carries a version:
    the constraint is the text up to the second [@], not the remainder
    of the identifier. *)
Lemma scoped_constraint_is_not_the_remainder :
  parseDependency "@scope/pkg@1.0.0" = ("", Some "scope/pkg")
  /\ splitOnFirstAt "@scope/pkg@1.0.0" = ("", Some "scope/pkg@1.0.0")
  /\ parseDependency "@scope/pkg@1.0.0" <> splitOnFirstAt "@scope/pkg@1.0.0".
Proof.
  repeat split; try reflexivity. discriminate.
Qed.

(** C9, amended: an identifier that begins with [@] is parsed into the
    empty name, with the text between its first and its next [@] (all
    the rest when there is no other [@]) as version constraint; a
    manifest is then consulted under the empty name only, so one
    without an entry of that name never matches. *)
Theorem scoped_identifier_has_empty_name (rest : string)
  (deps : Js.JsObject) :
  Js.objGet deps "" = None ->
  parseDependency (String "@" rest) = ("", Some (requestedName rest))
  /\ accepts deps (parseDependency (String "@" rest)) = None.
Proof.
  intros Hget.
  assert (Hparse : parseDependency (String "@" rest)
                   = ("", Some (requestedName rest))).
  { unfold parseDependency, requestedName. simpl.
    destruct (Js.split "@" rest) as [|h t] eqn:E; [|reflexivity].
    now apply split_not_nil in E. }
  split; [exact Hparse|].
  rewrite Hparse. unfold accepts. simpl. now rewrite Hget.
Qed.

Lemma scoped_identifier_has_empty_name_witness :
  parseDependency "@scope/pkg" = ("", Some "scope/pkg")
  /\ accepts [("@scope/pkg", "1.0.0")] (parseDependency "@scope/pkg") = None.
Proof.
  apply (@scoped_identifier_has_empty_name "scope/pkg"
           [("@scope/pkg", "1.0.0")]).
  reflexivity.
Defined.

(** ** Version constraints are compared verbatim *)

Lemma accepts_constrained (deps : Js.JsObject) (name constraint : string)
  (found : string) :
  Js.truthy constraint = true ->
  accepts deps (name, Some constraint) = Some found
  <-> Js.objGet deps name = Some found /\ found = constraint.
Proof.
  intros Ht. unfold accepts. simpl. rewrite Ht. simpl.
  destruct (Js.objGet deps name) as [declared|]; [|split; [|intros []]; discriminate].
  destruct (declared =? constraint) eqn:E.
  - apply String.eqb_eq in E. subst declared. rewrite Ht. simpl.
    split.
    + intros H. injection H as <-. split; reflexivity.
    + intros [H _]. exact H.
  - rewrite andb_false_r. split; [discriminate|].
    intros [H1 H2]. injection H1 as ->. subst.
    now rewrite String.eqb_refl in E.
Qed.

(** Every constrained match a manifest yields carries the version the
    manifest declares, and that version is the constraint itself. *)
Lemma matchSpecs_sound (w : World) (deps : Js.JsObject)
  (packageJsonPath : string) (specs : list DependencySpec)
  (seenDeps : SeenDeps) (r : Resolution) :
  In r (fst (matchSpecs w deps packageJsonPath specs seenDeps)) ->
  In (dependency r, Some (version r)) specs
  /\ Js.truthy (version r) = true
  /\ Js.objGet deps (dependency r) = Some (version r)
  /\ path r = nodeModulesPath packageJsonPath (dependency r)
  /\ pathExists w (path r) = true.
Proof.
  revert seenDeps.
  induction specs as [|[name ver] rest IH]; simpl; intros seenDeps Hin.
  - contradiction.
  - assert (Hrest : forall s,
               In r (fst (matchSpecs w deps packageJsonPath rest s)) ->
               (((name, ver) = (dependency r, Some (version r))
                 \/ In (dependency r, Some (version r)) rest)
                /\ Js.truthy (version r) = true
                /\ Js.objGet deps (dependency r) = Some (version r)
                /\ path r = nodeModulesPath packageJsonPath (dependency r)
                /\ pathExists w (path r) = true)).
    { intros s Hs. destruct (IH s Hs) as (H1 & H2). split; [now right|exact H2]. }
    destruct (accepts deps (name, ver)) as [found|] eqn:Eacc; [|eauto].
    destruct (pathExists w (nodeModulesPath packageJsonPath name)) eqn:Eex;
      [|eauto].
    destruct ver as [constraint|]; simpl in Hin; [|eauto].
    destruct (Js.truthy constraint) eqn:Et; simpl in Hin; [|eauto].
    destruct Hin as [<-|[]]. simpl.
    apply accepts_constrained in Eacc; [|exact Et].
    destruct Eacc as [Hget ->].
    repeat split; auto.
Qed.

(** While no constrained match is met the loop of a manifest goes on to
    the specs that follow. *)
Lemma matchSpecs_app (w : World) (deps : Js.JsObject)
  (packageJsonPath : string) (before rest : list DependencySpec)
  (seenDeps : SeenDeps) :
  fst (matchSpecs w deps packageJsonPath before seenDeps) = [] ->
  matchSpecs w deps packageJsonPath (before ++ rest) seenDeps
  = matchSpecs w deps packageJsonPath rest
      (snd (matchSpecs w deps packageJsonPath before seenDeps)).
Proof.
  revert seenDeps. induction before as [|spec before IH]; simpl;
    intros seenDeps H.
  - reflexivity.
  - destruct (accepts deps spec); [|auto].
    destruct (pathExists w _); [|auto].
    destruct (negb (Js.truthyOpt (snd spec))); [auto|].
    simpl in H. discriminate.
Qed.

(** In the loop of one manifest, a constrained spec that the loop
    reaches (the specs [before] it gave no constrained match) returns
    its candidate exactly when the declared string is the constraint;
    otherwise the loop goes on. *)
Lemma matchSpecs_constrained_reached (w : World)
  (deps : Js.JsObject) (packageJsonPath name constraint declared : string)
  (before after : list DependencySpec) (seenDeps : SeenDeps) :
  Js.truthy constraint = true ->
  Js.objGet deps name = Some declared ->
  pathExists w (nodeModulesPath packageJsonPath name) = true ->
  fst (matchSpecs w deps packageJsonPath before seenDeps) = [] ->
  let specs := before ++ (name, Some constraint) :: after in
  let seen1 := snd (matchSpecs w deps packageJsonPath before seenDeps) in
  (declared = constraint ->
   matchSpecs w deps packageJsonPath specs seenDeps
   = ([mkResolution name (nodeModulesPath packageJsonPath name) declared],
      seen1))
  /\ (declared <> constraint ->
      matchSpecs w deps packageJsonPath specs seenDeps
      = matchSpecs w deps packageJsonPath after seen1).
Proof.
  intros Ht Hget Hex Hbefore specs seen1.
  assert (Happ : matchSpecs w deps packageJsonPath specs seenDeps
                 = matchSpecs w deps packageJsonPath
                     ((name, Some constraint) :: after) seen1)
    by (apply matchSpecs_app; exact Hbefore).
  rewrite Happ. simpl.
  split.
  - intros ->.
    assert (H : accepts deps (name, Some constraint) = Some constraint)
      by (apply accepts_constrained; auto).
    rewrite H, Hex, Ht. reflexivity.
  - intros Hneq.
    destruct (accepts deps (name, Some constraint)) as [found|] eqn:Eacc;
      [|reflexivity].
    apply accepts_constrained in Eacc; [|exact Ht].
    destruct Eacc as [Hf ->]. congruence.
Qed.

(** What a manifest returns does not depend on the versions recorded
    so far. *)
Lemma matchSpecs_matches_independent (w : World) (deps : Js.JsObject)
  (packageJsonPath : string) (specs : list DependencySpec)
  (seenDeps seenDeps' : SeenDeps) :
  fst (matchSpecs w deps packageJsonPath specs seenDeps)
  = fst (matchSpecs w deps packageJsonPath specs seenDeps').
Proof.
  revert seenDeps seenDeps'.
  induction specs as [|spec rest IH]; simpl; intros seenDeps seenDeps'.
  - reflexivity.
  - destruct (accepts deps spec); [|apply IH].
    destruct (pathExists w _); [|apply IH].
    destruct (negb (Js.truthyOpt (snd spec))); [apply IH|reflexivity].
Qed.

Lemma processBatch_contains (w : World) (specs : list DependencySpec)
  (batch : list string) (seenDeps : SeenDeps) (p : string)
  (pj : PackageJson) (r : Resolution) :
  In p batch ->
  Js.matchNestedNodeModules p = false ->
  readJson w p = Some pj ->
  In r (fst (matchSpecs w (mergeDependencies pj) p specs [])) ->
  In r (fst (processBatch w specs batch seenDeps)).
Proof.
  intros Hp Hnested Hread Hr. revert seenDeps.
  induction batch as [|q rest IH]; simpl; intros seenDeps.
  - contradiction.
  - destruct Hp as [->|Hp].
    + assert (H1 : In r (fst (processPackageJson w specs p seenDeps))).
      { unfold processPackageJson. rewrite Hnested, Hread.
        now rewrite (matchSpecs_matches_independent w _ p specs seenDeps []). }
      destruct (processPackageJson w specs p seenDeps) as [matches seen1].
      destruct (processBatch w specs rest seen1) as [more seen2].
      simpl in *. apply in_or_app. now left.
    + destruct (processPackageJson w specs q seenDeps) as [matches seen1].
      pose proof (IH Hp seen1) as H2.
      destruct (processBatch w specs rest seen1) as [more seen2].
      simpl in *. apply in_or_app. now right.
Qed.

(** A declared range is not the exact version it starts from. *)
Lemma range_prefixed_version_is_rejected :
  matchSpecs Scenario.twoReacts [("react", "^17.0.2")]
    "/cache/a/package.json" [("react", Some "17.0.2")] []
  = ([], []).
Proof.
  reflexivity.
Qed.

(** ** The copy loop *)

(** A turn of the copy loop whose [fs.copy] throws [EXDEV]. *)
Lemma installOne_cross_device (w : World) (deps : Js.JsObject)
  (dep : Resolution) (err : FsError) (partialTarget : bool) :
  pathExists w (targetPath w dep) = false ->
  sourceOutsideTarget (targetPath w dep) (path dep) = true ->
  fsRemove w (targetPath w dep) = None ->
  fsCopy w (path dep) (targetPath w dep) = CopyThrows err partialTarget ->
  code err = "EXDEV" ->
  installOne w deps dep
  = (if partialTarget then withPath w (targetPath w dep) else w,
     deps,
     [CopyDir (path dep) (targetPath w dep);
      SpinnerAlreadyInstalled (dependency dep)]).
Proof.
  unfold installOne, targetPath. intros Hex Hout Hrm Hcp Hcode.
  rewrite Hex, Hout, Hrm, Hcp. simpl.
  unfold copyCatch. rewrite Hcode. reflexivity.
Qed.

(** A turn that copies successfully records the version (an assignment
    to [__proto__] would be ignored). *)
Lemma installOne_copied_records_version (w : World) (deps : Js.JsObject)
  (dep : Resolution) :
  dependency dep <> "__proto__" ->
  pathExists w (targetPath w dep) = false ->
  sourceOutsideTarget (targetPath w dep) (path dep) = true ->
  fsRemove w (targetPath w dep) = None ->
  fsCopy w (path dep) (targetPath w dep) = CopyOk ->
  Js.objGet (snd (fst (installOne w deps dep))) (dependency dep)
  = Some (version dep).
Proof.
  unfold installOne, targetPath. intros Hname Hex Hout Hrm Hcp.
  rewrite Hex, Hout, Hrm, Hcp. simpl.
  now rewrite objGet_objAssign, String.eqb_refl.
Qed.

(** A turn that finds the directory on disk but no manifest entry
    records the version without copying. *)
Lemma installOne_on_disk_records_version (w : World) (deps : Js.JsObject)
  (dep : Resolution) :
  dependency dep <> "__proto__" ->
  pathExists w (targetPath w dep) = true ->
  Js.getTruthy deps (dependency dep) = false ->
  sourceOutsideTarget (targetPath w dep) (path dep) = true ->
  Js.objGet (snd (fst (installOne w deps dep))) (dependency dep)
  = Some (version dep).
Proof.
  unfold installOne, targetPath. intros Hname Hex Hin Hout.
  rewrite Hex, Hin, Hout. simpl.
  now rewrite objGet_objAssign, String.eqb_refl.
Qed.

(** The copy loop goes on after a turn whose [fs.copy] throws
    [EXDEV]. *)
Lemma installAll_cross_device (w : World)
  (deps : Js.JsObject) (dep : Resolution) (rest : list Resolution)
  (err : FsError) (partialTarget : bool) :
  pathExists w (targetPath w dep) = false ->
  sourceOutsideTarget (targetPath w dep) (path dep) = true ->
  fsRemove w (targetPath w dep) = None ->
  fsCopy w (path dep) (targetPath w dep) = CopyThrows err partialTarget ->
  code err = "EXDEV" ->
  let w1 := if partialTarget then withPath w (targetPath w dep) else w in
  installAll w deps (dep :: rest)
  = (fst (fst (installAll w1 deps rest)),
     snd (fst (installAll w1 deps rest)),
     [CopyDir (path dep) (targetPath w dep);
      SpinnerAlreadyInstalled (dependency dep)]
       ++ snd (installAll w1 deps rest)).
Proof.
  intros Hex Hout Hrm Hcp Hcode w1. simpl.
  rewrite (installOne_cross_device w deps dep err partialTarget Hex Hout Hrm Hcp Hcode).
  fold w1. destruct (installAll w1 deps rest) as [[w2 deps2] ev2].
  reflexivity.
Qed.

(** ** C10: a cross-device soft success records nothing *)

(** C10: when the copy of a resolved dependency fails with [EXDEV], the
    turn leaves the dependencies mapping of the local manifest as it
    was: no entry is added for the dependency, although it is reported
    as installed. *)
Theorem cross_device_leaves_manifest_unchanged (w : World)
  (deps : Js.JsObject) (dep : Resolution) (err : FsError)
  (partialTarget : bool) :
  pathExists w (targetPath w dep) = false ->
  sourceOutsideTarget (targetPath w dep) (path dep) = true ->
  fsRemove w (targetPath w dep) = None ->
  fsCopy w (path dep) (targetPath w dep) = CopyThrows err partialTarget ->
  code err = "EXDEV" ->
  snd (fst (installOne w deps dep)) = deps
  /\ In (SpinnerAlreadyInstalled (dependency dep))
        (snd (installOne w deps dep)).
Proof.
  intros Hex Hout Hrm Hcp Hcode.
  rewrite (installOne_cross_device w deps dep err partialTarget Hex Hout Hrm Hcp Hcode).
  simpl. auto.
Qed.

Lemma cross_device_leaves_manifest_unchanged_witness :
  snd (fst (installOne Scenario.crossDevice [("is-odd", "3.0.1")]
              (mkResolution "left-pad" "/cache/app/node_modules/left-pad"
                 "1.3.0")))
  = [("is-odd", "3.0.1")]
  /\ In (SpinnerAlreadyInstalled "left-pad")
        (snd (installOne Scenario.crossDevice [("is-odd", "3.0.1")]
                (mkResolution "left-pad" "/cache/app/node_modules/left-pad"
                   "1.3.0"))).
Proof.
  apply (@cross_device_leaves_manifest_unchanged Scenario.crossDevice
           [("is-odd", "3.0.1")]
           (mkResolution "left-pad" "/cache/app/node_modules/left-pad"
              "1.3.0")
           (mkFsError "EXDEV" "cross-device link not permitted") false);
    reflexivity.
Defined.

(** ** Satisfied dependencies and the fallback *)

(** A dependency that is satisfied locally is not searched for. *)
Lemma satisfied_not_searched (w : World) (specs : list DependencySpec)
  (spec : DependencySpec) :
  In spec (depsToSearch w specs) ->
  localVersion w (fst spec) && localModuleExists w (fst spec) = false.
Proof.
  unfold depsToSearch. rewrite filter_In. intros [_ H].
  destruct (localVersion w (fst spec)), (localModuleExists w (fst spec));
    simpl in *; congruence.
Qed.

(** When every requested dependency is satisfied locally, nothing is
    searched, and the empty answer sends the whole request to the
    package manager. *)
Lemma satisfied_request_goes_to_fallback (semver : SemverLib) (w : World)
  (dependencyNames : list string) (customRootDir : option string)
  (pm : PackageManager) :
  rootDirs w customRootDir <> None ->
  (forall spec, In spec (dependencySpecs dependencyNames) ->
     localVersion w (fst spec) && localModuleExists w (fst spec) = true) ->
  resolveAndInstall semver w dependencyNames customRootDir pm
  = (w, fst (runPackageManager w pm dependencyNames),
     ExitCode (if snd (runPackageManager w pm dependencyNames)
               then 0 else 1)).
Proof.
  intros Hroots Hsat. unfold resolveAndInstall, getDependencyPaths.
  destruct (rootDirs w customRootDir) as [roots|]; [|congruence].
  assert (E : depsToSearch w (dependencySpecs dependencyNames) = []).
  { unfold depsToSearch.
    induction (dependencySpecs dependencyNames) as [|s l IH]; simpl.
    - reflexivity.
    - destruct (proj1 (andb_true_iff _ _) (Hsat s (or_introl eq_refl)))
        as [H1 H2].
      rewrite H1, H2. simpl. apply IH. intros spec Hin. apply Hsat. now right. }
  rewrite E.
  destruct (runPackageManager w pm dependencyNames) as [ev ok].
  reflexivity.
Qed.

(** Once something was found in the cache and the local
    [node_modules] could be created, the process ends with exit code 0,
    whatever the package manager does. *)
Lemma found_in_cache_exits_zero (semver : SemverLib) (w : World)
  (dependencyNames : list string) (customRootDir : option string)
  (pm : PackageManager) (r : Resolution) (rs : list Resolution) :
  getDependencyPaths semver w dependencyNames customRootDir
    = Some (r :: rs) ->
  ensureDir w (localNodeModules w) = None ->
  snd (resolveAndInstall semver w dependencyNames customRootDir pm)
  = ExitCode 0.
Proof.
  intros H Hdir. unfold resolveAndInstall, awaitCopyDependenciesToLocal.
  rewrite H, Hdir.
  destruct (copyDependenciesToLocal w (r :: rs) dependencyNames pm).
  reflexivity.
Qed.

(** When nothing was found in the cache the exit code follows the
    package manager. *)
Lemma nothing_found_exit_follows_fallback (semver : SemverLib) (w : World)
  (dependencyNames : list string) (customRootDir : option string)
  (pm : PackageManager) :
  getDependencyPaths semver w dependencyNames customRootDir = Some [] ->
  snd (resolveAndInstall semver w dependencyNames customRootDir pm)
  = ExitCode
      (match spawn w (packageManagerName pm)
               (installCommands pm ++ dependencyNames) with
       | Closed 0%Z => 0
       | _ => 1
       end).
Proof.
  intros H. unfold resolveAndInstall, runPackageManager. rewrite H.
  destruct (spawn w (packageManagerName pm)
              (installCommands pm ++ dependencyNames)) as [[|p|p]|];
    reflexivity.
Qed.

(** ** C3: a second run *)

(** C3 on a concrete machine: the first run installs [left-pad] from
    the cache without the package manager.  The second run, on the
    state the first one leaves, copies nothing and writes nothing, yet
    hands [left-pad] to the package manager and ends with its failure. *)
Theorem second_run_falls_back_on_satisfied_dependency :
  let first := main PlainSemver.lib (Scenario.leftPadCached 1)
                 ["left-pad"] (Some "/cache") npm in
  let w1 := fst (fst first) in
  let second := main PlainSemver.lib w1 ["left-pad"] (Some "/cache") npm in
  snd (fst first)
  = [CopyDir "/cache/app/node_modules/left-pad" "/proj/node_modules/left-pad";
     SpinnerInstalled "left-pad" "1.3.0";
     ManifestWritten (Scenario.manifestWith [("left-pad", "1.3.0")])]
  /\ snd first = ExitCode 0
  /\ localVersion w1 "left-pad" = true
  /\ localModuleExists w1 "left-pad" = true
  /\ snd (fst second) = [Spawned "npm" ["install"; "left-pad"]; FallbackFailed]
  /\ snd second = ExitCode 1.
Proof.
  cbv zeta. repeat split; vm_compute; reflexivity.
Qed.

(** ** C4: satisfied dependencies in the remainder *)

(** C4 on a concrete machine: [is-odd] is in the local manifest and in
    the local [node_modules]; it is neither searched nor copied, but it
    is handed to the package manager. *)
Theorem satisfied_dependency_reaches_fallback :
  let w := Scenario.isOddInstalled in
  let run := main PlainSemver.lib w ["left-pad"; "is-odd"] (Some "/cache")
               npm in
  localVersion w "is-odd" = true
  /\ localModuleExists w "is-odd" = true
  /\ depsToSearch w (dependencySpecs ["left-pad"; "is-odd"])
     = [("left-pad", None)]
  /\ snd (fst run)
     = [CopyDir "/cache/app/node_modules/left-pad"
          "/proj/node_modules/left-pad";
        SpinnerInstalled "left-pad" "1.3.0";
        ManifestWritten
          (Scenario.manifestWith [("is-odd", "3.0.1"); ("left-pad", "1.3.0")]);
        Spawned "npm" ["install"; "is-odd"];
        FallbackSucceeded].
Proof.
  cbv zeta. repeat split; vm_compute; reflexivity.
Qed.

(** ** C5: the exit code after a failed fallback *)

(** C5 on a concrete machine: [left-pad] comes from the cache,
    [unknown-pkg] goes to the package manager, which exits with 1; the
    process still ends with exit code 0. *)
Theorem failed_fallback_after_local_install_exits_zero :
  let run := main PlainSemver.lib (Scenario.leftPadCached 1)
               ["left-pad"; "unknown-pkg"] (Some "/cache") npm in
  snd (fst run)
  = [CopyDir "/cache/app/node_modules/left-pad" "/proj/node_modules/left-pad";
     SpinnerInstalled "left-pad" "1.3.0";
     ManifestWritten (Scenario.manifestWith [("left-pad", "1.3.0")]);
     Spawned "npm" ["install"; "unknown-pkg"];
     FallbackFailed]
  /\ snd run = ExitCode 0.
Proof.
  cbv zeta. split; vm_compute; reflexivity.
Qed.

(** ** C7: one result per name *)

(** C7 on a concrete machine: two manifests of the same batch both
    satisfy [react@17.0.2], and both are returned. *)
Theorem constrained_request_resolved_twice :
  getDependencyPaths PlainSemver.lib Scenario.twoReacts ["react@17.0.2"]
    (Some "/cache")
  = Some [mkResolution "react" "/cache/a/node_modules/react" "17.0.2";
          mkResolution "react" "/cache/b/node_modules/react" "17.0.2"]
  /\ ~ NoDup (resolvedNames
                [mkResolution "react" "/cache/a/node_modules/react" "17.0.2";
                 mkResolution "react" "/cache/b/node_modules/react" "17.0.2"]).
Proof.
  split; [vm_compute; reflexivity|].
  intros H. inversion H as [|? ? Hnotin _]; subst.
  apply Hnotin. simpl. auto.
Qed.

(** In [src/index.js] two versions of an unconstrained dependency are
    two results of the same name: their keys differ. *)
Lemma src_index_returns_every_version :
  SrcIndex.getDependencyPaths Scenario.twoBatches (fun _ _ => false)
    ["left-pad"] (Some "/cache")
  = Some
      [mkResolution "left-pad" "/cache/old/node_modules/left-pad" "1.0.0";
       mkResolution "left-pad" "/cache/new/node_modules/left-pad" "2.0.0"].
Proof.
  vm_compute. reflexivity.
Qed.

(** In [src/index.js] two manifests of one batch that hold the same
    version are both returned when both callbacks test the key before
    either has set it, and only the first when the second callback
    tests it late. *)
Lemma src_index_guard_depends_on_interleaving :
  SrcIndex.getDependencyPaths Scenario.twoReacts (fun _ _ => false)
    ["react@17.0.2"] (Some "/cache")
  = Some [mkResolution "react" "/cache/a/node_modules/react" "17.0.2";
          mkResolution "react" "/cache/b/node_modules/react" "17.0.2"]
  /\ SrcIndex.getDependencyPaths Scenario.twoReacts
       (fun p _ => p =? "/cache/b/package.json")
       ["react@17.0.2"] (Some "/cache")
     = Some [mkResolution "react" "/cache/a/node_modules/react" "17.0.2"].
Proof.
  split; vm_compute; reflexivity.
Qed.

(** ** The stable sort *)

Section SortFacts.

Variable A : Type.
Variable cmp : A -> A -> option comparison.

#[local] Abbreviation le := (notGreater cmp).

Hypothesis cmp_gt_le : forall x y, cmp x y = Some Gt -> le y x.
Hypothesis le_trans : forall x y z, le x y -> le y z -> le x z.

Lemma insertBy_perm (x : A) (l l' : list A) :
  Js.insertBy cmp x l = Some l' -> Permutation (x :: l) l'.
Proof.
  revert l'. induction l as [|y l IH]; simpl; intros l' H.
  - injection H as <-. apply Permutation_refl.
  - destruct (cmp x y) as [[| |]|]; try discriminate;
      try (injection H as <-; apply Permutation_refl).
    destruct (Js.insertBy cmp x l) as [s|]; simpl in H; [|discriminate].
    injection H as <-.
    eapply perm_trans; [apply perm_swap|].
    apply perm_skip. now apply IH.
Qed.

Lemma sort_perm (l s : list A) :
  Js.sort cmp l = Some s -> Permutation l s.
Proof.
  revert s. induction l as [|x l IH]; simpl; intros s H.
  - injection H as <-. apply perm_nil.
  - destruct (Js.sort cmp l) as [s0|]; [|discriminate].
    eapply perm_trans; [apply perm_skip, IH; reflexivity|].
    now apply insertBy_perm.
Qed.

Lemma insertBy_sorted (x : A) (l l' : list A) :
  StronglySorted le l ->
  Js.insertBy cmp x l = Some l' ->
  StronglySorted le l'.
Proof.
  revert l'. induction l as [|y l IH]; simpl; intros l' Hs H.
  - injection H as <-. repeat constructor.
  - inversion Hs as [|? ? Hs' Hall]; subst.
    destruct (cmp x y) as [[| |]|] eqn:E; try discriminate.
    + injection H as <-. constructor; [exact Hs|].
      constructor; [now right|].
      eapply Forall_impl; [|exact Hall].
      intros z Hz. eapply le_trans; [right; exact E|exact Hz].
    + injection H as <-. constructor; [exact Hs|].
      constructor; [now left|].
      eapply Forall_impl; [|exact Hall].
      intros z Hz. eapply le_trans; [left; exact E|exact Hz].
    + destruct (Js.insertBy cmp x l) as [s|] eqn:Ei; simpl in H;
        [|discriminate].
      injection H as <-. constructor.
      * now apply IH.
      * eapply Permutation_Forall; [apply insertBy_perm; exact Ei|].
        constructor; [now apply cmp_gt_le|exact Hall].
Qed.

Lemma sort_sorted (l s : list A) :
  Js.sort cmp l = Some s -> StronglySorted le s.
Proof.
  revert s. induction l as [|x l IH]; simpl; intros s H.
  - injection H as <-. constructor.
  - destruct (Js.sort cmp l) as [s0|]; [|discriminate].
    eapply insertBy_sorted; [|exact H]. now apply IH.
Qed.

Lemma insertBy_defined (x : A) (l : list A) :
  (forall y, In y l -> cmp x y <> None) ->
  exists l', Js.insertBy cmp x l = Some l'.
Proof.
  induction l as [|y l IH]; simpl; intros H.
  - eauto.
  - destruct (cmp x y) as [[| |]|] eqn:E; eauto.
    + destruct IH as [s Hs]; [intros; apply H; now right|].
      rewrite Hs. simpl. eauto.
    + exfalso. apply (H y); auto.
Qed.

Lemma sort_defined (l : list A) :
  (forall x y, In x l -> In y l -> cmp x y <> None) ->
  exists s, Js.sort cmp l = Some s.
Proof.
  induction l as [|x l IH]; simpl; intros H.
  - eauto.
  - destruct IH as [s Hs]; [intros; apply H; now right|].
    rewrite Hs. apply insertBy_defined.
    intros y Hy. apply H; [now left|right].
    eapply Permutation_in; [apply Permutation_sym, sort_perm; exact Hs|].
    exact Hy.
Qed.

Lemma lastElement_in (l : list A) (m : A) :
  Js.lastElement l = Some m -> In m l.
Proof.
  induction l as [|x l IH]; simpl; intros H.
  - discriminate.
  - destruct l as [|y l']; [injection H as <-; now left|].
    right. now apply IH.
Qed.

Lemma lastElement_defined (l : list A) :
  l <> [] -> exists m, Js.lastElement l = Some m.
Proof.
  induction l as [|x l IH]; intros H.
  - congruence.
  - destruct l as [|y l']; [simpl; eauto|].
    destruct IH as [m Hm]; [discriminate|].
    exists m. exact Hm.
Qed.

Lemma lastElement_greatest (l : list A) (m : A) :
  StronglySorted le l ->
  Js.lastElement l = Some m ->
  forall x, In x l -> le x m \/ cmp x m = cmp m m.
Proof.
  induction l as [|y l IH]; intros Hs Hlast x Hin.
  - contradiction.
  - inversion Hs as [|? ? Hs' Hall]; subst.
    destruct l as [|z l'].
    + simpl in Hlast. injection Hlast as <-.
      destruct Hin as [<-|[]]. now right.
    + destruct Hin as [<-|Hin].
      * left. rewrite Forall_forall in Hall. apply Hall.
        now apply lastElement_in.
      * now apply IH.
Qed.

(** The element the program picks after sorting: it is one of the
    versions and none of them ranks above it. *)
Lemma sort_last_greatest (l s : list A) (m : A) :
  Js.sort cmp l = Some s ->
  Js.lastElement s = Some m ->
  cmp m m = Some Eq ->
  In m l /\ forall x, In x l -> le x m.
Proof.
  intros Hsort Hlast Hrefl. split.
  - eapply Permutation_in; [apply Permutation_sym, sort_perm; exact Hsort|].
    now apply lastElement_in.
  - intros x Hx.
    destruct (lastElement_greatest s m (sort_sorted l s Hsort) Hlast x) as [H|H].
    + eapply Permutation_in; [apply sort_perm; exact Hsort|exact Hx].
    + exact H.
    + right. now rewrite H.
Qed.

End SortFacts.

(** ** What [seenDeps] holds *)

Lemma mapGet_In {V : Type} (m : list (string * V)) (k : string) (v : V) :
  Js.mapGet m k = Some v -> In (k, v) m.
Proof.
  induction m as [|[k0 v0] m IH]; simpl; intros H.
  - discriminate.
  - destruct (k0 =? k) eqn:E.
    + apply String.eqb_eq in E. injection H as <-. subst. now left.
    + right. now apply IH.
Qed.

Lemma mapSet_Forall {V : Type} (P : string * V -> Prop)
  (m : list (string * V)) (k : string) (v : V) :
  Forall P m -> P (k, v) -> Forall P (Js.mapSet k v m).
Proof.
  induction m as [|[k0 v0] m IH]; simpl; intros Hm Hkv.
  - now constructor.
  - inversion Hm; subst.
    destruct (k0 =? k); constructor; auto.
Qed.

Lemma seenPush_nonEmpty (name : string) (s : Seen) (seenDeps : SeenDeps) :
  seenNonEmpty seenDeps -> seenNonEmpty (seenPush name s seenDeps).
Proof.
  unfold seenNonEmpty, seenPush. intros H.
  destruct (Js.mapGet seenDeps name) as [versions|];
    apply mapSet_Forall; auto; simpl.
  - destruct versions; discriminate.
  - discriminate.
Qed.

Lemma matchSpecs_nonEmpty (w : World) (deps : Js.JsObject)
  (packageJsonPath : string) (specs : list DependencySpec)
  (seenDeps : SeenDeps) :
  seenNonEmpty seenDeps ->
  seenNonEmpty (snd (matchSpecs w deps packageJsonPath specs seenDeps)).
Proof.
  revert seenDeps. induction specs as [|spec rest IH]; simpl; intros s Hs.
  - exact Hs.
  - destruct (accepts deps spec); [|auto].
    destruct (pathExists w _); [|auto].
    destruct (negb (Js.truthyOpt (snd spec))); simpl; [|exact Hs].
    apply IH. now apply seenPush_nonEmpty.
Qed.

Lemma processPackageJson_nonEmpty (w : World) (specs : list DependencySpec)
  (packageJsonPath : string) (seenDeps : SeenDeps) :
  seenNonEmpty seenDeps ->
  seenNonEmpty (snd (processPackageJson w specs packageJsonPath seenDeps)).
Proof.
  unfold processPackageJson. intros Hs.
  destruct (Js.matchNestedNodeModules packageJsonPath); [exact Hs|].
  destruct (readJson w packageJsonPath); [|exact Hs].
  now apply matchSpecs_nonEmpty.
Qed.

Lemma processBatch_nonEmpty (w : World) (specs : list DependencySpec)
  (batch : list string) (seenDeps : SeenDeps) :
  seenNonEmpty seenDeps ->
  seenNonEmpty (snd (processBatch w specs batch seenDeps)).
Proof.
  revert seenDeps. induction batch as [|p rest IH]; simpl; intros s Hs.
  - exact Hs.
  - pose proof (processPackageJson_nonEmpty w specs p s Hs) as H1.
    destruct (processPackageJson w specs p s) as [matches seen1].
    pose proof (IH seen1 H1) as H2.
    destruct (processBatch w specs rest seen1) as [more seen2].
    exact H2.
Qed.

(** With nothing to search for a batch finds nothing. *)
Lemma processBatch_no_specs (w : World) (batch : list string)
  (seenDeps : SeenDeps) :
  processBatch w [] batch seenDeps = ([], seenDeps).
Proof.
  induction batch as [|p rest IH]; simpl.
  - reflexivity.
  - unfold processPackageJson.
    destruct (Js.matchNestedNodeModules p);
      [|destruct (readJson w p)]; simpl; now rewrite IH.
Qed.

Lemma latestSeen_defined (semver : SemverLib) (seenDeps : SeenDeps) :
  comparable semver seenDeps ->
  exists rs, latestSeen semver seenDeps = Some rs.
Proof.
  induction seenDeps as [|[name versions] rest IH]; simpl; intros Hc.
  - eauto.
  - destruct IH as [rs Hrs].
    { intros n vs a b Hin. apply (Hc n vs a b). now right. }
    destruct versions as [|v versions]; [eauto|].
    destruct (sort_defined Seen (compareSeen semver) (v :: versions))
      as [sorted Hsorted].
    { intros a b Ha Hb. apply (Hc name (v :: versions)); auto. now left. }
    rewrite Hsorted.
    destruct (lastElement_defined Seen sorted) as [latest Hlatest].
    { intros ->. apply sort_perm in Hsorted.
      now apply Permutation_sym, Permutation_nil in Hsorted. }
    rewrite Hlatest, Hrs. eauto.
Qed.

Lemma latestSeen_entry (semver : SemverLib) (seenDeps : SeenDeps)
  (rs : list Resolution) (name : string) (versions : list Seen) :
  latestSeen semver seenDeps = Some rs ->
  In (name, versions) seenDeps ->
  versions <> [] ->
  exists sorted latest,
    Js.sort (compareSeen semver) versions = Some sorted
    /\ Js.lastElement sorted = Some latest
    /\ In (mkResolution name (seenPath latest) (seenVersion latest)) rs.
Proof.
  revert rs. induction seenDeps as [|[n vs] rest IH]; simpl;
    intros rs Hl Hin Hne.
  - contradiction.
  - destruct vs as [|v vs].
    + destruct Hin as [Heq|Hin]; [injection Heq as <- <-; congruence|].
      now apply IH.
    + destruct (Js.sort (compareSeen semver) (v :: vs)) as [sorted|] eqn:Es;
        [|discriminate].
      destruct (Js.lastElement sorted) as [latest|] eqn:El; [|discriminate].
      destruct (latestSeen semver rest) as [more|] eqn:Em; [|discriminate].
      injection Hl as <-.
      destruct Hin as [Heq|Hin].
      * injection Heq as <- <-. exists sorted, latest.
        repeat split; auto. now left.
      * destruct (IH more eq_refl Hin Hne) as (s' & l' & H1 & H2 & H3).
        exists s', l'. repeat split; auto. now right.
Qed.

(** Batches that find nothing do not stop the loop. *)
Lemma batchLoop_skips_empty_batches (semver : SemverLib) (w : World)
  (specs : list DependencySpec) (pre rest : list (list string)) :
  (forall b, In b pre -> processBatch w specs b [] = ([], [])) ->
  batchLoop semver w specs (pre ++ rest) []
  = batchLoop semver w specs rest [].
Proof.
  induction pre as [|b pre IH]; simpl; intros H.
  - reflexivity.
  - rewrite (H b (or_introl eq_refl)). simpl.
    apply IH. intros b' Hb'. apply H. now right.
Qed.

(** ** The stand-in for [semver] is a total preorder *)

Lemma compareTriple_le_iff (a b : N * N * N) :
  (PlainSemver.compareTriple a b = Lt \/ PlainSemver.compareTriple a b = Eq)
  <-> (let '(a1, a2, a3) := a in
       let '(b1, b2, b3) := b in
       (a1 < b1 \/ (a1 = b1 /\ (a2 < b2 \/ (a2 = b2 /\ a3 <= b3))))%N).
Proof.
  destruct a as [[a1 a2] a3], b as [[b1 b2] b3]. simpl.
  destruct (N.compare_spec a1 b1) as [E1|E1|E1],
           (N.compare_spec a2 b2) as [E2|E2|E2],
           (N.compare_spec a3 b3) as [E3|E3|E3];
    split; intros H; try lia; auto;
    try (destruct H as [H|H]; discriminate); exfalso; lia.
Qed.

Lemma compareTriple_antisym (a b : N * N * N) :
  PlainSemver.compareTriple b a = CompOpp (PlainSemver.compareTriple a b).
Proof.
  destruct a as [[a1 a2] a3], b as [[b1 b2] b3]. simpl.
  rewrite (N.compare_antisym a1 b1), (N.compare_antisym a2 b2),
          (N.compare_antisym a3 b3).
  destruct (a1 ?= b1)%N, (a2 ?= b2)%N, (a3 ?= b3)%N; reflexivity.
Qed.

Lemma plain_semver_order : SemverOrder PlainSemver.lib.
Proof.
  constructor; simpl; unfold semverLe; simpl; unfold PlainSemver.plainCompare.
  - intros a b H.
    destruct (PlainSemver.parse a) as [x|], (PlainSemver.parse b) as [y|];
      try discriminate.
    injection H as E. now rewrite compareTriple_antisym, E.
  - intros a b H.
    destruct (PlainSemver.parse a) as [x|], (PlainSemver.parse b) as [y|];
      try discriminate.
    injection H as E. now rewrite compareTriple_antisym, E.
  - intros a b c Hab Hbc.
    destruct (PlainSemver.parse a) as [[[a1 a2] a3]|];
      [|destruct Hab; discriminate].
    destruct (PlainSemver.parse b) as [[[b1 b2] b3]|];
      [|destruct Hab; discriminate].
    destruct (PlainSemver.parse c) as [[[c1 c2] c3]|];
      [|destruct Hbc; discriminate].
    assert (Hab' : PlainSemver.compareTriple (a1, a2, a3) (b1, b2, b3) = Lt
                   \/ PlainSemver.compareTriple (a1, a2, a3) (b1, b2, b3) = Eq)
      by (destruct Hab as [H|H]; injection H; auto).
    assert (Hbc' : PlainSemver.compareTriple (b1, b2, b3) (c1, c2, c3) = Lt
                   \/ PlainSemver.compareTriple (b1, b2, b3) (c1, c2, c3) = Eq)
      by (destruct Hbc as [H|H]; injection H; auto).
    apply compareTriple_le_iff in Hab', Hbc'.
    assert (Hac : PlainSemver.compareTriple (a1, a2, a3) (c1, c2, c3) = Lt
                  \/ PlainSemver.compareTriple (a1, a2, a3) (c1, c2, c3) = Eq)
      by (apply compareTriple_le_iff; simpl in *; lia).
    destruct Hac as [H|H]; rewrite H; auto.
Qed.

(** ** Ranking the versions seen *)

Section Ranking.

Variable semver : SemverLib.
Hypothesis order : SemverOrder semver.

Lemma compareSeen_gt_le (x y : Seen) :
  compareSeen semver x y = Some Gt -> seenLe semver y x.
Proof.
  intros H. left. now apply (compare_gt_lt semver order).
Qed.

Lemma seenLe_trans (x y z : Seen) :
  seenLe semver x y -> seenLe semver y z -> seenLe semver x z.
Proof.
  apply (compare_le_trans semver order).
Qed.

Lemma compareSeen_refl (x : Seen) :
  compareSeen semver x x <> None -> compareSeen semver x x = Some Eq.
Proof.
  intros H. destruct (compareSeen semver x x) as [[| |]|] eqn:E.
  - reflexivity.
  - pose proof (compare_lt_gt semver order _ _ E) as H'.
    unfold compareSeen in E. congruence.
  - pose proof (compare_gt_lt semver order _ _ E) as H'.
    unfold compareSeen in E. congruence.
  - congruence.
Qed.

(** The version picked from an array is one of its elements and ranks
    at least as high as every one of them. *)
Lemma latest_is_greatest (versions sorted : list Seen) (latest : Seen) :
  (forall a b, In a versions -> In b versions ->
               compareSeen semver a b <> None) ->
  Js.sort (compareSeen semver) versions = Some sorted ->
  Js.lastElement sorted = Some latest ->
  In latest versions /\ forall c, In c versions -> seenLe semver c latest.
Proof.
  intros Hdef Hsort Hlast.
  assert (Hin : In latest versions).
  { eapply Permutation_in;
      [apply Permutation_sym, (sort_perm Seen _ _ _ Hsort)|].
    now apply lastElement_in. }
  apply (sort_last_greatest Seen (compareSeen semver)
           compareSeen_gt_le seenLe_trans versions sorted latest Hsort Hlast).
  apply compareSeen_refl. now apply Hdef.
Qed.

(** Recording the same candidates in another order picks a version of
    the same rank. *)
Lemma latest_rank_independent_of_order (versions versions' : list Seen)
  (sorted sorted' : list Seen) (latest latest' : Seen) :
  (forall a b, In a versions -> In b versions ->
               compareSeen semver a b <> None) ->
  Permutation versions versions' ->
  Js.sort (compareSeen semver) versions = Some sorted ->
  Js.lastElement sorted = Some latest ->
  Js.sort (compareSeen semver) versions' = Some sorted' ->
  Js.lastElement sorted' = Some latest' ->
  compareSeen semver latest latest' = Some Eq.
Proof.
  intros Hdef Hperm Hs Hl Hs' Hl'.
  assert (Hdef' : forall a b, In a versions' -> In b versions' ->
                              compareSeen semver a b <> None).
  { intros a b Ha Hb.
    apply Hdef; eapply Permutation_in;
      try (apply Permutation_sym; exact Hperm); assumption. }
  destruct (latest_is_greatest versions sorted latest Hdef Hs Hl)
    as [Hin Hmax].
  destruct (latest_is_greatest versions' sorted' latest' Hdef' Hs' Hl')
    as [Hin' Hmax'].
  assert (H1 : seenLe semver latest latest').
  { apply Hmax'. eapply Permutation_in; [exact Hperm|exact Hin]. }
  assert (H2 : seenLe semver latest' latest).
  { apply Hmax. eapply Permutation_in;
      [apply Permutation_sym; exact Hperm|exact Hin']. }
  destruct H1 as [H1|H1]; [|exact H1].
  apply (compare_lt_gt semver order) in H1.
  destruct H2 as [H2|H2]; unfold compareSeen in *; congruence.
Qed.

End Ranking.

(** ** C1: which version an unconstrained request resolves to *)


Lemma swap_ends {A : Type} (a b : A) (l : list A) :
  Permutation (a :: l ++ [b]) (b :: l ++ [a]).
Proof.
  eapply perm_trans;
    [apply perm_skip, Permutation_sym, Permutation_cons_append|].
  eapply perm_trans; [apply perm_swap|].
  apply perm_skip, Permutation_cons_append.
Qed.

(** The same manifests met in the opposite order resolve [left-pad] to
    the other version. *)
Lemma crawl_order_decides :
  getDependencyPaths PlainSemver.lib Scenario.twoBatches
    ["left-pad"] (Some "/cache")
  = Some [mkResolution "left-pad" "/cache/old/node_modules/left-pad" "1.0.0"]
  /\ getDependencyPaths PlainSemver.lib Scenario.twoBatchesReversed
       ["left-pad"] (Some "/cache")
     = Some [mkResolution "left-pad" "/cache/new/node_modules/left-pad"
               "2.0.0"]
  /\ Permutation (glob Scenario.twoBatches "/cache")
                 (glob Scenario.twoBatchesReversed "/cache").
Proof.
  split; [vm_compute; reflexivity|].
  split; [vm_compute; reflexivity|].
  change (glob Scenario.twoBatches "/cache")
    with ("/cache/old/package.json"
            :: Scenario.fillerPaths 49 ++ ["/cache/new/package.json"]).
  change (glob Scenario.twoBatchesReversed "/cache")
    with ("/cache/new/package.json"
            :: Scenario.fillerPaths 49 ++ ["/cache/old/package.json"]).
  apply swap_ends.
Qed.



(** On [Scenario.twoVersions] the greater version wins although it is
    met first. *)
Lemma two_versions_resolve_to_the_greater :
  getDependencyPaths PlainSemver.lib Scenario.twoVersions ["left-pad"]
    (Some "/cache")
  = Some [mkResolution "left-pad" "/cache/a/node_modules/left-pad" "2.1.0"].
Proof.
  vm_compute. reflexivity.
Qed.

(** ** The batches cover the crawl *)

Lemma batchesAux_concat (fuel : nat) (paths : list string) :
  List.length paths <= fuel -> List.concat (batchesAux fuel paths) = paths.
Proof.
  revert paths. induction fuel as [|fuel IH]; intros paths Hlen.
  - destruct paths; [reflexivity|simpl in Hlen; lia].
  - destruct paths as [|p paths]; [reflexivity|].
    change (batchesAux (S fuel) (p :: paths))
      with (firstn batchSize (p :: paths)
              :: batchesAux fuel (skipn batchSize (p :: paths))).
    cbn [List.concat]. rewrite IH.
    + apply firstn_skipn.
    + rewrite length_skipn. unfold batchSize. simpl in *. lia.
Qed.

(** Every manifest of the crawl is in exactly one batch, in order. *)
Lemma batches_concat (paths : list string) :
  List.concat (batches paths) = paths.
Proof.
  apply batchesAux_concat. lia.
Qed.

Lemma batches_size (paths batch : list string) :
  In batch (batches paths) -> List.length batch <= batchSize.
Proof.
  unfold batches. generalize (List.length paths) as fuel.
  intros fuel. revert paths.
  induction fuel as [|fuel IH]; intros paths Hin.
  - destruct paths; contradiction.
  - destruct paths as [|p paths]; [contradiction|].
    change (batchesAux (S fuel) (p :: paths))
      with (firstn batchSize (p :: paths)
              :: batchesAux fuel (skipn batchSize (p :: paths))) in Hin.
    destruct Hin as [<-|Hin].
    + apply firstn_le_length.
    + now apply IH in Hin.
Qed.

(** ** Only searched names are resolved *)

Section ResolvedNames.

Variable w : World.
Variable P : string -> Prop.

#[local] Abbreviation keysIn := (keysSatisfy P).

Lemma matchSpecs_names (deps : Js.JsObject) (packageJsonPath : string)
  (specs : list DependencySpec) (seenDeps : SeenDeps) :
  (forall spec, In spec specs -> P (fst spec)) ->
  keysIn seenDeps ->
  keysIn (snd (matchSpecs w deps packageJsonPath specs seenDeps))
  /\ forall r,
       In r (fst (matchSpecs w deps packageJsonPath specs seenDeps)) ->
       P (dependency r).
Proof.
  revert seenDeps. induction specs as [|spec rest IH]; simpl;
    intros seenDeps Hspecs Hseen.
  - split; [exact Hseen|contradiction].
  - assert (Hrest : forall s, In s rest -> P (fst s)) by auto.
    destruct (accepts deps spec); [|auto].
    destruct (pathExists w _); [|auto].
    destruct (negb (Js.truthyOpt (snd spec))); simpl.
    + apply IH; [exact Hrest|].
      unfold seenPush.
      destruct (Js.mapGet seenDeps (fst spec));
        apply mapSet_Forall; auto; simpl; auto.
    + split; [exact Hseen|].
      intros r [<-|[]]. simpl. auto.
Qed.

Lemma processBatch_names (specs : list DependencySpec)
  (batch : list string) (seenDeps : SeenDeps) :
  (forall spec, In spec specs -> P (fst spec)) ->
  keysIn seenDeps ->
  keysIn (snd (processBatch w specs batch seenDeps))
  /\ forall r,
       In r (fst (processBatch w specs batch seenDeps)) -> P (dependency r).
Proof.
  intros Hspecs. revert seenDeps.
  induction batch as [|p rest IH]; simpl; intros seenDeps Hseen.
  - split; [exact Hseen|contradiction].
  - assert (H1 : keysIn (snd (processPackageJson w specs p seenDeps))
                 /\ forall r,
                      In r (fst (processPackageJson w specs p seenDeps)) ->
                      P (dependency r)).
    { unfold processPackageJson.
      destruct (Js.matchNestedNodeModules p);
        [split; [exact Hseen|contradiction]|].
      destruct (readJson w p); [|split; [exact Hseen|contradiction]].
      now apply matchSpecs_names. }
    destruct (processPackageJson w specs p seenDeps) as [matches seen1].
    destruct H1 as [Hk1 Hm1].
    destruct (IH seen1 Hk1) as [Hk2 Hm2].
    destruct (processBatch w specs rest seen1) as [more seen2].
    split; [exact Hk2|].
    intros r Hin. apply in_app_or in Hin. destruct Hin; auto.
Qed.

Lemma latestSeen_names (semver : SemverLib) (seenDeps : SeenDeps)
  (rs : list Resolution) :
  keysIn seenDeps ->
  latestSeen semver seenDeps = Some rs ->
  forall r, In r rs -> P (dependency r).
Proof.
  revert rs. induction seenDeps as [|[n vs] rest IH]; simpl;
    intros rs Hk Hl r Hin.
  - injection Hl as <-. contradiction.
  - inversion Hk as [|? ? Hn Hk']; subst.
    destruct vs as [|v vs]; [now apply (IH rs)|].
    destruct (Js.sort (compareSeen semver) (v :: vs)); [|discriminate].
    destruct (Js.lastElement l); [|discriminate].
    destruct (latestSeen semver rest) as [more|]; [|discriminate].
    injection Hl as <-.
    destruct Hin as [<-|Hin]; [exact Hn|].
    now apply (IH more).
Qed.

Lemma batchLoop_names (semver : SemverLib) (specs : list DependencySpec)
  (bs : list (list string)) (seenDeps : SeenDeps)
  (rs : list Resolution) :
  (forall spec, In spec specs -> P (fst spec)) ->
  keysIn seenDeps ->
  batchLoop semver w specs bs seenDeps = Some rs ->
  forall r, In r rs -> P (dependency r).
Proof.
  intros Hspecs. revert seenDeps.
  induction bs as [|batch rest IH]; simpl; intros seenDeps Hk Hl r Hin.
  - injection Hl as <-. contradiction.
  - destruct (processBatch_names specs batch seenDeps Hspecs Hk)
      as [Hk' Hm].
    destruct (processBatch w specs batch seenDeps) as [matches seen'].
    simpl in Hk', Hm.
    destruct (latestSeen semver seen') as [latest|] eqn:El; [|discriminate].
    destruct (matches ++ latest) as [|x flat] eqn:Eflat.
    + now apply (IH seen' Hk' Hl).
    + injection Hl as <-. rewrite <- Eflat in Hin.
      apply in_app_or in Hin. destruct Hin as [Hin|Hin]; [auto|].
      now apply (latestSeen_names semver seen' latest Hk' El).
Qed.

End ResolvedNames.

(** A search that returns has determined its root directories. *)
Lemma getDependencyPaths_returns (semver : SemverLib) (w : World)
  (dependencyNames : list string) (customRootDir : option string)
  (rs : list Resolution) :
  getDependencyPaths semver w dependencyNames customRootDir = Some rs ->
  rootDirs w customRootDir <> None
  /\ match depsToSearch w (dependencySpecs dependencyNames) with
     | [] => Some []
     | toSearch =>
         batchLoop semver w toSearch
           (batches (packageJsonPaths w customRootDir)) []
     end = Some rs.
Proof.
  unfold getDependencyPaths.
  destruct (rootDirs w customRootDir); [|discriminate].
  intros H. split; [discriminate|exact H].
Qed.

(** What the search returns was searched for, so a dependency that is
    satisfied locally is never among the resolutions handed to the
    installer. *)
Lemma satisfied_not_resolved (semver : SemverLib) (w : World)
  (dependencyNames : list string) (customRootDir : option string)
  (rs : list Resolution) (r : Resolution) :
  getDependencyPaths semver w dependencyNames customRootDir = Some rs ->
  In r rs ->
  localVersion w (dependency r) && localModuleExists w (dependency r)
  = false.
Proof.
  intros Hg Hin. apply getDependencyPaths_returns in Hg as [_ Hg].
  destruct (depsToSearch w (dependencySpecs dependencyNames))
    as [|spec specs] eqn:E.
  - injection Hg as <-. contradiction.
  - apply (batchLoop_names w
             (fun n => localVersion w n && localModuleExists w n = false)
             semver (spec :: specs)
             (batches (packageJsonPaths w customRootDir)) [] rs); auto.
    + intros s Hs. rewrite <- E in Hs.
      now apply satisfied_not_searched in Hs.
    + constructor.
Qed.

(** * Further properties of the program *)

(** ** The map of requested specs *)

Lemma mapGet_mapSet {V : Type} (m : list (string * V)) (k k' : string)
  (v : V) :
  Js.mapGet (Js.mapSet k v m) k'
  = if k =? k' then Some v else Js.mapGet m k'.
Proof.
  induction m as [|[k0 v0] m IH]; simpl.
  - reflexivity.
  - destruct (k0 =? k) eqn:E0; simpl.
    + apply String.eqb_eq in E0; subst k0.
      destruct (k =? k'); reflexivity.
    + rewrite IH. destruct (k0 =? k') eqn:E1; [|reflexivity].
      apply String.eqb_eq in E1; subst k0.
      now rewrite String.eqb_sym, E0.
Qed.

Lemma mapSet_key_in {V : Type} (m : list (string * V)) (k k' : string)
  (v : V) :
  In k' (map fst (Js.mapSet k v m)) <-> k' = k \/ In k' (map fst m).
Proof.
  induction m as [|[k0 v0] m IH]; simpl.
  - intuition.
  - destruct (k0 =? k) eqn:E0; simpl.
    + apply String.eqb_eq in E0; subst k0. intuition.
    + rewrite IH. intuition.
Qed.

Lemma mapSet_entry_in {V : Type} (m : list (string * V)) (k : string)
  (v : V) (entry : string * V) :
  In entry (Js.mapSet k v m) -> entry = (k, v) \/ In entry m.
Proof.
  induction m as [|[k0 v0] m IH]; simpl.
  - intuition.
  - destruct (k0 =? k); simpl; intuition.
Qed.

Lemma mapSet_NoDup {V : Type} (m : list (string * V)) (k : string) (v : V) :
  NoDup (map fst m) -> NoDup (map fst (Js.mapSet k v m)).
Proof.
  induction m as [|[k0 v0] m IH]; simpl; intros H.
  - repeat constructor. intros [].
  - inversion H as [|? ? Hnotin Hnd]; subst.
    destruct (k0 =? k) eqn:E0; simpl.
    + apply String.eqb_eq in E0; subst k0. now constructor.
    + constructor; [|now apply IH].
      rewrite mapSet_key_in. intros [->|Hin]; [|contradiction].
      now rewrite String.eqb_refl in E0.
Qed.

Lemma newMap_from_NoDup {V : Type} (entries acc : list (string * V)) :
  NoDup (map fst acc) ->
  NoDup (map fst (fold_left (fun a kv => Js.mapSet (fst kv) (snd kv) a)
                    entries acc)).
Proof.
  revert acc. induction entries as [|[k v] entries IH]; simpl; intros acc H.
  - exact H.
  - apply IH. now apply mapSet_NoDup.
Qed.

Lemma newMap_from_get {V : Type} (entries acc : list (string * V))
  (k : string) :
  Js.mapGet (fold_left (fun a kv => Js.mapSet (fst kv) (snd kv) a)
               entries acc) k
  = match Js.mapGet (rev entries) k with
    | Some v => Some v
    | None => Js.mapGet acc k
    end.
Proof.
  revert acc. induction entries as [|[k0 v0] entries IH]; simpl; intros acc.
  - reflexivity.
  - rewrite IH, mapGet_mapSet.
    assert (Happ : forall l,
               Js.mapGet (l ++ [(k0, v0)]) k
               = match Js.mapGet l k with
                 | Some v => Some v
                 | None => if k0 =? k then Some v0 else None
                 end).
    { induction l as [|[k1 v1] l IHl]; simpl.
      - reflexivity.
      - destruct (k1 =? k); [reflexivity|exact IHl]. }
    rewrite Happ.
    destruct (Js.mapGet (rev entries) k); [reflexivity|].
    destruct (k0 =? k) eqn:E; [reflexivity|].
    destruct (Js.mapGet acc k); reflexivity.
Qed.

Lemma dependencySpecs_NoDup (dependencyNames : list string) :
  NoDup (map fst (dependencySpecs dependencyNames)).
Proof.
  unfold dependencySpecs, Js.newMap. apply newMap_from_NoDup. constructor.
Qed.

(** The map built from the requested identifiers holds every name
    once, and for a name requested several times the version of the
    last request. *)
Theorem dependencySpecs_last_request_wins (dependencyNames : list string)
  (name : string) :
  NoDup (map fst (dependencySpecs dependencyNames))
  /\ Js.mapGet (dependencySpecs dependencyNames) name
     = Js.mapGet (rev (map parseDependency dependencyNames)) name.
Proof.
  split; [apply dependencySpecs_NoDup|].
  unfold dependencySpecs, Js.newMap. rewrite newMap_from_get.
  match goal with
  | |- match ?a with _ => _ end = _ => destruct a eqn:E
  end; symmetry; exact E.
Qed.

Lemma NoDup_keys_functional {V : Type} (m : list (string * V)) (k : string)
  (a b : V) :
  NoDup (map fst m) -> In (k, a) m -> In (k, b) m -> a = b.
Proof.
  induction m as [|[k0 v0] m IH]; simpl; intros Hnd Ha Hb.
  - contradiction.
  - inversion Hnd as [|? ? Hnotin Hnd']; subst.
    destruct Ha as [Ha|Ha], Hb as [Hb|Hb].
    + congruence.
    + injection Ha as -> ->. exfalso. apply Hnotin.
      change k with (fst (k, b)). now apply in_map.
    + injection Hb as -> ->. exfalso. apply Hnotin.
      change k with (fst (k, a)). now apply in_map.
    + now apply IH.
Qed.

Lemma depsToSearch_NoDup (w : World) (dependencyNames : list string) :
  NoDup (map fst (depsToSearch w (dependencySpecs dependencyNames))).
Proof.
  unfold depsToSearch.
  pose proof (dependencySpecs_NoDup dependencyNames) as H.
  induction (dependencySpecs dependencyNames) as [|s l IH]; simpl.
  - constructor.
  - inversion H as [|? ? Hnotin Hnd]; subst.
    destruct (negb (localVersion w (fst s))
              || negb (localModuleExists w (fst s))); simpl; [|auto].
    constructor; [|auto].
    intros Hin. apply Hnotin.
    apply in_map_iff in Hin. destruct Hin as (x & Hx & Hin).
    apply filter_In in Hin. apply in_map_iff. exists x. tauto.
Qed.

(** ** Requests read from the local manifest *)

Lemma split_app_separator (sep : ascii) (name rest : string) :
  ~ In sep (list_ascii_of_string name) ->
  Js.split sep (name ++ String sep rest)%string
  = name :: Js.split sep rest.
Proof.
  induction name as [|c name IH]; simpl; intros H.
  - now rewrite Ascii.eqb_refl.
  - destruct (Ascii.eqb c sep) eqn:E.
    + apply Ascii.eqb_eq in E. tauto.
    + rewrite IH by tauto. reflexivity.
Qed.

Lemma In_mapGet_NoDup {V : Type} (m : list (string * V)) (k : string)
  (v : V) :
  NoDup (map fst m) -> In (k, v) m -> Js.mapGet m k = Some v.
Proof.
  induction m as [|[k0 v0] m IH]; simpl; intros Hnd Hin.
  - contradiction.
  - inversion Hnd as [|? ? Hnotin Hnd']; subst.
    destruct Hin as [E|Hin].
    + injection E as -> ->. now rewrite String.eqb_refl.
    + destruct (k0 =? k) eqn:E; [|now apply IH].
      apply String.eqb_eq in E. subst k0. exfalso. apply Hnotin.
      change k with (fst (k, v)). now apply in_map.
Qed.

Lemma In_objGet_NoDup (o : Js.JsObject) (k v : string) :
  NoDup (map fst o) -> In (k, v) o -> Js.objGet o k = Some v.
Proof.
  induction o as [|[k0 v0] o IH]; simpl; intros Hnd Hin.
  - contradiction.
  - inversion Hnd as [|? ? Hnotin Hnd']; subst.
    destruct Hin as [E|Hin].
    + injection E as -> ->. now rewrite String.eqb_refl.
    + destruct (k0 =? k) eqn:E; [|now apply IH].
      apply String.eqb_eq in E. subst k0. exfalso. apply Hnotin.
      change k with (fst (k, v)). now apply in_map.
Qed.

(** With every name requested once, the specs are the parsed
    requests. *)
Lemma dependencySpecs_In_NoDup (dependencyNames : list string)
  (spec : DependencySpec) :
  NoDup (map fst (map parseDependency dependencyNames)) ->
  In spec (dependencySpecs dependencyNames)
  <-> In spec (map parseDependency dependencyNames).
Proof.
  intros Hnd. destruct spec as [k v].
  assert (Hrev : NoDup (map fst (rev (map parseDependency dependencyNames)))).
  { rewrite map_rev. now apply NoDup_rev. }
  assert (Hget : Js.mapGet (dependencySpecs dependencyNames) k
                 = Js.mapGet (rev (map parseDependency dependencyNames)) k).
  { unfold dependencySpecs, Js.newMap. rewrite newMap_from_get.
    match goal with
    | |- match ?a with _ => _ end = _ => destruct a eqn:E
    end; symmetry; exact E. }
  split; intros Hin.
  - apply in_rev. apply mapGet_In. rewrite <- Hget.
    apply In_mapGet_NoDup; [apply dependencySpecs_NoDup|exact Hin].
  - apply mapGet_In. rewrite Hget.
    apply In_mapGet_NoDup; [exact Hrev|]. now apply in_rev in Hin.
Qed.

Lemma insertIndexed_perm (n : N) (kv : string * string)
  (l : list (N * (string * string))) :
  Permutation (Js.insertIndexed n kv l) ((n, kv) :: l).
Proof.
  induction l as [|[m kv'] l IH]; simpl.
  - apply Permutation_refl.
  - destruct (n <? m)%N; [apply Permutation_refl|].
    apply Permutation_trans with ((m, kv') :: (n, kv) :: l);
      [now constructor|constructor].
Qed.

(** [Object.entries] reorders the own properties and loses none. *)
Lemma objectEntries_perm (o : Js.JsObject) :
  Permutation (Js.objectEntries o) o.
Proof.
  unfold Js.objectEntries. induction o as [|kv o IH]; simpl.
  - constructor.
  - destruct (Js.arrayIndex (fst kv)) as [n|].
    + apply Permutation_trans
        with (map snd ((n, kv) :: Js.indexedEntries o)
                ++ filter (fun kv0 =>
                             match Js.arrayIndex (fst kv0) with
                             | Some _ => false
                             | None => true
                             end) o).
      * apply Permutation_app_tail. apply Permutation_map.
        apply insertIndexed_perm.
      * simpl. now constructor.
    + apply Permutation_sym. apply Permutation_cons_app.
      now apply Permutation_sym.
Qed.

(** The spec an entry of the local manifest is searched under. *)
Lemma parse_requested_entry (name ver : string) :
  ~ In "@"%char (list_ascii_of_string name) ->
  ~ In "@"%char (list_ascii_of_string ver) ->
  parseDependency
    (if Js.startsWith "^" ver || Js.startsWith "~" ver
     then name else (name ++ "@" ++ ver)%string)
  = (name,
     if Js.startsWith "^" ver || Js.startsWith "~" ver
     then None else Some ver).
Proof.
  intros Hn Hv. unfold parseDependency.
  destruct (Js.startsWith "^" ver || Js.startsWith "~" ver).
  - now rewrite split_without_separator.
  - change (name ++ "@" ++ ver)%string
      with (name ++ String "@" ver)%string.
    rewrite split_app_separator by exact Hn.
    now rewrite split_without_separator.
Qed.

Lemma parse_requested_entries (deps : Js.JsObject) :
  Forall (fun nv => ~ In "@"%char (list_ascii_of_string (fst nv))
                    /\ ~ In "@"%char (list_ascii_of_string (snd nv))) deps ->
  map parseDependency (requestFromManifest deps)
  = map (fun nv =>
           (fst nv,
            if Js.startsWith "^" (snd nv) || Js.startsWith "~" (snd nv)
            then None else Some (snd nv)))
        (Js.objectEntries deps).
Proof.
  intros H. unfold requestFromManifest. rewrite map_map.
  apply map_ext_in. intros [name ver] Hin. simpl.
  apply (Permutation_in _ (objectEntries_perm deps)) in Hin.
  rewrite Forall_forall in H. destruct (H _ Hin) as [Hn Hv].
  now apply parse_requested_entry.
Qed.

(** When [lpm] is run without arguments it asks for the dependencies
    of the local manifest (every name once, names and versions without
    [@]).  Of these, the search covers exactly the entries whose
    version is empty or whose directory in the local [node_modules] is
    missing, each under its own name: without constraint when its
    version starts with a caret or a tilde, with the version itself as
    constraint otherwise.  An entry whose directory exists is not
    searched for. *)
Theorem manifest_request_searched (w : World) (pj : PackageJson)
  (name : string) (constraint : option string) :
  readJson w (localPackageJsonPath w) = Some pj ->
  NoDup (map fst (manifestDependencies pj)) ->
  Forall (fun nv => ~ In "@"%char (list_ascii_of_string (fst nv))
                    /\ ~ In "@"%char (list_ascii_of_string (snd nv)))
         (manifestDependencies pj) ->
  In (name, constraint)
     (depsToSearch w
        (dependencySpecs (requestFromManifest (manifestDependencies pj))))
  <-> exists ver,
        In (name, ver) (manifestDependencies pj)
        /\ constraint
           = (if Js.startsWith "^" ver || Js.startsWith "~" ver
              then None else Some ver)
        /\ Js.truthy ver && localModuleExists w name = false.
Proof.
  intros Hread Hnd Hat.
  pose proof (objectEntries_perm (manifestDependencies pj)) as Hperm.
  pose proof (parse_requested_entries _ Hat) as Hparse.
  assert (Hkeys : NoDup (map fst (map parseDependency
                    (requestFromManifest (manifestDependencies pj))))).
  { rewrite Hparse, map_map. simpl.
    apply (Permutation_NoDup
             (Permutation_map fst (Permutation_sym Hperm)) Hnd). }
  assert (Hlocal : forall ver,
             In (name, ver) (manifestDependencies pj) ->
             localVersion w name = Js.truthy ver).
  { intros ver Hin. unfold localVersion, localPackageJson.
    rewrite Hread. unfold manifestDependencies in Hin, Hnd.
    destruct (dependencies pj) as [o|]; [|contradiction].
    unfold Js.getTruthy. now rewrite (In_objGet_NoDup o name ver Hnd Hin). }
  unfold depsToSearch. rewrite filter_In, dependencySpecs_In_NoDup by exact Hkeys.
  rewrite Hparse, in_map_iff. simpl. split.
  - intros [([n ver] & E & Hin) Hf]. simpl in E. injection E as -> <-.
    apply (Permutation_in _ Hperm) in Hin.
    exists ver. split; [exact Hin|split; [reflexivity|]].
    rewrite <- (Hlocal ver Hin).
    destruct (localVersion w name), (localModuleExists w name);
      simpl in *; congruence.
  - intros (ver & Hin & -> & Hf). split.
    + exists (name, ver). split; [reflexivity|].
      exact (Permutation_in _ (Permutation_sym Hperm) Hin).
    + rewrite (Hlocal ver Hin).
      destruct (Js.truthy ver), (localModuleExists w name);
        simpl in *; congruence.
Qed.

Lemma manifest_request_searched_witness :
  In ("is-odd", Some "3.0.1")
     (depsToSearch Scenario.isOddInstalled
        (dependencySpecs
           (requestFromManifest
              (manifestDependencies
                 (Scenario.manifestWith [("is-odd", "3.0.1")])))))
  <-> exists ver,
        In ("is-odd", ver)
           (manifestDependencies
              (Scenario.manifestWith [("is-odd", "3.0.1")]))
        /\ Some "3.0.1"
           = (if Js.startsWith "^" ver || Js.startsWith "~" ver
              then None else Some ver)
        /\ Js.truthy ver
           && localModuleExists Scenario.isOddInstalled "is-odd" = false.
Proof.
  apply (manifest_request_searched Scenario.isOddInstalled
           (Scenario.manifestWith [("is-odd", "3.0.1")])
           "is-odd" (Some "3.0.1")).
  - reflexivity.
  - repeat constructor. simpl. tauto.
  - repeat constructor; simpl; intuition discriminate.
Defined.

(** ** Batches *)

(** The batches cut the crawl into consecutive slices: together they
    are the crawl, in order, and each holds between one and fifty
    manifests. *)
Theorem batches_partition (paths : list string) :
  List.concat (batches paths) = paths
  /\ forall batch, In batch (batches paths) ->
       1 <= List.length batch <= batchSize.
Proof.
  split; [apply batches_concat|].
  intros batch Hin. split; [|now apply (batches_size paths)].
  unfold batches in Hin. revert Hin.
  generalize (List.length paths) as fuel. intros fuel. revert paths.
  induction fuel as [|fuel IH]; intros paths Hin.
  - destruct paths; contradiction.
  - destruct paths as [|p paths]; [contradiction|].
    change (batchesAux (S fuel) (p :: paths))
      with (firstn batchSize (p :: paths)
              :: batchesAux fuel (skipn batchSize (p :: paths))) in Hin.
    destruct Hin as [<-|Hin].
    + simpl. lia.
    + now apply IH in Hin.
Qed.

Lemma in_batch_in_crawl (paths batch : list string) (p : string) :
  In batch (batches paths) -> In p batch -> In p paths.
Proof.
  intros Hb Hp. rewrite <- (batches_concat paths).
  apply in_concat. eauto.
Qed.

(** ** An induction principle for the results of the search *)

Lemma accepts_declared (deps : Js.JsObject) (spec : DependencySpec)
  (found : string) :
  accepts deps spec = Some found ->
  Js.objGet deps (fst spec) = Some found /\ Js.truthy found = true.
Proof.
  unfold accepts. destruct (Js.objGet deps (fst spec)) as [v|]; [|discriminate].
  destruct (Js.truthy v) eqn:Et; simpl; [|discriminate].
  destruct (negb (Js.truthyOpt (snd spec)) || _); [|discriminate].
  intros H. injection H as <-. auto.
Qed.

Section ResultInduction.

Variable semver : SemverLib.
Variable w : World.
Variable crawl : list string.
Variable specs : list DependencySpec.

(** [S name s]: what is known of a version recorded for [name];
    [M r]: what is known of a constrained match. *)
Variable S : string -> Seen -> Prop.
Variable M : Resolution -> Prop.

Hypothesis S_intro : forall p pj spec found,
  In p crawl -> In spec specs ->
  Js.matchNestedNodeModules p = false ->
  readJson w p = Some pj ->
  accepts (mergeDependencies pj) spec = Some found ->
  pathExists w (nodeModulesPath p (fst spec)) = true ->
  Js.truthyOpt (snd spec) = false ->
  S (fst spec)
    (mkSeen (Js.replaceFirstRangeMarker found)
       (nodeModulesPath p (fst spec))).

Hypothesis M_intro : forall p pj spec found,
  In p crawl -> In spec specs ->
  Js.matchNestedNodeModules p = false ->
  readJson w p = Some pj ->
  accepts (mergeDependencies pj) spec = Some found ->
  pathExists w (nodeModulesPath p (fst spec)) = true ->
  Js.truthyOpt (snd spec) = true ->
  M (mkResolution (fst spec) (nodeModulesPath p (fst spec)) found).

Lemma seenPush_satisfies (name : string) (s : Seen) (seenDeps : SeenDeps) :
  seenEntriesSatisfy S seenDeps -> S name s ->
  seenEntriesSatisfy S (seenPush name s seenDeps).
Proof.
  unfold seenEntriesSatisfy, seenPush. intros Hinv Hs n vs s' Hin Hs'.
  destruct (Js.mapGet seenDeps name) as [old|] eqn:Eget;
    apply mapSet_entry_in in Hin; destruct Hin as [Heq|Hin];
    try (now apply (Hinv n vs s')).
  - injection Heq as -> ->. apply in_app_or in Hs'.
    destruct Hs' as [Hs'|[<-|[]]]; [|exact Hs].
    apply (Hinv name old s'); [|exact Hs']. now apply mapGet_In.
  - injection Heq as -> ->. destruct Hs' as [<-|[]]. exact Hs.
Qed.

Lemma matchSpecs_satisfies (p : string) (pj : PackageJson)
  (todo : list DependencySpec) (seenDeps : SeenDeps) :
  In p crawl ->
  Js.matchNestedNodeModules p = false ->
  readJson w p = Some pj ->
  (forall spec, In spec todo -> In spec specs) ->
  seenEntriesSatisfy S seenDeps ->
  seenEntriesSatisfy S
    (snd (matchSpecs w (mergeDependencies pj) p todo seenDeps))
  /\ forall r,
       In r (fst (matchSpecs w (mergeDependencies pj) p todo seenDeps)) ->
       M r.
Proof.
  intros Hp Hnested Hread. revert seenDeps.
  induction todo as [|spec rest IH]; simpl; intros seenDeps Htodo Hinv.
  - split; [exact Hinv|contradiction].
  - assert (Hrest : forall s, In s rest -> In s specs) by auto.
    destruct (accepts (mergeDependencies pj) spec) as [found|] eqn:Eacc;
      [|auto].
    destruct (pathExists w (nodeModulesPath p (fst spec))) eqn:Eex; [|auto].
    destruct (Js.truthyOpt (snd spec)) eqn:Et; simpl.
    + split; [exact Hinv|].
      intros r [<-|[]]. eapply M_intro; eauto.
    + apply IH; [exact Hrest|].
      apply seenPush_satisfies; [exact Hinv|].
      eapply S_intro; eauto.
Qed.

Lemma processBatch_satisfies (batch : list string) (seenDeps : SeenDeps) :
  (forall p, In p batch -> In p crawl) ->
  seenEntriesSatisfy S seenDeps ->
  seenEntriesSatisfy S (snd (processBatch w specs batch seenDeps))
  /\ forall r, In r (fst (processBatch w specs batch seenDeps)) -> M r.
Proof.
  revert seenDeps. induction batch as [|p rest IH]; simpl;
    intros seenDeps Hbatch Hinv.
  - split; [exact Hinv|contradiction].
  - assert (H1 : seenEntriesSatisfy S
                   (snd (processPackageJson w specs p seenDeps))
                 /\ forall r,
                      In r (fst (processPackageJson w specs p seenDeps)) ->
                      M r).
    { unfold processPackageJson.
      destruct (Js.matchNestedNodeModules p) eqn:En;
        [split; [exact Hinv|contradiction]|].
      destruct (readJson w p) as [pj|] eqn:Er;
        [|split; [exact Hinv|contradiction]].
      apply matchSpecs_satisfies; auto. }
    destruct (processPackageJson w specs p seenDeps) as [matches seen1].
    destruct H1 as [Hk1 Hm1].
    destruct (IH seen1 (fun q Hq => Hbatch q (or_intror Hq)) Hk1)
      as [Hk2 Hm2].
    destruct (processBatch w specs rest seen1) as [more seen2].
    split; [exact Hk2|].
    intros r Hin. apply in_app_or in Hin. destruct Hin; auto.
Qed.

Lemma latestSeen_satisfies (seenDeps : SeenDeps) (rs : list Resolution) :
  seenEntriesSatisfy S seenDeps ->
  latestSeen semver seenDeps = Some rs ->
  forall r, In r rs ->
    exists s, S (dependency r) s
              /\ path r = seenPath s /\ version r = seenVersion s.
Proof.
  revert rs. induction seenDeps as [|[n vs] rest IH]; simpl;
    intros rs Hinv Hl r Hin.
  - injection Hl as <-. contradiction.
  - assert (Hrest : seenEntriesSatisfy S rest).
    { intros n' vs' s' H1 H2. apply (Hinv n' vs' s'); [now right|exact H2]. }
    destruct vs as [|v vs]; [now apply (IH rs)|].
    destruct (Js.sort (compareSeen semver) (v :: vs)) as [sorted|] eqn:Es;
      [|discriminate].
    destruct (Js.lastElement sorted) as [latest|] eqn:El; [|discriminate].
    destruct (latestSeen semver rest) as [more|]; [|discriminate].
    injection Hl as <-.
    destruct Hin as [<-|Hin]; [|now apply (IH more)].
    exists latest. simpl. split; [|split; reflexivity].
    apply (Hinv n (v :: vs) latest); [now left|].
    eapply Permutation_in;
      [apply Permutation_sym, (sort_perm Seen _ _ _ Es)|].
    now apply lastElement_in.
Qed.

Lemma batchLoop_satisfies (bs : list (list string)) (seenDeps : SeenDeps)
  (rs : list Resolution) :
  (forall batch p, In batch bs -> In p batch -> In p crawl) ->
  seenEntriesSatisfy S seenDeps ->
  batchLoop semver w specs bs seenDeps = Some rs ->
  forall r, In r rs ->
    M r \/ exists s, S (dependency r) s
                     /\ path r = seenPath s /\ version r = seenVersion s.
Proof.
  revert seenDeps. induction bs as [|batch rest IH]; simpl;
    intros seenDeps Hbs Hinv Hl r Hin.
  - injection Hl as <-. contradiction.
  - destruct (processBatch_satisfies batch seenDeps
                (fun p Hp => Hbs batch p (or_introl eq_refl) Hp) Hinv)
      as [Hk Hm].
    destruct (processBatch w specs batch seenDeps) as [matches seen'].
    simpl in Hk, Hm.
    destruct (latestSeen semver seen') as [latest|] eqn:El; [|discriminate].
    destruct (matches ++ latest) as [|x flat] eqn:Eflat.
    + apply (IH seen'); auto.
      intros b p Hb. apply Hbs. now right.
    + injection Hl as <-. rewrite <- Eflat in Hin.
      apply in_app_or in Hin. destruct Hin as [Hin|Hin]; [left; auto|].
      right. now apply (latestSeen_satisfies seen' latest Hk El).
Qed.

End ResultInduction.

(** Whatever holds of every constrained match ([M]) and of every
    version recorded for an unconstrained request ([S]) describes every
    result of the search: a result is a constrained match or carries a
    recorded version of its name. *)
Theorem getDependencyPaths_results (semver : SemverLib) (w : World)
  (dependencyNames : list string) (customRootDir : option string)
  (S : string -> Seen -> Prop) (M : Resolution -> Prop)
  (rs : list Resolution) (r : Resolution) :
  (forall p pj spec found,
     In p (packageJsonPaths w customRootDir) ->
     In spec (depsToSearch w (dependencySpecs dependencyNames)) ->
     Js.matchNestedNodeModules p = false ->
     readJson w p = Some pj ->
     accepts (mergeDependencies pj) spec = Some found ->
     pathExists w (nodeModulesPath p (fst spec)) = true ->
     Js.truthyOpt (snd spec) = false ->
     S (fst spec)
       (mkSeen (Js.replaceFirstRangeMarker found)
          (nodeModulesPath p (fst spec)))) ->
  (forall p pj spec found,
     In p (packageJsonPaths w customRootDir) ->
     In spec (depsToSearch w (dependencySpecs dependencyNames)) ->
     Js.matchNestedNodeModules p = false ->
     readJson w p = Some pj ->
     accepts (mergeDependencies pj) spec = Some found ->
     pathExists w (nodeModulesPath p (fst spec)) = true ->
     Js.truthyOpt (snd spec) = true ->
     M (mkResolution (fst spec) (nodeModulesPath p (fst spec)) found)) ->
  getDependencyPaths semver w dependencyNames customRootDir = Some rs ->
  In r rs ->
  M r \/ exists s, S (dependency r) s
                   /\ path r = seenPath s /\ version r = seenVersion s.
Proof.
  intros HS HM Hg Hin. apply getDependencyPaths_returns in Hg as [_ Hg].
  destruct (depsToSearch w (dependencySpecs dependencyNames))
    as [|spec specs] eqn:E.
  - injection Hg as <-. contradiction.
  - apply (batchLoop_satisfies semver w (packageJsonPaths w customRootDir)
             (spec :: specs) S M HS HM
             (batches (packageJsonPaths w customRootDir)) [] rs); auto.
    + intros batch p. apply in_batch_in_crawl.
    + intros n vs s [].
Qed.

(** ** Where a result comes from *)

(** Every result of the search comes from a manifest of the crawl that
    was analysed and declares the dependency; its path is the
    directory of the dependency next to that manifest, which exists on
    disk; its version is the declared string, or that string without
    its first caret or tilde. *)
Theorem resolved_from_crawled_manifest (semver : SemverLib) (w : World)
  (dependencyNames : list string) (customRootDir : option string)
  (rs : list Resolution) (r : Resolution) :
  getDependencyPaths semver w dependencyNames customRootDir = Some rs ->
  In r rs ->
  exists p declared,
    In p (packageJsonPaths w customRootDir)
    /\ declaredAt w p (dependency r) declared
    /\ path r = nodeModulesPath p (dependency r)
    /\ pathExists w (path r) = true
    /\ (version r = declared
        \/ version r = Js.replaceFirstRangeMarker declared).
Proof.
  intros Hg Hin.
  destruct (getDependencyPaths_results semver w dependencyNames customRootDir
              (fun name s =>
                 exists p declared,
                   In p (packageJsonPaths w customRootDir)
                   /\ declaredAt w p name declared
                   /\ seenPath s = nodeModulesPath p name
                   /\ seenVersion s = Js.replaceFirstRangeMarker declared)
              (fun r =>
                 exists p declared,
                   In p (packageJsonPaths w customRootDir)
                   /\ declaredAt w p (dependency r) declared
                   /\ path r = nodeModulesPath p (dependency r)
                   /\ version r = declared)
              rs r) as [H|H]; auto.
  - intros p pj spec found Hp _ Hn Hr Hacc Hex _.
    apply accepts_declared in Hacc. destruct Hacc as [Hd Ht].
    exists p, found. simpl. unfold declaredAt. eauto 10.
  - intros p pj spec found Hp _ Hn Hr Hacc Hex _.
    apply accepts_declared in Hacc. destruct Hacc as [Hd Ht].
    exists p, found. simpl. unfold declaredAt. eauto 10.
  - destruct H as (p & declared & Hp & Hd & Hpath & Hver).
    exists p, declared.
    split; [exact Hp|]. split; [exact Hd|]. split; [exact Hpath|].
    split; [rewrite Hpath; apply Hd|left; exact Hver].
  - destruct H as (s & (p & declared & Hp & Hd & Hpath & Hver) & H1 & H2).
    exists p, declared.
    split; [exact Hp|]. split; [exact Hd|]. split; [congruence|].
    split; [rewrite H1, Hpath; apply Hd|right; congruence].
Qed.

Lemma resolved_from_crawled_manifest_witness :
  exists p declared,
    In p (packageJsonPaths Scenario.twoVersions (Some "/cache"))
    /\ declaredAt Scenario.twoVersions p "left-pad" declared
    /\ "/cache/a/node_modules/left-pad" = nodeModulesPath p "left-pad"
    /\ pathExists Scenario.twoVersions "/cache/a/node_modules/left-pad"
       = true
    /\ ("2.1.0" = declared
        \/ "2.1.0" = Js.replaceFirstRangeMarker declared).
Proof.
  apply (resolved_from_crawled_manifest PlainSemver.lib Scenario.twoVersions
           ["left-pad"] (Some "/cache")
           [mkResolution "left-pad" "/cache/a/node_modules/left-pad" "2.1.0"]
           (mkResolution "left-pad" "/cache/a/node_modules/left-pad"
              "2.1.0")).
  - vm_compute. reflexivity.
  - now left.
Defined.

(** A result for a name requested with a version constraint carries
    exactly that constraint as its version. *)
Theorem constrained_result_has_requested_version (semver : SemverLib)
  (w : World) (dependencyNames : list string)
  (customRootDir : option string) (rs : list Resolution) (r : Resolution)
  (constraint : string) :
  getDependencyPaths semver w dependencyNames customRootDir = Some rs ->
  In r rs ->
  In (dependency r, Some constraint) (dependencySpecs dependencyNames) ->
  Js.truthy constraint = true ->
  version r = constraint.
Proof.
  intros Hg Hin Hspec Ht.
  pose proof (dependencySpecs_NoDup dependencyNames) as Hnd.
  assert (Hsub : forall spec,
             In spec (depsToSearch w (dependencySpecs dependencyNames)) ->
             In spec (dependencySpecs dependencyNames))
    by (intros spec Hs; unfold depsToSearch in Hs;
        now apply filter_In in Hs).
  destruct (getDependencyPaths_results semver w dependencyNames customRootDir
              (fun name _ =>
                 exists v, In (name, v) (dependencySpecs dependencyNames)
                           /\ Js.truthyOpt v = false)
              (fun r => In (dependency r, Some (version r))
                           (dependencySpecs dependencyNames))
              rs r) as [H|H]; auto.
  - intros p pj [name v] found _ Hs _ _ _ _ Hv. exists v. auto.
  - intros p pj [name v] found _ Hs _ _ Hacc _ Hv. simpl in *.
    destruct v as [c|]; [|discriminate].
    apply accepts_constrained in Hacc; [|exact Hv].
    destruct Hacc as [_ ->]. auto.
  - pose proof (NoDup_keys_functional _ _ _ _ Hnd Hspec H). congruence.
  - destruct H as (_ & (v & Hv & Hvt) & _).
    pose proof (NoDup_keys_functional _ _ _ _ Hnd Hspec Hv) as <-.
    simpl in Hvt. congruence.
Qed.

Lemma constrained_result_has_requested_version_witness :
  version (mkResolution "react" "/cache/b/node_modules/react" "17.0.2")
  = "17.0.2".
Proof.
  apply (constrained_result_has_requested_version PlainSemver.lib
           Scenario.twoReacts ["react@17.0.2"] (Some "/cache")
           [mkResolution "react" "/cache/a/node_modules/react" "17.0.2";
            mkResolution "react" "/cache/b/node_modules/react" "17.0.2"]
           (mkResolution "react" "/cache/b/node_modules/react" "17.0.2")
           "17.0.2").
  - vm_compute. reflexivity.
  - right. now left.
  - vm_compute. now left.
  - reflexivity.
Defined.

(** ** C2: which candidates a constrained request accepts *)

(** What is known of a result from the way its name was requested: with
    a constraint, it carries the constraint, which is the very string a
    manifest of the crawl declares; without one, it carries the string
    a manifest declares with its first caret or tilde removed. *)
Lemma result_by_request (semver : SemverLib) (w : World)
  (dependencyNames : list string) (customRootDir : option string)
  (rs : list Resolution) (r : Resolution) (ver : option string) :
  getDependencyPaths semver w dependencyNames customRootDir = Some rs ->
  In r rs ->
  In (dependency r, ver) (dependencySpecs dependencyNames) ->
  (Js.truthyOpt ver = true ->
   ver = Some (version r)
   /\ exists p,
        In p (packageJsonPaths w customRootDir)
        /\ declaredAt w p (dependency r) (version r)
        /\ path r = nodeModulesPath p (dependency r))
  /\ (Js.truthyOpt ver = false ->
      exists p declared,
        In p (packageJsonPaths w customRootDir)
        /\ declaredAt w p (dependency r) declared
        /\ path r = nodeModulesPath p (dependency r)
        /\ version r = Js.replaceFirstRangeMarker declared).
Proof.
  intros Hg Hin Hspec.
  pose proof (dependencySpecs_NoDup dependencyNames) as Hnd.
  assert (Hsub : forall spec,
             In spec (depsToSearch w (dependencySpecs dependencyNames)) ->
             In spec (dependencySpecs dependencyNames))
    by (intros spec Hs; unfold depsToSearch in Hs;
        now apply filter_In in Hs).
  destruct (getDependencyPaths_results semver w dependencyNames customRootDir
              (fun name s =>
                 (exists v, In (name, v) (dependencySpecs dependencyNames)
                            /\ Js.truthyOpt v = false)
                 /\ exists p declared,
                      In p (packageJsonPaths w customRootDir)
                      /\ declaredAt w p name declared
                      /\ seenPath s = nodeModulesPath p name
                      /\ seenVersion s = Js.replaceFirstRangeMarker declared)
              (fun r =>
                 In (dependency r, Some (version r))
                    (dependencySpecs dependencyNames)
                 /\ exists p,
                      In p (packageJsonPaths w customRootDir)
                      /\ declaredAt w p (dependency r) (version r)
                      /\ path r = nodeModulesPath p (dependency r))
              rs r) as [H|H]; auto.
  - intros p pj [name v] found Hp Hs Hn Hr Hacc Hex Hv. simpl in *.
    split; [exists v; auto|].
    apply accepts_declared in Hacc. destruct Hacc as [Hd Ht].
    exists p, found. unfold declaredAt. simpl. eauto 10.
  - intros p pj [name v] found Hp Hs Hn Hr Hacc Hex Hv. simpl in *.
    pose proof (accepts_declared _ _ _ Hacc) as [Hd Ht].
    destruct v as [c|]; [|discriminate].
    apply accepts_constrained in Hacc; [|exact Hv].
    destruct Hacc as [_ ->]. split; [auto|].
    exists p. unfold declaredAt. simpl. eauto 10.
  - destruct H as (Hreq & p & Hp & Hd & Hpath).
    pose proof (NoDup_keys_functional _ _ _ _ Hnd Hspec Hreq) as ->.
    split; [intros _; split; [reflexivity|eauto]|].
    intros Hv. simpl in Hv. destruct Hd as (_ & _ & Ht & _). congruence.
  - destruct H as (s0 & ((v & Hv & Hvt) & p & declared & Hp & Hd & Hpath
                         & Hver) & H1 & H2).
    pose proof (NoDup_keys_functional _ _ _ _ Hnd Hspec Hv) as ->.
    split; [intros Ht; congruence|].
    intros _. exists p, declared.
    split; [exact Hp|]. split; [exact Hd|]. split; congruence.
Qed.




(** ** One result per unconstrained name *)

Lemma seenPush_NoDup (name : string) (s : Seen) (seenDeps : SeenDeps) :
  NoDup (map fst seenDeps) -> NoDup (map fst (seenPush name s seenDeps)).
Proof.
  unfold seenPush. intros H.
  destruct (Js.mapGet seenDeps name); now apply mapSet_NoDup.
Qed.

Lemma matchSpecs_NoDup (w : World) (deps : Js.JsObject)
  (packageJsonPath : string) (specs : list DependencySpec)
  (seenDeps : SeenDeps) :
  NoDup (map fst seenDeps) ->
  NoDup (map fst (snd (matchSpecs w deps packageJsonPath specs seenDeps))).
Proof.
  revert seenDeps. induction specs as [|spec rest IH]; simpl; intros s Hs.
  - exact Hs.
  - destruct (accepts deps spec); [|auto].
    destruct (pathExists w _); [|auto].
    destruct (negb (Js.truthyOpt (snd spec))); simpl; [|exact Hs].
    apply IH. now apply seenPush_NoDup.
Qed.

Lemma processBatch_NoDup (w : World) (specs : list DependencySpec)
  (batch : list string) (seenDeps : SeenDeps) :
  NoDup (map fst seenDeps) ->
  NoDup (map fst (snd (processBatch w specs batch seenDeps))).
Proof.
  revert seenDeps. induction batch as [|p rest IH]; simpl; intros s Hs.
  - exact Hs.
  - assert (H1 : NoDup (map fst (snd (processPackageJson w specs p s)))).
    { unfold processPackageJson.
      destruct (Js.matchNestedNodeModules p); [exact Hs|].
      destruct (readJson w p); [|exact Hs].
      now apply matchSpecs_NoDup. }
    destruct (processPackageJson w specs p s) as [matches seen1].
    pose proof (IH seen1 H1) as H2.
    destruct (processBatch w specs rest seen1) as [more seen2].
    exact H2.
Qed.

Lemma latestSeen_NoDup (semver : SemverLib) (seenDeps : SeenDeps)
  (rs : list Resolution) :
  NoDup (map fst seenDeps) ->
  latestSeen semver seenDeps = Some rs ->
  NoDup (map dependency rs)
  /\ forall r, In r rs -> In (dependency r) (map fst seenDeps).
Proof.
  revert rs. induction seenDeps as [|[n vs] rest IH]; simpl; intros rs Hnd Hl.
  - injection Hl as <-. split; [constructor|contradiction].
  - inversion Hnd as [|? ? Hnotin Hnd']; subst.
    destruct vs as [|v vs].
    + destruct (IH rs Hnd' Hl) as [H1 H2]. split; auto.
    + destruct (Js.sort (compareSeen semver) (v :: vs)); [|discriminate].
      destruct (Js.lastElement l); [|discriminate].
      destruct (latestSeen semver rest) as [more|]; [|discriminate].
      injection Hl as <-.
      destruct (IH more Hnd' eq_refl) as [H1 H2].
      split.
      * simpl. constructor; [|exact H1].
        intros Hin. apply in_map_iff in Hin.
        destruct Hin as (r & Hr & Hin). apply Hnotin.
        rewrite <- Hr. now apply H2.
      * intros r [<-|Hin]; simpl; auto.
Qed.

Lemma NoDup_named_once (name : string) (rs : list Resolution) :
  NoDup (map dependency rs) -> resolutionsNamed name rs <= 1.
Proof.
  unfold resolutionsNamed.
  induction rs as [|r rs IH]; simpl; intros Hnd.
  - lia.
  - inversion Hnd as [|? ? Hnotin Hnd']; subst.
    destruct (dependency r =? name) eqn:E; [|auto].
    apply String.eqb_eq in E. simpl.
    assert (H0 : filter (fun r0 => dependency r0 =? name) rs = []).
    { destruct (filter (fun r0 => dependency r0 =? name) rs) as [|x l] eqn:Ef;
        [reflexivity|].
      exfalso. apply Hnotin.
      assert (Hx : In x (filter (fun r0 => dependency r0 =? name) rs))
        by (rewrite Ef; now left).
      apply filter_In in Hx. destruct Hx as [Hx Hxn].
      apply String.eqb_eq in Hxn. rewrite E, <- Hxn. now apply in_map. }
    rewrite H0. simpl. lia.
Qed.

Lemma none_named (name : string) (rs : list Resolution) :
  (forall r, In r rs -> dependency r <> name) ->
  resolutionsNamed name rs = 0.
Proof.
  unfold resolutionsNamed. induction rs as [|r rs IH]; simpl; intros H.
  - reflexivity.
  - destruct (dependency r =? name) eqn:E.
    + apply String.eqb_eq in E. exfalso. apply (H r); auto.
    + apply IH. intros r' Hr'. apply H. now right.
Qed.

Lemma batchLoop_named_once (semver : SemverLib) (w : World)
  (specs : list DependencySpec) (bs : list (list string))
  (seenDeps : SeenDeps) (rs : list Resolution) (name : string) :
  NoDup (map fst seenDeps) ->
  (forall r p pj todo s,
     In r (fst (matchSpecs w (mergeDependencies pj) p todo s)) ->
     (forall spec, In spec todo -> In spec specs) ->
     dependency r <> name) ->
  batchLoop semver w specs bs seenDeps = Some rs ->
  resolutionsNamed name rs <= 1.
Proof.
  intros Hnd Hmatch. revert seenDeps Hnd.
  induction bs as [|batch rest IH]; simpl; intros seenDeps Hnd Hl.
  - injection Hl as <-. unfold resolutionsNamed. simpl. lia.
  - pose proof (processBatch_NoDup w specs batch seenDeps Hnd) as Hnd'.
    assert (Hm : forall r,
               In r (fst (processBatch w specs batch seenDeps)) ->
               dependency r <> name).
    { clear Hl Hnd' Hnd IH. revert seenDeps.
      induction batch as [|p ps IHb]; simpl; intros seenDeps r Hin.
      - contradiction.
      - assert (H1 : forall r0,
                   In r0 (fst (processPackageJson w specs p seenDeps)) ->
                   dependency r0 <> name).
        { unfold processPackageJson.
          destruct (Js.matchNestedNodeModules p); [contradiction|].
          destruct (readJson w p) as [pj|]; [|contradiction].
          intros r0 Hr0. eapply Hmatch; eauto. }
        destruct (processPackageJson w specs p seenDeps) as [m s1].
        pose proof (IHb s1) as H2.
        destruct (processBatch w specs ps s1) as [more s2].
        simpl in *. apply in_app_or in Hin. destruct Hin; eauto. }
    destruct (processBatch w specs batch seenDeps) as [matches seen'].
    simpl in Hnd', Hm.
    destruct (latestSeen semver seen') as [latest|] eqn:El; [|discriminate].
    destruct (matches ++ latest) as [|x flat] eqn:Eflat.
    + now apply (IH seen').
    + injection Hl as <-. rewrite <- Eflat.
      unfold resolutionsNamed. rewrite filter_app, length_app.
      fold (resolutionsNamed name matches) (resolutionsNamed name latest).
      rewrite (none_named name matches Hm).
      apply NoDup_named_once.
      now apply (latestSeen_NoDup semver seen' latest Hnd').
Qed.

(** A name requested without a version constraint has at most one
    result. *)
Theorem unconstrained_name_resolved_once (semver : SemverLib) (w : World)
  (dependencyNames : list string) (customRootDir : option string)
  (rs : list Resolution) (name : string) (ver : option string) :
  getDependencyPaths semver w dependencyNames customRootDir = Some rs ->
  In (name, ver) (dependencySpecs dependencyNames) ->
  Js.truthyOpt ver = false ->
  resolutionsNamed name rs <= 1.
Proof.
  intros Hg Hspec Hv. apply getDependencyPaths_returns in Hg as [_ Hg].
  pose proof (dependencySpecs_NoDup dependencyNames) as Hnd.
  destruct (depsToSearch w (dependencySpecs dependencyNames))
    as [|spec specs] eqn:E.
  - injection Hg as <-. unfold resolutionsNamed. simpl. lia.
  - apply (batchLoop_named_once semver w (spec :: specs)
             (batches (packageJsonPaths w customRootDir)) [] rs name);
      [constructor| |exact Hg].
    intros r p pj todo s Hin Htodo Hname.
    apply matchSpecs_sound in Hin.
    destruct Hin as (Hin & Ht & _).
    apply Htodo in Hin. rewrite <- E in Hin.
    unfold depsToSearch in Hin. apply filter_In in Hin.
    destruct Hin as [Hin _]. rewrite Hname in Hin.
    pose proof (NoDup_keys_functional _ _ _ _ Hnd Hspec Hin) as ->.
    simpl in Hv. congruence.
Qed.

Lemma unconstrained_name_resolved_once_witness :
  resolutionsNamed "left-pad"
    [mkResolution "left-pad" "/cache/a/node_modules/left-pad" "2.1.0"] <= 1.
Proof.
  apply (unconstrained_name_resolved_once PlainSemver.lib
           Scenario.twoVersions ["left-pad"] (Some "/cache")
           [mkResolution "left-pad" "/cache/a/node_modules/left-pad" "2.1.0"]
           "left-pad" None).
  - vm_compute. reflexivity.
  - vm_compute. now left.
  - reflexivity.
Defined.

(** ** Pinned requests never reach [semver] *)

Lemma matchSpecs_pinned (w : World) (deps : Js.JsObject)
  (packageJsonPath : string) (specs : list DependencySpec)
  (seenDeps : SeenDeps) :
  (forall spec, In spec specs -> Js.truthyOpt (snd spec) = true) ->
  snd (matchSpecs w deps packageJsonPath specs seenDeps) = seenDeps.
Proof.
  induction specs as [|spec rest IH]; simpl; intros H.
  - reflexivity.
  - assert (Hrest : forall s, In s rest -> Js.truthyOpt (snd s) = true)
      by auto.
    destruct (accepts deps spec); [|auto].
    destruct (pathExists w _); [|auto].
    rewrite (H spec (or_introl eq_refl)). reflexivity.
Qed.

Lemma processBatch_pinned (w : World) (specs : list DependencySpec)
  (batch : list string) (seenDeps : SeenDeps) :
  (forall spec, In spec specs -> Js.truthyOpt (snd spec) = true) ->
  snd (processBatch w specs batch seenDeps) = seenDeps.
Proof.
  intros H. revert seenDeps.
  induction batch as [|p rest IH]; simpl; intros seenDeps.
  - reflexivity.
  - assert (H1 : snd (processPackageJson w specs p seenDeps) = seenDeps).
    { unfold processPackageJson.
      destruct (Js.matchNestedNodeModules p); [reflexivity|].
      destruct (readJson w p); [|reflexivity].
      now apply matchSpecs_pinned. }
    destruct (processPackageJson w specs p seenDeps) as [matches seen1].
    simpl in H1. subst seen1.
    pose proof (IH seenDeps) as H2.
    destruct (processBatch w specs rest seenDeps) as [more seen2].
    exact H2.
Qed.

Lemma batchLoop_pinned (semver semver' : SemverLib) (w : World)
  (specs : list DependencySpec) (bs : list (list string)) :
  (forall spec, In spec specs -> Js.truthyOpt (snd spec) = true) ->
  batchLoop semver w specs bs [] <> None
  /\ batchLoop semver w specs bs [] = batchLoop semver' w specs bs [].
Proof.
  intros H. induction bs as [|batch rest IH]; simpl.
  - split; [discriminate|reflexivity].
  - pose proof (processBatch_pinned w specs batch [] H) as Hs.
    destruct (processBatch w specs batch []) as [matches seen'].
    simpl in Hs. subst seen'. simpl.
    destruct (matches ++ []) as [|x flat]; [exact IH|].
    split; [discriminate|reflexivity].
Qed.

(** When every requested identifier pins a version, the search never
    consults [semver]: whatever [semver] does, the search gives the same
    answer. *)
Theorem pinned_request_ignores_semver (semver semver' : SemverLib)
  (w : World) (dependencyNames : list string)
  (customRootDir : option string) :
  (forall spec, In spec (dependencySpecs dependencyNames) ->
                Js.truthyOpt (snd spec) = true) ->
  getDependencyPaths semver w dependencyNames customRootDir
  = getDependencyPaths semver' w dependencyNames customRootDir.
Proof.
  intros H. unfold getDependencyPaths.
  destruct (rootDirs w customRootDir); [|reflexivity].
  destruct (depsToSearch w (dependencySpecs dependencyNames))
    as [|spec specs] eqn:E.
  - reflexivity.
  - apply batchLoop_pinned. intros s Hs. apply H.
    rewrite <- E in Hs. unfold depsToSearch in Hs.
    now apply filter_In in Hs.
Qed.

Lemma pinned_request_ignores_semver_witness :
  getDependencyPaths PlainSemver.lib Scenario.twoReacts ["react@17.0.2"]
    (Some "/cache")
  = getDependencyPaths
      (mkSemverLib (fun _ => None) (fun _ _ => None))
      Scenario.twoReacts ["react@17.0.2"] (Some "/cache").
Proof.
  apply (pinned_request_ignores_semver PlainSemver.lib
           (mkSemverLib (fun _ => None) (fun _ _ => None))
           Scenario.twoReacts ["react@17.0.2"] (Some "/cache")).
  intros spec [<-|[]]. reflexivity.
Defined.

(** ** Manifests below nested [node_modules] *)

Lemma prefix_app (p s : string) : String.prefix p (p ++ s)%string = true.
Proof.
  induction p as [|c p IH]; simpl.
  - now destruct s.
  - destruct (ascii_dec c c) as [_|Hne]; [exact IH|congruence].
Qed.

Lemma prefix_elim (p s : string) :
  String.prefix p s = true -> exists r, s = (p ++ r)%string.
Proof.
  revert s. induction p as [|c p IH]; intros s H.
  - exists s. reflexivity.
  - destruct s as [|d s]; simpl in H; [discriminate|].
    destruct (ascii_dec c d) as [->|_]; [|discriminate].
    destruct (IH s H) as [r ->]. exists r. reflexivity.
Qed.

Lemma dotStarThen_prefix (sub s : string) :
  String.prefix sub s = true -> Js.dotStarThen sub s = true.
Proof.
  intros H.
  destruct s; cbn [Js.dotStarThen]; unfold Js.hasPrefix; rewrite H;
    reflexivity.
Qed.

Lemma dotStarThen_intro (sub b c : string) :
  (forall ch, In ch (list_ascii_of_string b) ->
              Js.isLineTerminator ch = false) ->
  Js.dotStarThen sub (b ++ sub ++ c)%string = true.
Proof.
  induction b as [|ch b IH]; intros H.
  - cbn [append]. apply dotStarThen_prefix. apply prefix_app.
  - cbn [append Js.dotStarThen]. rewrite (H ch) by (simpl; auto).
    cbn [negb andb].
    rewrite IH by (intros x Hx; apply H; simpl; auto).
    apply orb_true_r.
Qed.

Lemma dotStarThen_elim (sub s : string) :
  Js.dotStarThen sub s = true ->
  exists b c, s = (b ++ sub ++ c)%string.
Proof.
  induction s as [|ch s IH]; cbn [Js.dotStarThen]; unfold Js.hasPrefix;
    intros H.
  - rewrite orb_false_r in H. apply prefix_elim in H.
    destruct H as [r Hr]. exists EmptyString, r. exact Hr.
  - apply orb_true_iff in H. destruct H as [H|H].
    + apply prefix_elim in H. destruct H as [r Hr].
      exists EmptyString, r. exact Hr.
    + apply andb_true_iff in H. destruct H as [_ H].
      destruct (IH H) as (b & c & ->).
      exists (String ch b), c. reflexivity.
Qed.

Lemma matchNested_here (s : string) :
  String.prefix "node_modules" s = true ->
  Js.dotStarThen "node_modules" (Js.drop 12 s) = true ->
  Js.matchNestedNodeModules s = true.
Proof.
  intros Hp Hd.
  destruct s; cbn [Js.matchNestedNodeModules]; unfold Js.hasPrefix;
    rewrite Hp, Hd; reflexivity.
Qed.

Lemma matchNested_later (ch : ascii) (s : string) :
  Js.matchNestedNodeModules s = true ->
  Js.matchNestedNodeModules (String ch s) = true.
Proof.
  intros H. cbn [Js.matchNestedNodeModules]. rewrite H. apply orb_true_r.
Qed.

Lemma matchNested_intro (a b c : string) :
  (forall ch, In ch (list_ascii_of_string b) ->
              Js.isLineTerminator ch = false) ->
  Js.matchNestedNodeModules
    (a ++ "node_modules" ++ b ++ "node_modules" ++ c)%string = true.
Proof.
  intros H. induction a as [|ch a IH].
  - cbn [append]. apply matchNested_here.
    + apply (prefix_app "node_modules").
    + change (Js.dotStarThen "node_modules"
                (b ++ "node_modules" ++ c)%string = true).
      now apply dotStarThen_intro.
  - apply (matchNested_later ch). exact IH.
Qed.

(** A manifest whose path holds [node_modules] twice, with no line
    break between the two, contributes nothing to the search. *)
Theorem nested_manifest_contributes_nothing (w : World)
  (specs : list DependencySpec) (a b c : string) (seenDeps : SeenDeps) :
  (forall ch, In ch (list_ascii_of_string b) ->
              (N_of_ascii ch < 128)%N /\ Js.isLineTerminator ch = false) ->
  processPackageJson w specs
    (a ++ "node_modules" ++ b ++ "node_modules" ++ c)%string seenDeps
  = ([], seenDeps).
Proof.
  intros H. unfold processPackageJson.
  rewrite matchNested_intro; [reflexivity|].
  intros ch Hch. now apply H.
Qed.

Lemma nested_manifest_contributes_nothing_witness :
  processPackageJson Scenario.twoReacts [("react", Some "17.0.2")]
    ("/cache/a/" ++ "node_modules" ++ "/x/" ++ "node_modules"
       ++ "/react/package.json")%string []
  = ([], []).
Proof.
  apply (nested_manifest_contributes_nothing Scenario.twoReacts
           [("react", Some "17.0.2")] "/cache/a/" "/x/"
           "/react/package.json" []).
  intros ch Hch. simpl in Hch.
  destruct Hch as [<-|[<-|[<-|[]]]]; split; vm_compute; reflexivity.
Defined.

(** The nesting rule skips only paths that hold [node_modules] twice. *)
Theorem nesting_rule_needs_two_node_modules (p : string) :
  Js.matchNestedNodeModules p = true ->
  exists a b c,
    p = (a ++ "node_modules" ++ b ++ "node_modules" ++ c)%string.
Proof.
  induction p as [|ch p IH]; intros H.
  - simpl in H. discriminate.
  - cbn [Js.matchNestedNodeModules] in H.
    apply orb_true_iff in H. destruct H as [H|H].
    + apply andb_true_iff in H. destruct H as [Hp Hd].
      apply prefix_elim in Hp. destruct Hp as [r Hr].
      rewrite Hr in Hd.
      change (Js.drop 12 ("node_modules" ++ r)%string) with r in Hd.
      apply dotStarThen_elim in Hd. destruct Hd as (b & c & ->).
      exists EmptyString, b, c. exact Hr.
    + destruct (IH H) as (a & b & c & ->).
      exists (String ch a), b, c. reflexivity.
Qed.

Lemma nesting_rule_needs_two_node_modules_witness :
  exists a b c,
    "/a/node_modules/b/node_modules/c/package.json"
    = (a ++ "node_modules" ++ b ++ "node_modules" ++ c)%string.
Proof.
  apply (nesting_rule_needs_two_node_modules
           "/a/node_modules/b/node_modules/c/package.json").
  reflexivity.
Defined.

(** ** What the copy loop keeps *)

Lemma onlyAdds_refl (w : World) : onlyAdds w w.
Proof.
  unfold onlyAdds. repeat split; auto.
Qed.

Lemma onlyAdds_withPath (w : World) (p : string) :
  onlyAdds w (withPath w p).
Proof.
  unfold onlyAdds, withPath. simpl. repeat split; auto.
  intros q Hq. rewrite Hq. apply orb_true_r.
Qed.

Lemma onlyAdds_withCopy (w : World) (src target : string) :
  onlyAdds w (withCopy w src target).
Proof.
  unfold onlyAdds, withCopy. simpl. repeat split; auto.
  intros q Hq. rewrite Hq. rewrite orb_true_r. reflexivity.
Qed.

Lemma onlyAdds_trans (w w1 w2 : World) :
  onlyAdds w w1 -> onlyAdds w1 w2 -> onlyAdds w w2.
Proof.
  unfold onlyAdds.
  intros (A1 & A2 & A3 & A4 & A5 & A6) (B1 & B2 & B3 & B4 & B5 & B6).
  repeat split; try congruence; auto.
Qed.

Lemma onlyAdds_cwd (w w' : World) : onlyAdds w w' -> cwd w' = cwd w.
Proof.
  now intros (H & _).
Qed.

Lemma onlyAdds_writeJsonOk (w w' : World) :
  onlyAdds w w' -> writeJsonOk w' = writeJsonOk w.
Proof.
  now intros (_ & _ & _ & H & _).
Qed.

Lemma onlyAdds_exists (w w' : World) (p : string) :
  onlyAdds w w' -> pathExists w p = true -> pathExists w' p = true.
Proof.
  intros (_ & _ & _ & _ & _ & H). apply H.
Qed.

Lemma onlyAdds_fsRemove (w w' : World) :
  onlyAdds w w' -> fsRemove w' = fsRemove w.
Proof.
  now intros (_ & H & _).
Qed.

Lemma onlyAdds_fsCopy (w w' : World) :
  onlyAdds w w' -> fsCopy w' = fsCopy w.
Proof.
  now intros (_ & _ & H & _).
Qed.

Lemma targetPath_onlyAdds (w w' : World) (dep : Resolution) :
  onlyAdds w w' -> targetPath w' dep = targetPath w dep.
Proof.
  intros H. unfold targetPath, localNodeModules.
  now rewrite (onlyAdds_cwd w w' H).
Qed.

Lemma installOne_onlyAdds (w : World) (deps : Js.JsObject)
  (dep : Resolution) :
  onlyAdds w (fst (fst (installOne w deps dep))).
Proof.
  unfold installOne.
  destruct (pathExists w (targetPath w dep) && _);
    [apply onlyAdds_refl|].
  destruct (sourceOutsideTarget _ _); [|apply onlyAdds_refl].
  destruct (pathExists w (targetPath w dep)); [apply onlyAdds_refl|].
  destruct (fsRemove w (targetPath w dep)); [apply onlyAdds_refl|].
  destruct (fsCopy w (path dep) (targetPath w dep)) as [|err [|]]; simpl.
  - apply onlyAdds_withCopy.
  - apply onlyAdds_withPath.
  - apply onlyAdds_refl.
Qed.

Lemma installAll_onlyAdds (w : World) (deps : Js.JsObject)
  (resolved : list Resolution) :
  onlyAdds w (fst (fst (installAll w deps resolved))).
Proof.
  revert w deps. induction resolved as [|dep rest IH]; simpl; intros w deps.
  - apply onlyAdds_refl.
  - pose proof (installOne_onlyAdds w deps dep) as H1.
    destruct (installOne w deps dep) as [[w1 deps1] ev1]. simpl in H1.
    pose proof (IH w1 deps1) as H2.
    destruct (installAll w1 deps1 rest) as [[w2 deps2] ev2]. simpl in *.
    exact (onlyAdds_trans w w1 w2 H1 H2).
Qed.

Lemma afterEnsureDir_onlyAdds (w : World) : onlyAdds w (afterEnsureDir w).
Proof.
  apply onlyAdds_withPath.
Qed.

(** ** What the copy loop never does *)

Lemma installOne_copy_event (w : World) (deps : Js.JsObject)
  (dep : Resolution) (src target : string) :
  In (CopyDir src target) (snd (installOne w deps dep)) ->
  src = path dep /\ target = targetPath w dep
  /\ pathExists w target = false
  /\ sourceOutsideTarget target src = true.
Proof.
  unfold installOne.
  destruct (pathExists w (targetPath w dep)) eqn:Eex; simpl.
  - destruct (Js.getTruthy deps (dependency dep)); simpl; [contradiction|].
    destruct (sourceOutsideTarget _ _); simpl;
      intros [H|[]]; discriminate.
  - destruct (sourceOutsideTarget (targetPath w dep) (path dep)) eqn:Eout;
      simpl; [|intros [H|[]]; discriminate].
    destruct (fsRemove w (targetPath w dep)); simpl.
    + unfold copyCatch. destruct (code f =? "EXDEV");
        intros [H|[]]; discriminate.
    + destruct (fsCopy w (path dep) (targetPath w dep)) as [|err b]; simpl;
        unfold copyCatch; try destruct (code err =? "EXDEV");
        intros [H|[H|[]]]; try discriminate;
        injection H as <- <-; auto.
Qed.

Lemma installAll_copy_event (w : World) (deps : Js.JsObject)
  (resolved : list Resolution) (src target : string) :
  In (CopyDir src target) (snd (installAll w deps resolved)) ->
  pathExists w target = false
  /\ sourceOutsideTarget target src = true
  /\ exists dep, In dep resolved
                 /\ src = path dep /\ target = targetPath w dep.
Proof.
  revert w deps. induction resolved as [|dep rest IH]; simpl; intros w deps.
  - contradiction.
  - pose proof (installOne_onlyAdds w deps dep) as Hadd.
    pose proof (installOne_copy_event w deps dep src target) as H1.
    destruct (installOne w deps dep) as [[w1 deps1] ev1]. simpl in *.
    pose proof (IH w1 deps1) as H2.
    destruct (installAll w1 deps1 rest) as [[w2 deps2] ev2]. simpl in *.
    intros Hin. apply in_app_or in Hin. destruct Hin as [Hin|Hin].
    + destruct (H1 Hin) as (-> & -> & Hex & Hout). eauto 10.
    + destruct (H2 Hin) as (Hex & Hout & dep' & Hd & -> & ->).
      split; [|split; [exact Hout|]].
      * destruct (pathExists w (targetPath w1 dep')) eqn:E; [|reflexivity].
        apply (onlyAdds_exists w w1 _ Hadd) in E. congruence.
      * exists dep'. repeat split; auto.
        apply (targetPath_onlyAdds w w1 dep' Hadd).
Qed.

(** The copy loop never copies onto a directory that exists when it
    starts: what is already in the local [node_modules] is not
    overwritten. *)
Theorem existing_directory_never_overwritten (w : World)
  (deps : Js.JsObject) (resolved : list Resolution) (target : string)
  (e : Event) :
  pathExists w target = true ->
  In e (snd (installAll w deps resolved)) ->
  isCopyTo target e = false.
Proof.
  intros Hex Hin. destruct e; try reflexivity. simpl.
  destruct (target0 =? target) eqn:E; [|reflexivity].
  apply String.eqb_eq in E. subst target0.
  apply installAll_copy_event in Hin. destruct Hin as (Hno & _). congruence.
Qed.

Lemma existing_directory_never_overwritten_witness :
  isCopyTo "/proj/node_modules/is-odd"
    (CopyDir "/cache/app/node_modules/left-pad" "/proj/node_modules/left-pad")
  = false.
Proof.
  apply (existing_directory_never_overwritten Scenario.isOddInstalled
           [("is-odd", "3.0.1")]
           [mkResolution "left-pad" "/cache/app/node_modules/left-pad"
              "1.3.0"]
           "/proj/node_modules/is-odd").
  - reflexivity.
  - vm_compute. now left.
Defined.

Lemma split_pieces_without_separator (sep : ascii) (s piece : string) :
  In piece (Js.split sep s) -> ~ In sep (list_ascii_of_string piece).
Proof.
  revert piece. induction s as [|c s IH]; simpl; intros piece Hin.
  - destruct Hin as [<-|[]]. intros [].
  - destruct (Ascii.eqb c sep) eqn:E.
    + destruct Hin as [<-|Hin]; [intros []|now apply IH].
    + apply Ascii.eqb_neq in E.
      destruct (Js.split sep s) as [|h t] eqn:Es.
      * destruct Hin as [<-|[]]. simpl. intros [H|[]]. congruence.
      * destruct Hin as [<-|Hin].
        -- simpl. intros [H|H]; [congruence|].
           apply (IH h); [now left|exact H].
        -- apply IH. now right.
Qed.

Lemma normalizeSegments_Forall (P : string -> Prop) (allowAboveRoot : bool)
  (res segs : list string) :
  Forall P res ->
  Forall (fun s => s <> "" -> P s) segs ->
  Forall P (normalizeSegments allowAboveRoot res segs).
Proof.
  revert res. induction segs as [|seg segs IH]; simpl; intros res Hres Hsegs.
  - now apply Forall_rev.
  - inversion Hsegs as [|? ? Hseg Hrest]; subst.
    destruct (seg =? "") eqn:E0; simpl; [now apply IH|].
    apply String.eqb_neq in E0.
    destruct (seg =? "."); simpl; [now apply IH|].
    destruct (seg =? "..").
    + destruct res as [|last res'].
      * apply IH; [|exact Hrest].
        destruct allowAboveRoot; [|constructor].
        constructor; [auto|constructor].
      * inversion Hres; subst.
        destruct (last =? "..").
        -- apply IH; [|exact Hrest].
           destruct allowAboveRoot; [|exact Hres].
           constructor; [auto|exact Hres].
        -- now apply IH.
    + apply IH; [|exact Hrest]. constructor; [auto|exact Hres].
Qed.

Lemma prefix_cons (c d : ascii) (p s : string) :
  String.prefix (String c p) (String d s)
  = if Ascii.eqb c d then String.prefix p s else false.
Proof.
  cbn [String.prefix].
  destruct (ascii_dec c d) as [->|Hne].
  - now rewrite Ascii.eqb_refl.
  - apply Ascii.eqb_neq in Hne. now rewrite Hne.
Qed.

(** A segment of a resolved path is not empty and holds no slash. *)
Lemma resolvedSegments_plain (p seg : string) :
  In seg (resolvedSegments p) ->
  seg <> "" /\ ~ In "/"%char (list_ascii_of_string seg).
Proof.
  unfold resolvedSegments.
  assert (H : Forall (fun s => s <> ""
                               /\ ~ In "/"%char (list_ascii_of_string s))
                (normalizeSegments false [] (Js.split "/" p))).
  { apply normalizeSegments_Forall; [constructor|].
    apply Forall_forall. intros s Hs Hne. split; [exact Hne|].
    now apply (split_pieces_without_separator "/" p). }
  rewrite Forall_forall in H. apply H.
Qed.

Lemma relativeSegments_app (target rel : list string) :
  relativeSegments target (target ++ rel) = rel.
Proof.
  induction target as [|t target IH]; simpl.
  - now destruct rel.
  - now rewrite String.eqb_refl.
Qed.

(** The copy loop never copies a directory onto itself, nor a
    directory that lies inside the target: when the source of a copy
    lies below its target, it does so through a component whose name
    starts with two dots (which the guard mistakes for a step up).  A
    target inside the source is not excluded. *)
Theorem never_copies_from_inside_target (w : World) (deps : Js.JsObject)
  (resolved : list Resolution) (src target : string) :
  In (CopyDir src target) (snd (installAll w deps resolved)) ->
  src <> target
  /\ forall rel,
       resolvedSegments src = resolvedSegments target ++ rel ->
       exists seg rest, rel = seg :: rest /\ Js.startsWith ".." seg = true.
Proof.
  intros Hin. apply installAll_copy_event in Hin.
  destruct Hin as (_ & Hout & _).
  unfold sourceOutsideTarget, pathRelative in Hout.
  assert (Hrel : forall rel,
             resolvedSegments src = resolvedSegments target ++ rel ->
             exists seg rest,
               rel = seg :: rest /\ Js.startsWith ".." seg = true).
  { intros rel Hsegs.
    rewrite Hsegs, relativeSegments_app in Hout.
    destruct rel as [|seg rest]; [discriminate Hout|].
    exists seg, rest. split; [reflexivity|].
    destruct (resolvedSegments_plain src seg) as [Hne Hslash].
    { rewrite Hsegs. apply in_or_app. right. now left. }
    assert (Htail : exists tail,
               joinSegments (seg :: rest) = (seg ++ tail)%string
               /\ (tail = "" \/ exists t, tail = String "/" t)).
    { unfold joinSegments. simpl. destruct rest as [|r rest'].
      - exists "". split; [|now left].
        clear. induction seg as [|c seg IH]; simpl; [reflexivity|].
        now rewrite <- IH.
      - eexists. split; [reflexivity|]. right. simpl. eauto. }
    destruct Htail as (tail & Ejoin & Htail). rewrite Ejoin in Hout.
    unfold Js.startsWith, isAbsolute, Js.startsWith in *.
    destruct seg as [|c1 seg']; [congruence|].
    cbn [append] in Hout. change ".." with (String "." ".") in *.
    change "/" with (String "/" "") in Hout.
    rewrite !prefix_cons in Hout. rewrite prefix_cons.
    destruct (Ascii.eqb_spec "." c1) as [<-|Hc1].
    - change (Ascii.eqb "/" ".") with false in Hout.
      rewrite orb_false_r in Hout.
      destruct seg' as [|c2 seg''].
      + cbn [append] in Hout.
        destruct Htail as [->|[t ->]]; [discriminate Hout|].
        change "." with (String "." "") in Hout.
        rewrite prefix_cons in Hout. discriminate Hout.
      + cbn [append] in Hout. change "." with (String "." "") in *.
        rewrite prefix_cons in Hout. rewrite prefix_cons.
        destruct (Ascii.eqb "." c2); [|discriminate Hout].
        now destruct seg''.
    - destruct (Ascii.eqb_spec "/" c1) as [<-|_]; [|discriminate Hout].
      exfalso. apply Hslash. simpl. now left. }
  split; [|exact Hrel].
  intros ->. destruct (Hrel []) as (seg & rest & E & _).
  - now rewrite app_nil_r.
  - discriminate E.
Qed.

Lemma never_copies_from_inside_target_witness :
  "/cache/app/node_modules/left-pad" <> "/proj/node_modules/left-pad"
  /\ forall rel,
       resolvedSegments "/cache/app/node_modules/left-pad"
       = resolvedSegments "/proj/node_modules/left-pad" ++ rel ->
       exists seg rest, rel = seg :: rest /\ Js.startsWith ".." seg = true.
Proof.
  apply (never_copies_from_inside_target (Scenario.leftPadCached 0) []
           [mkResolution "left-pad" "/cache/app/node_modules/left-pad"
              "1.3.0"]).
  vm_compute. now left.
Defined.

(** ** The local manifest after the copy loop *)

Lemma installOne_deps (w : World) (deps : Js.JsObject) (dep : Resolution)
  (k : string) :
  Js.objGet (snd (fst (installOne w deps dep))) k = Js.objGet deps k
  \/ (k = dependency dep
      /\ Js.objGet (snd (fst (installOne w deps dep))) k
         = Some (version dep)).
Proof.
  pose proof (objGet_objAssign_cases deps (dependency dep) (version dep) k)
    as Hset.
  unfold installOne.
  destruct (pathExists w (targetPath w dep) && _); [now left|].
  destruct (sourceOutsideTarget _ _); [|now left].
  destruct (pathExists w (targetPath w dep)); [exact Hset|].
  destruct (fsRemove w (targetPath w dep)); [now left|].
  destruct (fsCopy w (path dep) (targetPath w dep)); [exact Hset|now left].
Qed.

Lemma installAll_deps (w : World) (deps : Js.JsObject)
  (resolved : list Resolution) (k : string) :
  (forall v, Js.objGet deps k = Some v ->
     exists v', Js.objGet (snd (fst (installAll w deps resolved))) k
                = Some v')
  /\ ((forall r, In r resolved -> dependency r <> k) ->
      Js.objGet (snd (fst (installAll w deps resolved))) k
      = Js.objGet deps k).
Proof.
  revert w deps. induction resolved as [|dep rest IH]; simpl; intros w deps.
  - split; eauto.
  - pose proof (installOne_deps w deps dep k) as H1.
    destruct (installOne w deps dep) as [[w1 deps1] ev1]. simpl in H1.
    destruct (IH w1 deps1) as [H2 H3].
    destruct (installAll w1 deps1 rest) as [[w2 deps2] ev2]. simpl in *.
    split.
    + intros v Hv. destruct H1 as [H1|[_ H1]].
      * apply (H2 v). congruence.
      * apply (H2 (version dep)). exact H1.
    + intros Hnot. rewrite H3 by auto.
      destruct H1 as [H1|[H1 _]]; [exact H1|].
      exfalso. apply (Hnot dep); auto.
Qed.

Lemma manifestDependencies_forCopy (w : World) :
  manifestDependencies (localManifestForCopy w)
  = manifestDependencies (localPackageJson w).
Proof.
  unfold localManifestForCopy, manifestDependencies. cbv zeta.
  destruct (dependencies (localPackageJson w)) eqn:E; simpl;
    rewrite ?E; reflexivity.
Qed.



(** ** Every resolved dependency is installed or reported *)

Lemma getTruthy_same_get (deps deps' : Js.JsObject) (n : string) :
  Js.objGet deps' n = Js.objGet deps n ->
  Js.getTruthy deps' n = Js.getTruthy deps n.
Proof.
  unfold Js.getTruthy. now intros ->.
Qed.

Lemma reported_app_l (name : string) (ev1 ev2 : list Event) :
  reportedNotInstalled name ev1 -> reportedNotInstalled name (ev1 ++ ev2).
Proof.
  unfold reportedNotInstalled.
  intros [H|[H|[msg H]]]; [left|right; left|right; right; exists msg];
    apply in_or_app; auto.
Qed.

Lemma reported_app_r (name : string) (ev1 ev2 : list Event) :
  reportedNotInstalled name ev2 -> reportedNotInstalled name (ev1 ++ ev2).
Proof.
  unfold reportedNotInstalled.
  intros [H|[H|[msg H]]]; [left|right; left|right; right; exists msg];
    apply in_or_app; auto.
Qed.

Lemma reported_copyCatch (dep : Resolution) (err : FsError)
  (before : list Event) :
  reportedNotInstalled (dependency dep) (before ++ [copyCatch dep err]).
Proof.
  apply reported_app_r. unfold reportedNotInstalled, copyCatch.
  destruct (code err =? "EXDEV").
  - right. left. now left.
  - right. right. exists (message err). now left.
Qed.

Lemma installOne_keeps_satisfied (w : World) (deps : Js.JsObject)
  (dep : Resolution) (n : string) :
  satisfiedIn w deps n = true ->
  satisfiedIn (fst (fst (installOne w deps dep)))
              (snd (fst (installOne w deps dep))) n = true.
Proof.
  intros Hsat.
  destruct (dependency dep =? n) eqn:E.
  - apply String.eqb_eq in E. unfold installOne, targetPath.
    rewrite E. unfold satisfiedIn in Hsat. rewrite Hsat. exact Hsat.
  - pose proof (installOne_onlyAdds w deps dep) as Hadd.
    pose proof (installOne_deps w deps dep n) as Hdeps.
    destruct (installOne w deps dep) as [[w1 deps1] ev1]. simpl in *.
    pose proof (onlyAdds_cwd _ _ Hadd) as Hcwd.
    pose proof (fun p => onlyAdds_exists _ _ p Hadd) as Hmono.
    unfold satisfiedIn in *. apply andb_true_iff in Hsat.
    destruct Hsat as [Hex Hin].
    unfold localNodeModules in *. rewrite Hcwd, (Hmono _ Hex). simpl.
    destruct Hdeps as [Hd|[Hd _]].
    + now rewrite (getTruthy_same_get deps deps1 n Hd).
    + subst n. now rewrite String.eqb_refl in E.
Qed.

Lemma installOne_outcome (w : World) (deps : Js.JsObject) (dep : Resolution) :
  Js.truthy (version dep) = true ->
  satisfiedIn (fst (fst (installOne w deps dep)))
              (snd (fst (installOne w deps dep))) (dependency dep) = true
  \/ reportedNotInstalled (dependency dep) (snd (installOne w deps dep)).
Proof.
  intros Hv.
  pose proof (getTruthy_objAssign deps (dependency dep) (version dep) Hv)
    as Hset.
  unfold installOne, satisfiedIn.
  change (pathJoin (localNodeModules w) (dependency dep))
    with (targetPath w dep).
  destruct (pathExists w (targetPath w dep)) eqn:Eex; simpl.
  - destruct (Js.getTruthy deps (dependency dep)) eqn:Ein; simpl.
    + left. change (pathJoin (localNodeModules w) (dependency dep))
        with (targetPath w dep). now rewrite Eex, Ein.
    + destruct (sourceOutsideTarget _ _); simpl.
      * left. change (pathJoin (localNodeModules w) (dependency dep))
          with (targetPath w dep). now rewrite Eex, Hset.
      * right. left. now left.
  - destruct (sourceOutsideTarget _ _); simpl; [|right; left; now left].
    destruct (fsRemove w (targetPath w dep)) as [err|]; simpl.
    + right. apply (reported_copyCatch dep err []).
    + destruct (fsCopy w (path dep) (targetPath w dep)) as [|err b]; simpl.
      * left.
        change (pathJoin
                  (localNodeModules
                     (withCopy w (path dep) (targetPath w dep)))
                  (dependency dep))
          with (targetPath w dep).
        unfold withCopy. cbn [pathExists].
        now rewrite String.eqb_refl, Hset.
      * right.
        apply (reported_copyCatch dep err
                 [CopyDir (path dep) (targetPath w dep)]).
Qed.

Lemma installAll_keeps_satisfied (w : World) (deps : Js.JsObject)
  (resolved : list Resolution) (n : string) :
  satisfiedIn w deps n = true ->
  satisfiedIn (fst (fst (installAll w deps resolved)))
              (snd (fst (installAll w deps resolved))) n = true.
Proof.
  revert w deps. induction resolved as [|dep rest IH]; simpl;
    intros w deps Hsat.
  - exact Hsat.
  - pose proof (installOne_keeps_satisfied w deps dep n Hsat) as H1.
    destruct (installOne w deps dep) as [[w1 deps1] ev1]. simpl in H1.
    pose proof (IH w1 deps1 H1) as H2.
    destruct (installAll w1 deps1 rest) as [[w2 deps2] ev2]. exact H2.
Qed.

Lemma installAll_outcome (w : World) (deps : Js.JsObject)
  (resolved : list Resolution) (dep : Resolution) :
  In dep resolved ->
  Js.truthy (version dep) = true ->
  satisfiedIn (fst (fst (installAll w deps resolved)))
              (snd (fst (installAll w deps resolved))) (dependency dep)
  = true
  \/ reportedNotInstalled (dependency dep)
       (snd (installAll w deps resolved)).
Proof.
  intros Hin Hv. revert w deps.
  induction resolved as [|d rest IH]; simpl; intros w deps.
  - contradiction.
  - destruct Hin as [->|Hin].
    + pose proof (installOne_outcome w deps dep Hv) as H1.
      destruct (installOne w deps dep) as [[w1 deps1] ev1]. simpl in H1.
      pose proof (installAll_keeps_satisfied w1 deps1 rest (dependency dep))
        as H2.
      destruct (installAll w1 deps1 rest) as [[w2 deps2] ev2]. simpl in *.
      destruct H1 as [H1|H1]; [left; auto|right].
      now apply reported_app_l.
    + destruct (installOne w deps d) as [[w1 deps1] ev1].
      pose proof (IH Hin w1 deps1) as H2.
      destruct (installAll w1 deps1 rest) as [[w2 deps2] ev2]. simpl in *.
      destruct H2 as [H2|H2]; [left; auto|right].
      now apply reported_app_r.
Qed.

(** When the local manifest can be written, every resolved dependency
    with a non-empty version is, after [copyDependenciesToLocal],
    either satisfied locally (recorded in the local manifest and present
    in the local [node_modules], so that a later run does not search for
    it) or reported as not installed. *)
Theorem resolved_dependency_installed_or_reported (w : World)
  (resolved : list Resolution) (allDependencies : list string)
  (pm : PackageManager) (dep : Resolution) :
  writeJsonOk w = true ->
  In dep resolved ->
  Js.truthy (version dep) = true ->
  let run := copyDependenciesToLocal w resolved allDependencies pm in
  (localVersion (fst run) (dependency dep) = true
   /\ localModuleExists (fst run) (dependency dep) = true)
  \/ reportedNotInstalled (dependency dep) (snd run).
Proof.
  intros Hw Hin Hv. unfold copyDependenciesToLocal. cbv zeta.
  change (localManifestForCopy (afterEnsureDir w))
    with (localManifestForCopy w).
  pose proof (installAll_onlyAdds (afterEnsureDir w)
                (manifestDependencies (localManifestForCopy w)) resolved)
    as Hadd.
  pose proof (installAll_outcome (afterEnsureDir w)
                (manifestDependencies (localManifestForCopy w)) resolved
                dep Hin Hv) as Hout.
  destruct (installAll (afterEnsureDir w)
              (manifestDependencies (localManifestForCopy w))
              resolved) as [[w1 deps1] ev1].
  simpl in Hadd, Hout.
  pose proof (onlyAdds_writeJsonOk _ _ Hadd) as Hok.
  change (writeJsonOk (afterEnsureDir w)) with (writeJsonOk w) in Hok.
  rewrite Hok, Hw.
  destruct Hout as [Hsat|Hrep].
  - left. unfold satisfiedIn in Hsat. apply andb_true_iff in Hsat.
    destruct Hsat as [Hex Hin'].
    assert (Hgoal :
      localVersion
        (withJson w1 (localPackageJsonPath w1)
           (mkPackageJson (Some deps1)
              (devDependencies (localManifestForCopy w))
              (peerDependencies (localManifestForCopy w))))
        (dependency dep) = true
      /\ localModuleExists
           (withJson w1 (localPackageJsonPath w1)
              (mkPackageJson (Some deps1)
                 (devDependencies (localManifestForCopy w))
                 (peerDependencies (localManifestForCopy w))))
           (dependency dep) = true).
    { split.
      - unfold localVersion, localPackageJson, localPackageJsonPath.
        simpl. rewrite String.eqb_refl. simpl. exact Hin'.
      - unfold localModuleExists. exact Hex. }
    destruct (missingDeps resolved allDependencies); exact Hgoal.
  - right.
    destruct (missingDeps resolved allDependencies); simpl;
      now apply reported_app_l.
Qed.

Lemma resolved_dependency_installed_or_reported_witness :
  let run := copyDependenciesToLocal Scenario.crossDevice
               [mkResolution "left-pad" "/cache/app/node_modules/left-pad"
                  "1.3.0";
                mkResolution "is-odd" "/cache/app/node_modules/is-odd"
                  "3.0.1"]
               ["left-pad"; "is-odd"] npm in
  (localVersion (fst run) "is-odd" = true
   /\ localModuleExists (fst run) "is-odd" = true)
  \/ reportedNotInstalled "is-odd" (snd run).
Proof.
  apply (resolved_dependency_installed_or_reported Scenario.crossDevice
           [mkResolution "left-pad" "/cache/app/node_modules/left-pad"
              "1.3.0";
            mkResolution "is-odd" "/cache/app/node_modules/is-odd" "3.0.1"]
           ["left-pad"; "is-odd"] npm
           (mkResolution "is-odd" "/cache/app/node_modules/is-odd" "3.0.1")).
  - reflexivity.
  - right. now left.
  - reflexivity.
Defined.

(** ** What reaches the package manager *)

Lemma installOne_never_spawns (w : World) (deps : Js.JsObject)
  (dep : Resolution) (cmd : string) (args : list string) :
  ~ In (Spawned cmd args) (snd (installOne w deps dep)).
Proof.
  unfold installOne.
  destruct (pathExists w (targetPath w dep) && _); [intros []|].
  destruct (sourceOutsideTarget _ _); [|intros [H|[]]; discriminate].
  destruct (pathExists w (targetPath w dep));
    [intros [H|[]]; discriminate|].
  destruct (fsRemove w (targetPath w dep)) as [err|]; simpl.
  - unfold copyCatch. destruct (code err =? "EXDEV");
      intros [H|[]]; discriminate.
  - destruct (fsCopy w (path dep) (targetPath w dep)) as [|err b]; simpl;
      unfold copyCatch; try destruct (code err =? "EXDEV");
      intros [H|[H|[]]]; discriminate.
Qed.

Lemma installAll_never_spawns (w : World) (deps : Js.JsObject)
  (resolved : list Resolution) (cmd : string) (args : list string) :
  ~ In (Spawned cmd args) (snd (installAll w deps resolved)).
Proof.
  revert w deps. induction resolved as [|dep rest IH]; simpl; intros w deps.
  - intros [].
  - pose proof (installOne_never_spawns w deps dep cmd args) as H1.
    destruct (installOne w deps dep) as [[w1 deps1] ev1].
    pose proof (IH w1 deps1) as H2.
    destruct (installAll w1 deps1 rest) as [[w2 deps2] ev2]. simpl in *.
    intros Hin. apply in_app_or in Hin. tauto.
Qed.

Lemma runPackageManager_spawn (w : World) (pm : PackageManager)
  (deps : list string) (cmd : string) (args : list string) :
  In (Spawned cmd args) (fst (runPackageManager w pm deps)) ->
  cmd = packageManagerName pm /\ args = installCommands pm ++ deps.
Proof.
  unfold runPackageManager.
  destruct (spawn w (packageManagerName pm) (installCommands pm ++ deps))
    as [[|z|z]|]; simpl;
    intros [H|[H|[]]]; try discriminate; injection H as <- <-; auto.
Qed.

Lemma missingDeps_spec (resolved : list Resolution)
  (allDependencies : list string) (d : string) :
  In d (missingDeps resolved allDependencies)
  <-> In d allDependencies
      /\ ~ In (requestedName d) (resolvedNames resolved).
Proof.
  unfold missingDeps, resolvedNames. rewrite filter_In.
  split; intros [H1 H2]; split; auto.
  - intros Hin. apply negb_true_iff in H2.
    assert (Hex : existsb (String.eqb (requestedName d))
                    (map dependency resolved) = true).
    { apply existsb_exists. exists (requestedName d).
      split; [exact Hin|apply String.eqb_refl]. }
    congruence.
  - apply negb_true_iff.
    destruct (existsb (String.eqb (requestedName d))
                (map dependency resolved)) eqn:E; [|reflexivity].
    apply existsb_exists in E. destruct E as (x & Hx & Heq).
    apply String.eqb_eq in Heq. subst x. contradiction.
Qed.

(** [copyDependenciesToLocal] runs the package manager at most once,
    on the identifiers that are left. *)
Lemma copyDependenciesToLocal_spawn (w : World) (resolved : list Resolution)
  (allDependencies : list string) (pm : PackageManager)
  (cmd : string) (args : list string) :
  In (Spawned cmd args)
     (snd (copyDependenciesToLocal w resolved allDependencies pm)) ->
  cmd = packageManagerName pm
  /\ args = installCommands pm ++ missingDeps resolved allDependencies
  /\ missingDeps resolved allDependencies <> [].
Proof.
  unfold copyDependenciesToLocal. cbv zeta.
  pose proof (installAll_never_spawns (afterEnsureDir w)
                (manifestDependencies
                   (localManifestForCopy (afterEnsureDir w)))
                resolved cmd args) as Hno.
  destruct (installAll (afterEnsureDir w)
              (manifestDependencies
                 (localManifestForCopy (afterEnsureDir w)))
              resolved) as [[w1 deps1] ev1].
  simpl in Hno.
  assert (Hcases : forall w2 ev2,
             ~ In (Spawned cmd args) ev2 ->
             In (Spawned cmd args)
                (snd (match missingDeps resolved allDependencies with
                      | [] => (w2, ev1 ++ ev2)
                      | missing =>
                          (w2, ev1 ++ ev2
                                 ++ fst (runPackageManager w2 pm missing))
                      end)) ->
             cmd = packageManagerName pm
             /\ args = installCommands pm
                         ++ missingDeps resolved allDependencies
             /\ missingDeps resolved allDependencies <> []).
  { intros w2 ev2 Hno2.
    destruct (missingDeps resolved allDependencies) as [|m ms]; simpl.
    - intros Hin. apply in_app_or in Hin. tauto.
    - intros Hin. apply in_app_or in Hin.
      destruct Hin as [Hin|Hin]; [tauto|].
      apply in_app_or in Hin. destruct Hin as [Hin|Hin]; [tauto|].
      apply runPackageManager_spawn in Hin. destruct Hin as [-> ->].
      split; [reflexivity|]. split; [reflexivity|discriminate]. }
  destruct (writeJsonOk w1); apply Hcases;
    intros [H|[]]; discriminate.
Qed.

Lemma resolveAndInstall_spawn (semver : SemverLib) (w : World)
  (request : list string) (customRootDir : option string)
  (pm : PackageManager) (cmd : string) (args : list string) :
  request <> [] ->
  In (Spawned cmd args)
     (snd (fst (resolveAndInstall semver w request customRootDir pm))) ->
  cmd = packageManagerName pm
  /\ exists ds,
       args = installCommands pm ++ ds
       /\ ds <> []
       /\ (forall d, In d ds -> In d request)
       /\ (forall rs d,
             getDependencyPaths semver w request customRootDir = Some rs ->
             In d ds -> ~ In (requestedName d) (resolvedNames rs)).
Proof.
  intros Hne. unfold resolveAndInstall.
  destruct (getDependencyPaths semver w request customRootDir)
    as [[|r rs]|] eqn:Eg.
  - pose proof (runPackageManager_spawn w pm request cmd args) as Hrun.
    destruct (runPackageManager w pm request) as [ev ok]. simpl in *.
    intros Hin. destruct (Hrun Hin) as [-> ->].
    split; [reflexivity|]. exists request. repeat split; auto.
    intros rs' d Hrs' _. injection Hrs' as <-. intros [].
  - unfold awaitCopyDependenciesToLocal.
    destruct (ensureDir w (localNodeModules w)); [simpl; intros []|].
    pose proof (copyDependenciesToLocal_spawn w (r :: rs) request pm
                  cmd args) as Hsp.
    destruct (copyDependenciesToLocal w (r :: rs) request pm) as [w' ev].
    simpl in *. intros Hin. destruct (Hsp Hin) as (-> & -> & Hmiss).
    split; [reflexivity|]. exists (missingDeps (r :: rs) request).
    split; [reflexivity|]. split; [exact Hmiss|]. split.
    + intros d Hd. now apply missingDeps_spec in Hd.
    + intros rs0 d Hrs0 Hd. injection Hrs0 as <-.
      now apply missingDeps_spec in Hd.
  - simpl. intros [].
Qed.

(** The package manager is only ever run on identifiers that were
    requested and, once something was found in the cache, only on those
    whose name is not among the resolved ones; it is never run without
    an identifier. *)
Theorem package_manager_gets_only_requested (semver : SemverLib)
  (w : World) (dependencyNames : list string)
  (customRootDir : option string) (pm : PackageManager)
  (cmd : string) (args : list string) :
  In (Spawned cmd args)
     (snd (fst (main semver w dependencyNames customRootDir pm))) ->
  cmd = packageManagerName pm
  /\ exists request ds,
       requested w dependencyNames = Some request
       /\ args = installCommands pm ++ ds
       /\ ds <> []
       /\ (forall d, In d ds -> In d request)
       /\ (forall rs d,
             getDependencyPaths semver w request customRootDir = Some rs ->
             In d ds -> ~ In (requestedName d) (resolvedNames rs)).
Proof.
  unfold main, requested.
  destruct dependencyNames as [|d0 ds0].
  - destruct (readJson w (localPackageJsonPath w)) as [pj|]; [|intros []].
    destruct (requestFromManifest (manifestDependencies pj)) as [|q qs] eqn:E;
      [intros []|].
    intros Hin.
    destruct (resolveAndInstall_spawn semver w (q :: qs) customRootDir pm
                cmd args) as (Hc & ds & H); [discriminate|exact Hin|].
    split; [exact Hc|]. exists (q :: qs), ds. auto.
  - intros Hin.
    destruct (resolveAndInstall_spawn semver w (d0 :: ds0) customRootDir pm
                cmd args) as (Hc & ds & H); [discriminate|exact Hin|].
    split; [exact Hc|]. exists (d0 :: ds0), ds. auto.
Qed.

Lemma package_manager_gets_only_requested_witness :
  "npm" = packageManagerName npm
  /\ exists request ds,
       requested (Scenario.leftPadCached 1) ["left-pad"; "unknown-pkg"]
       = Some request
       /\ ["install"; "unknown-pkg"] = installCommands npm ++ ds
       /\ ds <> []
       /\ (forall d, In d ds -> In d request)
       /\ (forall rs d,
             getDependencyPaths PlainSemver.lib (Scenario.leftPadCached 1)
               request (Some "/cache") = Some rs ->
             In d ds -> ~ In (requestedName d) (resolvedNames rs)).
Proof.
  apply (package_manager_gets_only_requested PlainSemver.lib
           (Scenario.leftPadCached 1) ["left-pad"; "unknown-pkg"]
           (Some "/cache") npm "npm" ["install"; "unknown-pkg"]).
  vm_compute. auto 10.
Defined.

(** ** C8: a cross-device copy failure is a soft success *)

Lemma installAll_app (w : World) (deps : Js.JsObject)
  (before rest : list Resolution) :
  installAll w deps (before ++ rest)
  = (fst (fst (installAll (fst (fst (installAll w deps before)))
                 (snd (fst (installAll w deps before))) rest)),
     snd (fst (installAll (fst (fst (installAll w deps before)))
                 (snd (fst (installAll w deps before))) rest)),
     snd (installAll w deps before)
       ++ snd (installAll (fst (fst (installAll w deps before)))
                 (snd (fst (installAll w deps before))) rest)).
Proof.
  revert w deps. induction before as [|dep before IH]; simpl; intros w deps.
  - now destruct (installAll w deps rest) as [[w2 deps2] ev2].
  - destruct (installOne w deps dep) as [[w1 deps1] ev1].
    rewrite IH.
    destruct (installAll w1 deps1 before) as [[w2 deps2] ev2]. simpl.
    now rewrite app_assoc.
Qed.

(** With something to ask for, the top-level block searches and
    installs what is asked for. *)
Lemma main_requested (semver : SemverLib) (w : World)
  (dependencyNames request : list string) (customRootDir : option string)
  (pm : PackageManager) :
  requested w dependencyNames = Some request ->
  request <> [] ->
  main semver w dependencyNames customRootDir pm
  = resolveAndInstall semver w request customRootDir pm.
Proof.
  unfold main, requested. destruct dependencyNames as [|d ds].
  - destruct (readJson w (localPackageJsonPath w)) as [pj|]; [|discriminate].
    intros H Hne. injection H as <-.
    destruct (requestFromManifest (manifestDependencies pj));
      [congruence|reflexivity].
  - intros H _. now injection H as <-.
Qed.

(** C8: a run finds dependencies in the cache, and the copy of one of
    them, [dep], fails with [EXDEV].  Then [copyDependenciesToLocal]
    reports [dep] as already installed, not as failed, and goes on: the
    dependencies after [dep] are handled as if [dep] had not been there,
    the local manifest is written (or its write failure reported), [dep]
    is not among the identifiers handed to the package manager, and the
    process ends with exit code 0. *)
Theorem cross_device_failure_is_soft_success (semver : SemverLib)
  (w : World) (dependencyNames request : list string)
  (customRootDir : option string) (pm : PackageManager)
  (before rest : list Resolution) (dep : Resolution)
  (err : FsError) (partialTarget : bool)
  (w0 : World) (deps0 : Js.JsObject) (ev0 : list Event) :
  requested w dependencyNames = Some request ->
  getDependencyPaths semver w request customRootDir
  = Some (before ++ dep :: rest) ->
  ensureDir w (localNodeModules w) = None ->
  installAll (afterEnsureDir w)
    (manifestDependencies (localManifestForCopy w)) before
  = (w0, deps0, ev0) ->
  pathExists w0 (targetPath w dep) = false ->
  sourceOutsideTarget (targetPath w dep) (path dep) = true ->
  fsRemove w (targetPath w dep) = None ->
  fsCopy w (path dep) (targetPath w dep) = CopyThrows err partialTarget ->
  code err = "EXDEV" ->
  let w1 := if partialTarget then withPath w0 (targetPath w dep) else w0 in
  let run := main semver w dependencyNames customRootDir pm in
  (exists tail,
     snd (fst run)
     = ev0 ++ [CopyDir (path dep) (targetPath w dep);
               SpinnerAlreadyInstalled (dependency dep)]
           ++ snd (installAll w1 deps0 rest) ++ tail
     /\ (In ManifestWriteFailed tail
         \/ exists pj,
              In (ManifestWritten pj) tail
              /\ dependencies pj
                 = Some (snd (fst (installAll w1 deps0 rest)))))
  /\ (forall cmd args,
        In (Spawned cmd args) (snd (fst run)) ->
        forall d, In d args ->
          In d (installCommands pm) \/ requestedName d <> dependency dep)
  /\ snd run = ExitCode 0.
Proof.
  intros Hreq Hg Hdir Hbefore Hex Hout Hrm Hcp Hcode w1 run.
  assert (Hne : request <> []).
  { intros ->. unfold getDependencyPaths in Hg.
    destruct (rootDirs w customRootDir); [|discriminate Hg].
    change (depsToSearch w (dependencySpecs []))
      with (@nil DependencySpec) in Hg.
    injection Hg as Hg. destruct before; discriminate Hg. }
  assert (Hrun : run = (fst (copyDependenciesToLocal w
                               (before ++ dep :: rest) request pm),
                        snd (copyDependenciesToLocal w
                               (before ++ dep :: rest) request pm),
                        ExitCode 0)).
  { unfold run. rewrite (main_requested semver w dependencyNames request
                           customRootDir pm Hreq Hne).
    unfold resolveAndInstall, awaitCopyDependenciesToLocal.
    rewrite Hg, Hdir.
    destruct (before ++ dep :: rest) as [|r rs] eqn:E;
      [destruct before; discriminate E|].
    now destruct (copyDependenciesToLocal w (r :: rs) request pm). }
  rewrite Hrun. simpl fst. simpl snd.
  split; [|split; [|reflexivity]].
  - pose proof (installAll_onlyAdds (afterEnsureDir w)
                  (manifestDependencies (localManifestForCopy w)) before)
      as Hadd.
    rewrite Hbefore in Hadd. simpl in Hadd.
    pose proof (onlyAdds_trans _ _ _ (afterEnsureDir_onlyAdds w) Hadd)
      as Hadd0.
    assert (Hstep : installAll w0 deps0 (dep :: rest)
                    = (fst (fst (installAll w1 deps0 rest)),
                       snd (fst (installAll w1 deps0 rest)),
                       [CopyDir (path dep) (targetPath w dep);
                        SpinnerAlreadyInstalled (dependency dep)]
                         ++ snd (installAll w1 deps0 rest))).
    { pose proof (installAll_cross_device w0 deps0 dep rest err
                    partialTarget) as Hx.
      rewrite (targetPath_onlyAdds w w0 dep Hadd0) in Hx.
      rewrite (onlyAdds_fsRemove w w0 Hadd0) in Hx.
      rewrite (onlyAdds_fsCopy w w0 Hadd0) in Hx.
      exact (Hx Hex Hout Hrm Hcp Hcode). }
    unfold copyDependenciesToLocal. cbv zeta.
    change (localManifestForCopy (afterEnsureDir w))
      with (localManifestForCopy w).
    rewrite installAll_app, Hbefore. cbn [fst snd].
    rewrite Hstep. cbn [fst snd].
    destruct (writeJsonOk (fst (fst (installAll w1 deps0 rest))));
      destruct (missingDeps (before ++ dep :: rest) request); simpl;
      eexists; (split; [rewrite <- !app_assoc; simpl; reflexivity|]);
      simpl; eauto.
  - intros cmd args Hin d Hd.
    apply copyDependenciesToLocal_spawn in Hin.
    destruct Hin as (_ & -> & _).
    apply in_app_or in Hd. destruct Hd as [Hd|Hd]; [now left|right].
    apply missingDeps_spec in Hd. destruct Hd as [_ Hno].
    intros E. apply Hno. rewrite E. unfold resolvedNames.
    rewrite map_app. apply in_or_app. right. now left.
Qed.

Lemma cross_device_failure_is_soft_success_witness :
  let w := Scenario.crossDevice in
  let dep := mkResolution "left-pad" "/cache/app/node_modules/left-pad"
               "1.3.0" in
  let rest := [mkResolution "is-odd" "/cache/app/node_modules/is-odd"
                 "3.0.1"] in
  let w1 := afterEnsureDir w in
  let run := main PlainSemver.lib w ["left-pad"; "is-odd"] (Some "/cache")
               npm in
  (exists tail,
     snd (fst run)
     = [] ++ [CopyDir (path dep) (targetPath w dep);
              SpinnerAlreadyInstalled (dependency dep)]
          ++ snd (installAll w1 [] rest) ++ tail
     /\ (In ManifestWriteFailed tail
         \/ exists pj,
              In (ManifestWritten pj) tail
              /\ dependencies pj = Some (snd (fst (installAll w1 [] rest)))))
  /\ (forall cmd args,
        In (Spawned cmd args) (snd (fst run)) ->
        forall d, In d args ->
          In d (installCommands npm) \/ requestedName d <> dependency dep)
  /\ snd run = ExitCode 0.
Proof.
  apply (cross_device_failure_is_soft_success PlainSemver.lib
           Scenario.crossDevice ["left-pad"; "is-odd"]
           ["left-pad"; "is-odd"] (Some "/cache") npm []
           [mkResolution "is-odd" "/cache/app/node_modules/is-odd" "3.0.1"]
           (mkResolution "left-pad" "/cache/app/node_modules/left-pad"
              "1.3.0")
           (mkFsError "EXDEV" "cross-device link not permitted") false
           (afterEnsureDir Scenario.crossDevice) [] []);
    reflexivity.
Defined.

(** ** Where a result of [src/index.js] comes from *)

Lemma src_matchSpecs_sound (w : World) (raceLost : string -> string -> bool)
  (deps : Js.JsObject) (p : string)
  (todo : list DependencySpec) (seenDeps : list string) (r : Resolution) :
  In r (SrcIndex.matchSpecs w raceLost deps p todo seenDeps) ->
  exists spec,
    In spec todo /\ dependency r = fst spec
    /\ localVersion w (fst spec) && localModuleExists w (fst spec) = false
    /\ accepts deps spec = Some (version r)
    /\ path r = nodeModulesPath p (fst spec)
    /\ pathExists w (path r) = true.
Proof.
  induction todo as [|spec rest IH]; simpl.
  - contradiction.
  - assert (Hrest :
               In r (SrcIndex.matchSpecs w raceLost deps p rest seenDeps) ->
               exists spec0,
                 (spec = spec0 \/ In spec0 rest)
                 /\ dependency r = fst spec0
                 /\ localVersion w (fst spec0)
                    && localModuleExists w (fst spec0) = false
                 /\ accepts deps spec0 = Some (version r)
                 /\ path r = nodeModulesPath p (fst spec0)
                 /\ pathExists w (path r) = true).
    { intros Hs. destruct (IH Hs) as (spec0 & H0 & H).
      exists spec0. split; [now right|exact H]. }
    destruct (localVersion w (fst spec) && localModuleExists w (fst spec))
      eqn:Esat; [exact Hrest|].
    destruct (accepts deps spec) as [found|] eqn:Eacc; [|exact Hrest].
    destruct (existsb _ seenDeps || raceLost p _); [exact Hrest|].
    destruct (pathExists w (nodeModulesPath p (fst spec))) eqn:Eex;
      [|exact Hrest].
    intros [<-|Hin]; [|auto].
    exists spec. simpl. auto 10.
Qed.

Lemma src_processBatch_sound (w : World) (raceLost : string -> string -> bool)
  (specs : list DependencySpec)
  (batch : list string) (seenDeps : list string) (r : Resolution) :
  In r (fst (SrcIndex.processBatch w raceLost specs batch seenDeps)) ->
  exists p spec,
    In p batch /\ In spec specs /\ dependency r = fst spec
    /\ localVersion w (fst spec) && localModuleExists w (fst spec) = false
    /\ Js.matchNestedNodeModules p = false
    /\ (exists pj, readJson w p = Some pj
                   /\ accepts (mergeDependencies pj) spec = Some (version r))
    /\ path r = nodeModulesPath p (fst spec)
    /\ pathExists w (path r) = true.
Proof.
  unfold SrcIndex.processBatch. simpl. rewrite in_flat_map.
  intros (p & Hp & Hin). unfold SrcIndex.processPackageJson in Hin.
  destruct (Js.matchNestedNodeModules p) eqn:En; [contradiction|].
  destruct (readJson w p) as [pj|] eqn:Er; [|contradiction].
  apply src_matchSpecs_sound in Hin.
  destruct Hin as (spec & A & B & C & D & E & F).
  exists p, spec. repeat split; eauto.
Qed.

(** In [src/index.js], however the callbacks of a batch interleave,
    every result answers a requested name that is not satisfied
    locally, comes from an analysed manifest of the crawl that declares
    the name with exactly the version of the result and has the
    directory next to it, and meets the version constraint of the
    request when there is one. *)
Theorem src_index_result_provenance (w : World)
  (raceLost : string -> string -> bool)
  (dependencyNames : list string) (customRootDir : option string)
  (rs : list Resolution) (r : Resolution) :
  SrcIndex.getDependencyPaths w raceLost dependencyNames customRootDir
  = Some rs ->
  In r rs ->
  (exists ver,
     In (dependency r, ver) (dependencySpecs dependencyNames)
     /\ (Js.truthyOpt ver = true -> ver = Some (version r)))
  /\ localVersion w (dependency r) && localModuleExists w (dependency r)
     = false
  /\ exists p,
       In p (packageJsonPaths w customRootDir)
       /\ declaredAt w p (dependency r) (version r)
       /\ path r = nodeModulesPath p (dependency r).
Proof.
  unfold SrcIndex.getDependencyPaths.
  destruct (rootDirs w customRootDir); [|discriminate].
  intros Hrs. injection Hrs as <-.
  assert (Hloop : forall bs seenDeps,
    In r (SrcIndex.batchLoop w raceLost (dependencySpecs dependencyNames)
            bs seenDeps)
    -> exists batch, In batch bs
         /\ exists s,
              In r (fst (SrcIndex.processBatch w raceLost
                           (dependencySpecs dependencyNames) batch s))).
  { induction bs as [|batch rest IH]; simpl; intros seenDeps.
    - contradiction.
    - intros Hin. apply in_app_or in Hin. destruct Hin as [Hin|Hin].
      + exists batch. split; [now left|]. exists seenDeps. exact Hin.
      + destruct (IH _ Hin) as (b & Hb & H). exists b. auto. }
  intros Hin. apply Hloop in Hin.
  destruct Hin as (batch & Hbatch & s & Hin).
  apply src_processBatch_sound in Hin.
  destruct Hin as (p & [name ver] & Hp & Hspec & Hname & Hsat & Hnest
                   & (pj & Hread & Hacc) & Hpath & Hex).
  simpl in *. rewrite Hname.
  split; [|split; [exact Hsat|]].
  - exists ver. split; [exact Hspec|].
    intros Hv. destruct ver as [c|]; [|discriminate].
    apply accepts_constrained in Hacc; [|exact Hv].
    destruct Hacc as [_ ->]. reflexivity.
  - exists p. split; [exact (in_batch_in_crawl _ _ _ Hbatch Hp)|].
    split; [|exact Hpath].
    apply accepts_declared in Hacc. destruct Hacc as [Hd Ht].
    unfold declaredAt. rewrite <- Hpath.
    repeat split; eauto.
Qed.

Lemma src_index_result_provenance_witness :
  (exists ver,
     In ("left-pad", ver) (dependencySpecs ["left-pad"])
     /\ (Js.truthyOpt ver = true -> ver = Some "2.0.0"))
  /\ localVersion Scenario.twoBatches "left-pad"
     && localModuleExists Scenario.twoBatches "left-pad" = false
  /\ exists p,
       In p (packageJsonPaths Scenario.twoBatches (Some "/cache"))
       /\ declaredAt Scenario.twoBatches p "left-pad" "2.0.0"
       /\ "/cache/new/node_modules/left-pad" = nodeModulesPath p "left-pad".
Proof.
  apply (src_index_result_provenance Scenario.twoBatches (fun _ _ => false)
           ["left-pad"] (Some "/cache")
           [mkResolution "left-pad" "/cache/old/node_modules/left-pad"
              "1.0.0";
            mkResolution "left-pad" "/cache/new/node_modules/left-pad"
              "2.0.0"]
           (mkResolution "left-pad" "/cache/new/node_modules/left-pad"
              "2.0.0")).
  - vm_compute. reflexivity.
  - simpl. auto.
Defined.

(** ** Range markers and parsed names *)

(** Cleaning a declared version removes at most one character: a
    version without caret or tilde is kept as it is; otherwise exactly
    the first caret or tilde is dropped, wherever it stands, and any
    later one stays. *)
Theorem range_marker_removed_once (s : string) :
  ((forall c, In c (list_ascii_of_string s) ->
              c <> "^"%char /\ c <> "~"%char)
   /\ Js.replaceFirstRangeMarker s = s)
  \/ exists a m b,
       s = (a ++ String m b)%string
       /\ (m = "^"%char \/ m = "~"%char)
       /\ (forall c, In c (list_ascii_of_string a) ->
                     c <> "^"%char /\ c <> "~"%char)
       /\ Js.replaceFirstRangeMarker s = (a ++ b)%string.
Proof.
  induction s as [|ch s IH]; simpl.
  - left. split; [intros c []|reflexivity].
  - destruct (Ascii.eqb ch "^") eqn:E1; simpl.
    + apply Ascii.eqb_eq in E1. subst ch. right.
      exists EmptyString, "^"%char, s. simpl.
      repeat split; auto; intros c [].
    + destruct (Ascii.eqb ch "~") eqn:E2; simpl.
      * apply Ascii.eqb_eq in E2. subst ch. right.
        exists EmptyString, "~"%char, s. simpl.
        repeat split; auto; intros c [].
      * apply Ascii.eqb_neq in E1, E2.
        destruct IH as [[Hno Hid]|(a & m & b & -> & Hm & Hno & Hrep)].
        -- left. split; [|now rewrite Hid].
           intros c [<-|Hc]; auto.
        -- right. exists (String ch a), m, b. simpl.
           repeat split; auto; try (now rewrite Hrep);
             destruct H as [<-|Hc]; auto; now apply Hno.
Qed.

(** The name a requested identifier is searched under is the name that
    keeps it out of the package manager's arguments once resolved, and
    neither that name nor the parsed version contains an [@]. *)
Theorem parsed_name_is_requested_name (dep : string) :
  fst (parseDependency dep) = requestedName dep
  /\ ~ In "@"%char (list_ascii_of_string (fst (parseDependency dep)))
  /\ forall ver, snd (parseDependency dep) = Some ver ->
                 ~ In "@"%char (list_ascii_of_string ver).
Proof.
  unfold parseDependency, requestedName.
  pose proof (split_pieces_without_separator "@" dep) as H.
  destruct (Js.split "@" dep) as [|name [|ver rest]]; simpl.
  - split; [reflexivity|split; [intros []|discriminate]].
  - split; [reflexivity|split; [apply H; now left|discriminate]].
  - split; [reflexivity|split; [apply H; now left|]].
    intros v Hv. injection Hv as <-. apply H. right. now left.
Qed.

(** ** A manifest that cannot be written *)

Lemma installOne_installed_exists (w : World) (deps : Js.JsObject)
  (dep : Resolution) (name ver : string) :
  In (SpinnerInstalled name ver) (snd (installOne w deps dep)) ->
  pathExists (fst (fst (installOne w deps dep)))
    (pathJoin (localNodeModules w) name) = true.
Proof.
  unfold installOne.
  destruct (pathExists w (targetPath w dep) && _); [intros []|].
  destruct (sourceOutsideTarget _ _); [|intros [H|[]]; discriminate].
  destruct (pathExists w (targetPath w dep));
    [intros [H|[]]; discriminate|].
  destruct (fsRemove w (targetPath w dep)) as [err|]; simpl.
  - unfold copyCatch. destruct (code err =? "EXDEV");
      intros [H|[]]; discriminate.
  - destruct (fsCopy w (path dep) (targetPath w dep)) as [|err b]; simpl.
    + intros [H|[H|[]]]; [discriminate|]. injection H as <- _.
      unfold targetPath, withCopy. cbn [pathExists].
      now rewrite String.eqb_refl.
    + unfold copyCatch. destruct (code err =? "EXDEV");
        intros [H|[H|[]]]; discriminate.
Qed.

Lemma installAll_installed_exists (w : World) (deps : Js.JsObject)
  (resolved : list Resolution) (name ver : string) :
  In (SpinnerInstalled name ver) (snd (installAll w deps resolved)) ->
  pathExists (fst (fst (installAll w deps resolved)))
    (pathJoin (localNodeModules w) name) = true.
Proof.
  revert w deps. induction resolved as [|dep rest IH]; simpl; intros w deps.
  - contradiction.
  - pose proof (installOne_onlyAdds w deps dep) as Hadd.
    pose proof (installOne_installed_exists w deps dep name ver) as H1.
    destruct (installOne w deps dep) as [[w1 deps1] ev1]. simpl in *.
    pose proof (installAll_onlyAdds w1 deps1 rest) as Hadd2.
    pose proof (IH w1 deps1) as H2.
    destruct (installAll w1 deps1 rest) as [[w2 deps2] ev2]. simpl in *.
    intros Hin. apply in_app_or in Hin. destruct Hin as [Hin|Hin].
    + apply (onlyAdds_exists _ _ _ Hadd2). auto.
    + pose proof (onlyAdds_cwd _ _ Hadd) as Hcwd.
      unfold localNodeModules in *. rewrite Hcwd in H2. auto.
Qed.


Lemma satisfied_not_resolved_witness :
  localVersion Scenario.isOddInstalled "left-pad"
  && localModuleExists Scenario.isOddInstalled "left-pad" = false.
Proof.
  apply (satisfied_not_resolved PlainSemver.lib Scenario.isOddInstalled
           ["left-pad"; "is-odd"] (Some "/cache")
           [mkResolution "left-pad" "/cache/app/node_modules/left-pad"
              "1.3.0"]
           (mkResolution "left-pad" "/cache/app/node_modules/left-pad"
              "1.3.0")).
  - vm_compute. reflexivity.
  - now left.
Defined.


(** ** Rejections that nothing handles *)

(** When something was found in the cache but the local [node_modules]
    cannot be created, the run ends with an unhandled rejection:
    nothing is copied, the local manifest is not written and the
    package manager is not run, not even for what was not found. *)
Theorem uncreatable_node_modules_ends_run (semver : SemverLib) (w : World)
  (dependencyNames request : list string) (customRootDir : option string)
  (pm : PackageManager) (r : Resolution) (rs : list Resolution)
  (err : FsError) :
  requested w dependencyNames = Some request ->
  getDependencyPaths semver w request customRootDir = Some (r :: rs) ->
  ensureDir w (localNodeModules w) = Some err ->
  main semver w dependencyNames customRootDir pm
  = (w, [], UnhandledRejection).
Proof.
  intros Hreq Hg Hdir.
  assert (Hne : request <> []).
  { intros ->. unfold getDependencyPaths in Hg.
    destruct (rootDirs w customRootDir); [|discriminate Hg].
    change (depsToSearch w (dependencySpecs []))
      with (@nil DependencySpec) in Hg.
    discriminate Hg. }
  rewrite (main_requested semver w dependencyNames request customRootDir pm
             Hreq Hne).
  unfold resolveAndInstall, awaitCopyDependenciesToLocal.
  now rewrite Hg, Hdir.
Qed.

Lemma uncreatable_node_modules_ends_run_witness :
  main PlainSemver.lib Scenario.nodeModulesNotCreatable
    ["left-pad"; "unknown-pkg"] (Some "/cache") npm
  = (Scenario.nodeModulesNotCreatable, [], UnhandledRejection).
Proof.
  apply (uncreatable_node_modules_ends_run PlainSemver.lib
           Scenario.nodeModulesNotCreatable ["left-pad"; "unknown-pkg"]
           ["left-pad"; "unknown-pkg"] (Some "/cache") npm
           (mkResolution "left-pad" "/cache/app/node_modules/left-pad"
              "1.3.0")
           [] (mkFsError "EACCES" "permission denied"));
    reflexivity.
Defined.

(** On Windows, without a custom root directory, a run that has
    something to ask for ends with an unhandled rejection when the
    drives cannot be listed: nothing is searched and the package manager
    is not run. *)
Theorem unreadable_drives_end_run (semver : SemverLib) (w : World)
  (dependencyNames request : list string) (customRootDir : option string)
  (pm : PackageManager) :
  requested w dependencyNames = Some request ->
  request <> [] ->
  platform w = "win32" ->
  Js.truthyOpt customRootDir = false ->
  drives w = None ->
  main semver w dependencyNames customRootDir pm
  = (w, [], UnhandledRejection).
Proof.
  intros Hreq Hne Hwin Hroot Hdrives.
  rewrite (main_requested semver w dependencyNames request customRootDir pm
             Hreq Hne).
  unfold resolveAndInstall, getDependencyPaths.
  assert (E : rootDirs w customRootDir = None).
  { unfold rootDirs, platformRootDirs. rewrite Hwin, Hdrives. simpl.
    destruct customRootDir as [dir|]; [|reflexivity].
    simpl in Hroot. now rewrite Hroot. }
  now rewrite E.
Qed.

Lemma unreadable_drives_end_run_witness :
  main PlainSemver.lib Scenario.drivesUnreadable ["left-pad"] None npm
  = (Scenario.drivesUnreadable, [], UnhandledRejection).
Proof.
  apply (unreadable_drives_end_run PlainSemver.lib
           Scenario.drivesUnreadable ["left-pad"] ["left-pad"] None npm);
    try reflexivity.
  discriminate.
Defined.
